(** * StackerNews: the Hacker News scraper of [hackernews/hackernews.go]

    A shallow embedding of the front-page assembler and of the comment-thread
    reconstruction scan, together with the relational store they write to
    ([schema/hackernews.sql]), and the properties of the closure table
    [hackernews.threads] that the scan maintains.

    Conventions.
    - Go [int] values are modelled as [Z]; the only place where the width of
      [int] is observable is [strconv.Atoi], whose range check is written out
      for a 64-bit [int].
    - A [goquery.Selection] is modelled by what the code reads out of it: its
      text, its attributes and its length.
    - The store is an explicit state; every statement sent to it may fail,
      and [log.Fatal] ends the whole process. *)

From Stdlib Require Import ZArith List String Ascii Bool Lia.
Import ListNotations.

Local Open Scope Z_scope.

(** ** Text primitives: [regexp] and [strconv] *)

Definition is_digit (c : ascii) : bool :=
  let n := nat_of_ascii c in ((48 <=? n)%nat && (n <=? 57)%nat)%bool.

Definition digit_val (c : ascii) : Z := Z.of_nat (nat_of_ascii c) - 48.

(** The longest prefix of [s] made of ASCII digits. *)
Fixpoint take_digits (s : string) : string :=
  match s with
  | EmptyString => EmptyString
  | String c s' => if is_digit c then String c (take_digits s') else EmptyString
  end.

(** [number_re.FindString] for [number_re = regexp.MustCompile("[0-9]+")]:
    the leftmost match, extended greedily; the empty string when the text has
    no digit. *)
Fixpoint number_re_FindString (s : string) : string :=
  match s with
  | EmptyString => EmptyString
  | String c s' =>
      if is_digit c then String c (take_digits s') else number_re_FindString s'
  end.

Inductive NumError : Set := ErrSyntax | ErrRange.

(** Width of Go's [int] on the platforms the program is built for. *)
Definition intSize : Z := 64.
Definition maxInt : Z := 2 ^ (intSize - 1) - 1.
Definition minInt : Z := - 2 ^ (intSize - 1).

(** Largest [uint64], and [cutoff64(10)]: the smallest [n] for which
    [n * 10] overflows a [uint64]. *)
Definition maxUint64 : Z := 2 ^ 64 - 1.
Definition cutoff64 : Z := maxUint64 / 10 + 1.

(** The loop of [strconv.ParseUint(s, 10, 0)] over the bytes of [s], [n]
    being the value accumulated so far.  The bytes are read from the left:
    a byte that is not a decimal digit ends the loop with a syntax error and
    the value 0, an overflow ends it with a range error and the largest
    [uint64], whatever follows.  The arithmetic is that of [uint64]:
    [n1 < n] is how the code detects that the addition wrapped around;
    [maxVal] is the largest value of the [intSize] bits asked for. *)
Fixpoint ParseUint_loop (n : Z) (s : string) : Z * option NumError :=
  match s with
  | EmptyString => (n, None)
  | String c s' =>
      if is_digit c then
        let v := digit_val c in
        if cutoff64 <=? n then (maxUint64, Some ErrRange)
        else
          let n := (n * 10) mod 2 ^ 64 in
          let n1 := (n + v) mod 2 ^ 64 in
          let maxVal := 2 ^ intSize - 1 in
          if ((n1 <? n) || (maxVal <? n1))%bool then (maxUint64, Some ErrRange)
          else ParseUint_loop n1 s'
      else (0, Some ErrSyntax)
  end.

Definition ParseUint (s : string) : Z * option NumError :=
  match s with
  | EmptyString => (0, Some ErrSyntax)
  | String _ _ => ParseUint_loop 0 s
  end.

(** [strconv.ParseInt(s, 10, 0)]: an optional sign, then [ParseUint].  A
    syntax error yields 0; a range error of [ParseUint], or a value outside
    [int], yields the nearest bound of [int] with a range error. *)
Definition ParseInt (s : string) : Z * option NumError :=
  match s with
  | EmptyString => (0, Some ErrSyntax)
  | String c r =>
      let '(neg, body) :=
        if Ascii.eqb c "+"%char then (false, r)
        else if Ascii.eqb c "-"%char then (true, r)
        else (false, s) in
      match ParseUint body with
      | (_, Some ErrSyntax) => (0, Some ErrSyntax)
      | (un, _) =>
          let cutoff := 2 ^ (intSize - 1) in
          if (negb neg && (cutoff <=? un))%bool then (cutoff - 1, Some ErrRange)
          else if (neg && (cutoff <? un))%bool then (- cutoff, Some ErrRange)
          else (if neg then - un else un, None)
      end
  end.

(** [strconv.Atoi]: [ParseInt(s, 10, 0)] converted to [int], which has the
    width [ParseInt] was asked for. *)
Definition Atoi (s : string) : Z * option NumError := ParseInt s.

(** [strings.Split(s, "=")]: the pieces of [s] between the occurrences of
    ['=']; always at least one piece. *)
Fixpoint split_eq (s : string) : list string :=
  match s with
  | EmptyString => [EmptyString]
  | String c s' =>
      if Ascii.eqb c "="%char then EmptyString :: split_eq s'
      else match split_eq s' with
           | [] => [String c EmptyString]
           | p :: ps => String c p :: ps
           end
  end.

(** [parseIntFromSelectionText], applied to the text of the selection. *)
Definition parseIntFromSelectionText (text : string) : Z :=
  let text := number_re_FindString text in
  match Atoi text with
  | (i, None) => i
  | (_, Some _) => 0
  end.

(** Positional value of a decimal numeral, most significant digit first. *)
Fixpoint decimal_value (s : string) : Z :=
  match s with
  | EmptyString => 0
  | String c s' => digit_val c * 10 ^ Z.of_nat (String.length s') + decimal_value s'
  end.

Fixpoint all_digits (s : string) : bool :=
  match s with
  | EmptyString => true
  | String c s' => (is_digit c && all_digits s')%bool
  end.

Fixpoint no_digit (s : string) : bool :=
  match s with
  | EmptyString => true
  | String c s' => (negb (is_digit c) && no_digit s')%bool
  end.

(** What the specification asks of the extraction: the integer denoted by the
    run of digits the text starts with, 0 when it starts with none. *)
Definition leading_run_value (text : string) : Z :=
  decimal_value (take_digits text).

(** ** Selections

    An element exposes its tag, its [href] attribute and its text.  A region
    of a row (the head of a comment, the subtext cell of an article) is the
    list of its child elements in document order. *)

Record Elem : Type := mkElem {
  tag : string;
  href : option string;
  text : string
}.

(** [v, _ := sel.Attr(name)]: the empty string when the attribute is absent. *)
Definition Attr (a : option string) : string :=
  match a with
  | Some v => v
  | None => EmptyString
  end.

Definition is_link (e : Elem) : bool := String.eqb (tag e) "a".

(** [sel.Find("a")] *)
Definition Find_a (region : list Elem) : list Elem := filter is_link region.

(** [sel.First().Text()] *)
Definition First_Text (sel : list Elem) : string :=
  match sel with
  | [] => EmptyString
  | e :: _ => text e
  end.

(** [sel.Text()]: the texts of all the elements of the selection, joined. *)
Definition Text (sel : list Elem) : string :=
  fold_right (fun e acc => String.append (text e) acc) EmptyString sel.

(** [sel.First().Attr("href")], which is what [sel.Attr("href")] reads. *)
Definition First_href (sel : list Elem) : option string :=
  match sel with
  | [] => None
  | e :: _ => href e
  end.

(** [region.Find("a").Next()]: the element that follows each link. *)
Fixpoint Next_of_links (region : list Elem) : list Elem :=
  match region with
  | [] => []
  | e :: rest =>
      match rest with
      | [] => []
      | e' :: _ => if is_link e then e' :: Next_of_links rest else Next_of_links rest
      end
  end.

(** ** The relational store ([schema/hackernews.sql]) *)

Module Store.

Record ArticleRow : Type := mkArticleRow {
  a_id : Z;
  a_rank : Z;
  a_link : string;
  a_title : string;
  a_score : Z;
  a_username : string;
  a_comment_count : Z;
  a_comments_link : string;
  a_snapshot_id : Z
}.

Record CommentRow : Type := mkCommentRow {
  c_id : Z;
  c_comment_id : Z;
  c_username : string;
  c_color : string;
  c_content : string;
  c_article_id : Z
}.

(** A row of [hackernews.threads], the closure table. *)
Record ThreadRow : Type := mkThreadRow {
  t_id : Z;
  ancestor : Z;
  descendant : Z;
  depth : Z
}.

(** The tables in insertion order, the next value of each [SERIAL]
    sequence, and the number of statements executed so far. *)
Record t : Type := mk {
  articles : list ArticleRow;
  comments : list CommentRow;
  threads : list ThreadRow;
  articles_seq : Z;
  comments_seq : Z;
  threads_seq : Z;
  issued : nat
}.

Definition empty : t := mk [] [] [] 1 1 1 0.

Definition tick (s : t) : t :=
  mk (articles s) (comments s) (threads s)
     (articles_seq s) (comments_seq s) (threads_seq s) (S (issued s)).

End Store.

(** ** Outcomes

    A call either returns, or ends the process through [log.Fatal]
    ([os.Exit(1)]), or panics (index out of range).  The store is carried in
    every case: it is what is left behind. *)

Inductive Result (A : Type) : Type :=
| Ok (a : A) (s : Store.t)
| Fatal (s : Store.t)
| Panic (s : Store.t).

Arguments Ok {A} a s.
Arguments Fatal {A} s.
Arguments Panic {A} s.

Definition final_store {A} (r : Result A) : Store.t :=
  match r with
  | Ok _ s => s
  | Fatal s => s
  | Panic s => s
  end.

Definition terminated {A} (r : Result A) : bool :=
  match r with
  | Ok _ _ => false
  | Fatal _ => true
  | Panic _ => true
  end.

(** Computations over the store.  The first argument tells, for the n-th
    statement sent over the connection, whether it fails (connection lost,
    constraint violated, value out of range, ...). *)
Definition M (A : Type) : Type := (nat -> bool) -> Store.t -> Result A.

Definition ret {A} (a : A) : M A := fun _ s => Ok a s.

Definition bind {A B} (m : M A) (k : A -> M B) : M B :=
  fun fails s =>
    match m fails s with
    | Ok a s' => k a fails s'
    | Fatal s' => Fatal s'
    | Panic s' => Panic s'
    end.

Declare Scope store_scope.
Delimit Scope store_scope with store.
Notation "x <- m ;; k" := (bind m (fun x => k))
  (at level 61, m at next level, right associativity) : store_scope.
Notation "m ;;; k" := (bind m (fun _ => k))
  (at level 61, right associativity) : store_scope.
Local Open Scope store_scope.

(** An operation that panics when it has no result. *)
Definition or_panic {A} (o : option A) : M A :=
  fun _ s => match o with
             | Some a => Ok a s
             | None => Panic s
             end.

(** [db.QueryRow(stmt).Scan(...)] followed by [log.Fatal] on error.  A
    statement that fails changes nothing; a statement that succeeds but
    returns no row makes [Scan] fail with [sql.ErrNoRows]. *)
Definition QueryRow {A} (stmt : Store.t -> Store.t * option A) : M A :=
  fun fails s =>
    if fails (Store.issued s) then Fatal s
    else
      let '(s', r) := stmt s in
      match r with
      | Some a => Ok a (Store.tick s')
      | None => Fatal (Store.tick s')
      end.

Definition never_fails : nat -> bool := fun _ => false.

(** ** Markup handed to the parsers *)

(** One [span.comment] of a comments page, with the parts of its table row
    that the scan reads. *)
Record CommentSpan : Type := mkCommentSpan {
  ind_width : option string;   (* width of the img in td.ind *)
  comhead : list Elem;         (* children of span.comhead *)
  font_color : option string;  (* color of the font element of the body *)
  body_html : string           (* inner HTML once the .reply elements are removed *)
}.

(** The [td.subtext] selection of a front-page row. *)
Record Subtext : Type := mkSubtext {
  score_text : string;         (* text of span.score *)
  sub_region : list Elem       (* children of the cell *)
}.

(** One row of the main table of the front page. *)
Record FrontRow : Type := mkFrontRow {
  class : option string;
  rank_text : string;          (* text of span.rank *)
  title_links : list Elem;     (* the selection ".title a" *)
  subtext : option Subtext     (* None: the selection is empty *)
}.

Definition SPACER : string := "spacer".
Definition TITLE_ROW : string := "athing".

(** ** Articles *)

Module Article.

Record t : Type := mk {
  ID : Z;
  SnapshotID : Z;
  Rank : Z;
  Link : string;
  Title : string;
  Score : Z;
  Username : string;
  CommentCount : Z;
  CommentsLink : string
}.

(** [&Article{SnapshotID: id}] *)
Definition new (snapshotID : Z) : t :=
  mk 0 snapshotID 0 EmptyString EmptyString 0 EmptyString 0 EmptyString.

Definition parseTitleRow (a : t) (row : FrontRow) : t :=
  mk (ID a) (SnapshotID a)
     (parseIntFromSelectionText (rank_text row))
     (Attr (First_href (title_links row)))
     (Text (title_links row))
     (Score a) (Username a) (CommentCount a) (CommentsLink a).

Definition parseSubtextRow (a : t) (s : option Subtext) : t * bool :=
  match s with
  | None => (a, false)
  | Some s =>
      let links := Find_a (sub_region s) in
      let comments := match last (map Some links) None with
                      | Some e => [e]
                      | None => []
                      end in
      (mk (ID a) (SnapshotID a) (Rank a) (Link a) (Title a)
          (parseIntFromSelectionText (score_text s))
          (First_Text links)
          (parseIntFromSelectionText (Text comments))
          (Attr (First_href comments)),
       true)
  end.

Definition to_row (id : Z) (a : t) : Store.ArticleRow :=
  Store.mkArticleRow id (Rank a) (Link a) (Title a) (Score a) (Username a)
                     (CommentCount a) (CommentsLink a) (SnapshotID a).

Definition with_ID (a : t) (id : Z) : t :=
  mk id (SnapshotID a) (Rank a) (Link a) (Title a) (Score a) (Username a)
     (CommentCount a) (CommentsLink a).

(** INSERT INTO hackernews.articles ... RETURNING id *)
Definition store (a : t) : M t :=
  id <- QueryRow (fun s =>
          let id := Store.articles_seq s in
          (Store.mk (Store.articles s ++ [to_row id a]) (Store.comments s)
                    (Store.threads s) (id + 1) (Store.comments_seq s)
                    (Store.threads_seq s) (Store.issued s),
           Some id)) ;;
  ret (with_ID a id).

End Article.

(** ** Comments *)

Module Comment.

Record t : Type := mk {
  ID : Z;
  Username : string;
  CommentID : Z;
  Color : string;
  Content : string;
  ArticleID : Z;
  offset : Z
}.

(** [&Comment{ArticleID: id}] *)
Definition new (articleID : Z) : t :=
  mk 0 EmptyString 0 EmptyString EmptyString articleID 0.

Definition with_ID (c : t) (id : Z) : t :=
  mk id (Username c) (CommentID c) (Color c) (Content c) (ArticleID c) (offset c).

Definition with_Username (c : t) (u : string) : t :=
  mk (ID c) u (CommentID c) (Color c) (Content c) (ArticleID c) (offset c).

Definition parseIndent (c : t) (s : CommentSpan) : t :=
  let width := Attr (ind_width s) in
  mk (ID c) (Username c) (CommentID c) (Color c) (Content c) (ArticleID c)
     (fst (Atoi width)).

Inductive HeadError : Set :=
| WrongLinkCount              (* "Wrong number of links in comment head" *)
| BadID (e : NumError).

(** The comment as the call leaves it and the error it returns; [None] when
    [strings.Split(_id, "=")[1]] is out of range. *)
Definition parseCommentHead (c : t) (head : list Elem)
  : option (t * option HeadError) :=
  let links := Find_a head in
  if negb (List.length links =? 2)%nat then Some (c, Some WrongLinkCount)
  else
    let c := with_Username c (First_Text links) in
    let _id := Attr (First_href (Next_of_links head)) in
    match nth_error (split_eq _id) 1 with
    | None => None
    | Some piece =>
        match Atoi piece with
        | (_, Some e) => Some (c, Some (BadID e))
        | (id, None) => Some (with_ID c id, None)
        end
    end.

Definition parseCommentBody (c : t) (s : CommentSpan) : t :=
  mk (ID c) (Username c) (CommentID c) (Attr (font_color s)) (body_html s)
     (ArticleID c) (offset c).

Definition to_row (id : Z) (c : t) : Store.CommentRow :=
  Store.mkCommentRow id (CommentID c) (Username c) (Color c) (Content c)
                     (ArticleID c).

(** Two statements: the row of [hackernews.comments], whose generated id
    is scanned into [c.ID], then the self-edge of [hackernews.threads]. *)
Definition store (c : t) : M t :=
  id <- QueryRow (fun s =>
          let id := Store.comments_seq s in
          (Store.mk (Store.articles s) (Store.comments s ++ [to_row id c])
                    (Store.threads s) (Store.articles_seq s) (id + 1)
                    (Store.threads_seq s) (Store.issued s),
           Some id)) ;;
  let c := with_ID c id in
  _ <- QueryRow (fun s =>
         let tid := Store.threads_seq s in
         (Store.mk (Store.articles s) (Store.comments s)
                   (Store.threads s ++ [Store.mkThreadRow tid (ID c) (ID c) 0])
                   (Store.articles_seq s) (Store.comments_seq s)
                   (tid + 1) (Store.issued s),
          Some tid)) ;;
  ret c.

(** Rows produced by an INSERT ... SELECT, numbered by the sequence. *)
Fixpoint number_rows (next : Z) (rows : list (Z * Z * Z)) : list Store.ThreadRow :=
  match rows with
  | [] => []
  | (a, d, k) :: rest => Store.mkThreadRow next a d k :: number_rows (next + 1) rest
  end.

(** SELECT ancestor, $1, depth + 1 FROM hackernews.threads WHERE descendant = $2 *)
Definition reply_rows (threads : list Store.ThreadRow) (child parent : Z)
  : list (Z * Z * Z) :=
  map (fun e => (Store.ancestor e, child, Store.depth e + 1))
      (filter (fun e => Store.descendant e =? parent) threads).

(** One statement inserts the whole selection; [Scan] reads the id and the
    depth of the first row it returns. *)
Definition addReply (c child : t) : M Z :=
  r <- QueryRow (fun s =>
         let rows := number_rows (Store.threads_seq s)
                       (reply_rows (Store.threads s) (ID child) (ID c)) in
         (Store.mk (Store.articles s) (Store.comments s)
                   (Store.threads s ++ rows)
                   (Store.articles_seq s) (Store.comments_seq s)
                   (Store.threads_seq s + Z.of_nat (List.length rows))
                   (Store.issued s),
          match rows with
          | [] => None
          | e :: _ => Some (Store.t_id e, Store.depth e)
          end)) ;;
  ret (fst r).

End Comment.

(** ** The comments page of an article: the reconstruction scan *)

Module CommentPage.

Record t : Type := mk {
  Comments : list Comment.t;
  thread : list Comment.t;
  depth : nat
}.

(** [&CommentPage{}] *)
Definition empty : t := mk [] [] 0.

(** The loop [for i = cp.depth - 1; i >= 0; i -= 1], started with [n]
    entries left to inspect ([i = n - 1]); the result is [i + 1] on exit,
    [None] when [cp.thread[i]] is out of range. *)
Fixpoint scan_back (thread : list Comment.t) (off : Z) (n : nat) : option nat :=
  match n with
  | O => Some O
  | S i =>
      match nth_error thread i with
      | None => None
      | Some prior =>
          if Comment.offset prior <? off then Some (S i)
          else scan_back thread off i
      end
  end.

(** The body of the callback of [comments.Each]. *)
Definition visit (articleID : Z) (cp : t) (s : CommentSpan) : M t :=
  let c := Comment.new articleID in
  let c := Comment.parseIndent c s in
  h <- or_panic (Comment.parseCommentHead c (comhead s)) ;;
  let c := fst h in
  let c := Comment.parseCommentBody c s in
  c <- Comment.store c ;;
  keep <- or_panic (scan_back (thread cp) (Comment.offset c) (depth cp)) ;;
  let thread' := firstn keep (thread cp) ++ [c] in
  let depth' := List.length thread' in
  (if (1 <? depth')%nat then
     parent <- or_panic (nth_error thread' (depth' - 2)) ;;
     Comment.addReply parent c
   else ret 0) ;;;
  ret (mk (Comments cp ++ [c]) thread' depth').

(** [comments.Each(...)] over the comment spans of the fetched document. *)
Fixpoint each (articleID : Z) (cp : t) (spans : list CommentSpan) : M t :=
  match spans with
  | [] => ret cp
  | s :: rest => cp' <- visit articleID cp s ;; each articleID cp' rest
  end.

(** [doc] is what [goquery.NewDocument(ROOT_URL + a.CommentsLink)]
    returned: the comment spans of the page, or [None] when the fetch
    failed; its error is dropped and [doc.Find] then dereferences nil. *)
Definition parse (cp : t) (a : Article.t) (doc : option (list CommentSpan)) : M t :=
  comments <- or_panic doc ;;
  each (Article.ID a) cp comments.

End CommentPage.

(** ** The front page *)

Module FrontPage.

(** [Articles] holds pointers: an article is appended before it is stored,
    and [store] later writes the generated id through the same pointer. *)
Record t : Type := mk {
  Articles : list nat;
  SnapshotID : Z
}.

(** The articles allocated so far; a pointer is an index. *)
Definition Heap : Type := list Article.t.

Definition deref (h : Heap) (p : nat) : Article.t := nth p h (Article.new 0).

Definition assign (h : Heap) (p : nat) (a : Article.t) : Heap :=
  firstn p h ++ a :: skipn (S p) h.

(** [f.next()] *)
Definition next (f : t) (h : Heap) : Heap * nat :=
  (h ++ [Article.new (SnapshotID f)], List.length h).

(** The variables the callback of [Each] closes over. *)
Record Walk : Type := mkWalk {
  page : t;
  heap : Heap;
  cur : nat
}.

(** The body of the callback: the switch on the class of the row. *)
Definition visit (w : Walk) (row : FrontRow) : M Walk :=
  let cls := Attr (class row) in
  let a := deref (heap w) (cur w) in
  if String.eqb cls SPACER then
    a' <- Article.store a ;;
    let '(h, p) := next (page w) (assign (heap w) (cur w) a') in
    ret (mkWalk (page w) h p)
  else if String.eqb cls TITLE_ROW then
    ret (mkWalk (page w)
                (assign (heap w) (cur w) (Article.parseTitleRow a row))
                (cur w))
  else if String.eqb cls EmptyString then
    let '(a', found) := Article.parseSubtextRow a (subtext row) in
    let h := assign (heap w) (cur w) a' in
    if found then
      ret (mkWalk (mk (Articles (page w) ++ [cur w]) (SnapshotID (page w)))
                  h (cur w))
    else ret (mkWalk (page w) h (cur w))
  else ret w.

Fixpoint each (w : Walk) (rows : list FrontRow) : M Walk :=
  match rows with
  | [] => ret w
  | row :: rest => w' <- visit w row ;; each w' rest
  end.

(** [doc] is what [goquery.NewDocument(ROOT_URL)] returned; a failed fetch
    is fatal. *)
Definition parse (f : t) (h : Heap) (doc : option (list FrontRow)) : M (t * Heap) :=
  match doc with
  | None => fun _ s => Fatal s
  | Some rows =>
      let '(h, p) := next f h in
      w <- each (mkWalk f h p) rows ;;
      ret (page w, heap w)
  end.

End FrontPage.

(** ** The comments loop of [Poll], for one snapshot

    [site] is the remote site: the document served for a comments link. *)
Fixpoint comments_loop (site : string -> option (list CommentSpan))
    (h : FrontPage.Heap) (articles : list nat) : M unit :=
  match articles with
  | [] => ret tt
  | p :: rest =>
      let a := FrontPage.deref h p in
      CommentPage.parse CommentPage.empty a (site (Article.CommentsLink a)) ;;;
      comments_loop site h rest
  end.

(** ** Reading the closure table *)

(** The rows of [hackernews.threads] whose descendant is [d], as pairs of an
    ancestor and its depth, in table order. *)
Definition ancestors_of (s : Store.t) (d : Z) : list (Z * Z) :=
  map (fun e => (Store.ancestor e, Store.depth e))
      (filter (fun e => Store.descendant e =? d) (Store.threads s)).

(** Number of rows of [hackernews.threads] that hold the edge [{a, d, k}]. *)
Definition count_edges (s : Store.t) (a d k : Z) : nat :=
  List.length
    (filter (fun e => (Store.ancestor e =? a) && (Store.descendant e =? d)
                      && (Store.depth e =? k))%bool
            (Store.threads s)).

(** [c] is an immediate reply to [p]. *)
Definition child_of (s : Store.t) (c p : Z) : Prop := count_edges s p c 1 = 1%nat.

(** Ancestors one level further away. *)
Definition deeper (l : list (Z * Z)) : list (Z * Z) :=
  map (fun ak => (fst ak, snd ak + 1)) l.

(** The discipline of the [SERIAL] key of [hackernews.comments] and of the
    foreign keys of [hackernews.threads]: an edge only mentions ids that the
    sequence has already handed out. *)
Definition fresh_ids (s : Store.t) : Prop :=
  Forall (fun e => Store.ancestor e < Store.comments_seq s /\
                   Store.descendant e < Store.comments_seq s)
         (Store.threads s).

(** No statement fails. *)
Definition healthy (fails : nat -> bool) : Prop := forall n, fails n = false.

(** ** Reading the scan *)

(** The offset [parseIndent] gives to the comment of a span. *)
Definition span_offset (s : CommentSpan) : Z :=
  Comment.offset (Comment.parseIndent (Comment.new 0) s).

(** The head of the span has a permalink that [strings.Split] can index. *)
Definition head_ok (s : CommentSpan) : bool :=
  match Comment.parseCommentHead (Comment.new 0) (comhead s) with
  | Some _ => true
  | None => false
  end.

(** The head of the span holds exactly two links. *)
Definition two_links (s : CommentSpan) : bool :=
  (List.length (Find_a (comhead s)) =? 2)%nat.

(** The site-assigned id that the permalink of a span carries. *)
Definition permalink_id (s : CommentSpan) : option Z :=
  match nth_error (split_eq (Attr (First_href (Next_of_links (comhead s))))) 1 with
  | Some piece =>
      match Atoi piece with
      | (id, None) => Some id
      | (_, Some _) => None
      end
  | None => None
  end.

(** The top of the thread stack: [cp.thread[cp.depth-1]]. *)
Definition top (cp : CommentPage.t) : option Comment.t :=
  match CommentPage.depth cp with
  | O => None
  | S i => nth_error (CommentPage.thread cp) i
  end.

(** The receiver of [addReply] in the visit that left [cp]:
    [cp.thread[cp.depth-2]] when [cp.depth > 1].  It is the entry that was on
    top of the stack, once popped, when the top of [cp] was pushed. *)
Definition reply_target (cp : CommentPage.t) : option Comment.t :=
  if (1 <? CommentPage.depth cp)%nat
  then nth_error (CommentPage.thread cp) (CommentPage.depth cp - 2)
  else None.

Fixpoint increasing (l : list Z) : Prop :=
  match l with
  | [] => True
  | x :: rest =>
      match rest with
      | [] => True
      | y :: _ => x < y /\ increasing rest
      end
  end.

(** The comment processed last: the last entry of [cp.Comments]. *)
Definition most_recent (cp : CommentPage.t) : option Comment.t :=
  last (map Some (CommentPage.Comments cp)) None.

(** The invariant of the thread stack: the depth counter is the length of
    the stack, the offsets increase strictly from the bottom to the top, and
    the top is the comment processed last. *)
Definition stack_inv (cp : CommentPage.t) : Prop :=
  CommentPage.depth cp = List.length (CommentPage.thread cp) /\
  increasing (map Comment.offset (CommentPage.thread cp)) /\
  top cp = most_recent cp.

(** ** The page and the store after each step of a visit *)

(** The store after [Comment.store] and the comment it leaves. *)
Definition after_store (c : Comment.t) (s : Store.t) : Store.t :=
  let id := Store.comments_seq s in
  Store.mk (Store.articles s)
           (Store.comments s ++ [Comment.to_row id c])
           (Store.threads s ++ [Store.mkThreadRow (Store.threads_seq s) id id 0])
           (Store.articles_seq s) (id + 1) (Store.threads_seq s + 1)
           (S (S (Store.issued s))).

(** The store after [addReply] has inserted a non-empty selection. *)
Definition after_reply (parent child : Z) (s : Store.t) : Store.t :=
  let rows := Comment.number_rows (Store.threads_seq s)
                (Comment.reply_rows (Store.threads s) child parent) in
  Store.mk (Store.articles s) (Store.comments s) (Store.threads s ++ rows)
           (Store.articles_seq s) (Store.comments_seq s)
           (Store.threads_seq s + Z.of_nat (List.length rows))
           (S (Store.issued s)).

(** The comment a span is parsed into, before it is stored. *)
Definition parsed (articleID : Z) (sp : CommentSpan) : option Comment.t :=
  match Comment.parseCommentHead
          (Comment.parseIndent (Comment.new articleID) sp) (comhead sp) with
  | Some (c, _) => Some (Comment.parseCommentBody c sp)
  | None => None
  end.

(** The comment page after a visit that kept [keep] entries of the stack. *)
Definition pushed (cp : CommentPage.t) (keep : nat) (c : Comment.t) : CommentPage.t :=
  let th := firstn keep (CommentPage.thread cp) ++ [c] in
  CommentPage.mk (CommentPage.Comments cp ++ [c]) th (List.length th).

(** The store after a visit that left the page [cp'] with [c] on top. *)
Definition after_visit (cp' : CommentPage.t) (c0 : Comment.t) (s : Store.t) : Store.t :=
  match reply_target cp' with
  | Some p => after_reply (Comment.ID p) (Store.comments_seq s) (after_store c0 s)
  | None => after_store c0 s
  end.

(** The ancestor pairs of [d] in a list of rows. *)
Definition anc_list (rows : list Store.ThreadRow) (d : Z) : list (Z * Z) :=
  map (fun e => (Store.ancestor e, Store.depth e))
      (filter (fun e => Store.descendant e =? d) rows).

(** The rows of [d] start with its self-edge; the others name earlier
    comments of the scan, at depth 1 or more, each pair once. *)
Definition well_linked (n0 : Z) (s : Store.t) (d : Z) : Prop :=
  exists rest,
    ancestors_of s d = (d, 0) :: rest /\
    Forall (fun ak => n0 <= fst ak < d /\ 1 <= snd ak) rest /\
    NoDup rest.

(** What holds of the page and of the store between two visits of a scan
    that started when the comment sequence was at [n0]. *)
Definition scan_inv (n0 : Z) (cp : CommentPage.t) (s : Store.t) : Prop :=
  stack_inv cp /\
  fresh_ids s /\
  n0 <= Store.comments_seq s /\
  Forall (fun c => n0 <= Comment.ID c < Store.comments_seq s) (CommentPage.thread cp) /\
  Forall (fun c => n0 <= Comment.ID c < Store.comments_seq s) (CommentPage.Comments cp) /\
  (forall d, n0 <= d < Store.comments_seq s -> well_linked n0 s d) /\
  (forall i p c,
      nth_error (CommentPage.thread cp) i = Some p ->
      nth_error (CommentPage.thread cp) (S i) = Some c ->
      In (Comment.ID p, 1) (ancestors_of s (Comment.ID c))).

(** The store row of a comment of the page. *)
Definition row_of (c : Comment.t) : Store.CommentRow :=
  Comment.to_row (Comment.ID c) c.

(** The rows of the closure table as triples, in table order. *)
Definition edges (s : Store.t) : list (Z * Z * Z) :=
  map (fun e => (Store.ancestor e, Store.descendant e, Store.depth e))
      (Store.threads s).

(** The edges [addReply] derives from the ancestor pairs of the parent. *)
Definition reply_edges (child : Z) (l : list (Z * Z)) : list (Z * Z * Z) :=
  map (fun ak => (fst ak, child, snd ak + 1)) l.


(** ** Sample markup and sample runs *)

Definition sample_head (user id : string) : list Elem :=
  [mkElem "a" (Some (String.append "user?id=" user)) user;
   mkElem "a" (Some (String.append "item?id=" id)) "2 hours ago"].

Definition sample_span (width user id : string) : CommentSpan :=
  mkCommentSpan (Some width) (sample_head user id) (Some "#000000"%string) "text".

Definition sample_article : Article.t := Article.with_ID (Article.new 1) 7.

Definition sample_doc : list CommentSpan :=
  [sample_span "0" "ann" "101"; sample_span "80" "bob" "102";
   sample_span "40" "cat" "103"; sample_span "80" "dan" "104"].

(** The scan of the sample page over an empty store that never fails. *)
Definition sample_run : Result CommentPage.t :=
  Eval vm_compute in
    CommentPage.each 7 CommentPage.empty sample_doc never_fails Store.empty.

Definition sample_doc_0212 : list CommentSpan :=
  [sample_span "0" "ann" "101"; sample_span "2" "bob" "102";
   sample_span "1" "cat" "103"; sample_span "2" "dan" "104"].

Definition sample_doc_012 : list CommentSpan :=
  [sample_span "0" "ann" "101"; sample_span "1" "bob" "102";
   sample_span "2" "cat" "103"].

Definition sample_doc_000 : list CommentSpan :=
  [sample_span "0" "ann" "101"; sample_span "0" "bob" "102";
   sample_span "0" "cat" "103"].

(** A head with three links: the user, the permalink and a link to the
    parent. *)
Definition malformed_span (width user id : string) : CommentSpan :=
  mkCommentSpan (Some width)
    (sample_head user id ++ [mkElem "a" (Some "item?id=1"%string) "parent"])
    (Some "#000000"%string) "text".

Definition sample_doc_malformed : list CommentSpan :=
  [sample_span "0" "ann" "101"; malformed_span "40" "bob" "102";
   sample_span "80" "cat" "103"; sample_span "40" "dan" "104"].

(** The same page without its second span. *)
Definition sample_doc_without_malformed : list CommentSpan :=
  [sample_span "0" "ann" "101";
   sample_span "80" "cat" "103"; sample_span "40" "dan" "104"].

(** ** Store failures *)

(** The store once the row of a comment is inserted, before its self-edge. *)
Definition after_comment_insert (c : Comment.t) (s : Store.t) : Store.t :=
  Store.mk (Store.articles s)
           (Store.comments s ++ [Comment.to_row (Store.comments_seq s) c])
           (Store.threads s) (Store.articles_seq s) (Store.comments_seq s + 1)
           (Store.threads_seq s) (S (Store.issued s)).

(** The statement number [k] fails, the others succeed. *)
Definition fails_at (k : nat) : nat -> bool := fun n => Nat.eqb n k.

Definition sample_site (link : string) : option (list CommentSpan) :=
  if String.eqb link "item?id=1" then Some sample_doc else Some sample_doc_012.

Definition sample_heap : FrontPage.Heap :=
  [Article.mk 7 1 1 "http://a.example" "A" 10 "ann" 4 "item?id=1";
   Article.mk 8 1 2 "http://b.example" "B" 5 "bob" 3 "item?id=2"].

(** ** Reading the front page *)

Definition is_spacer (row : FrontRow) : bool := String.eqb (Attr (class row)) SPACER.

Definition is_title (row : FrontRow) : bool := String.eqb (Attr (class row)) TITLE_ROW.

(** An untagged row whose [td.subtext] selection is not empty. *)
Definition has_subtext (row : FrontRow) : bool :=
  negb (is_spacer row) && negb (is_title row) &&
  String.eqb (Attr (class row)) EmptyString &&
  match subtext row with Some _ => true | None => false end.




(** The store once an article is inserted. *)
Definition after_article (a : Article.t) (s : Store.t) : Store.t :=
  Store.mk (Store.articles s ++ [Article.to_row (Store.articles_seq s) a])
           (Store.comments s) (Store.threads s)
           (Store.articles_seq s + 1) (Store.comments_seq s)
           (Store.threads_seq s) (S (Store.issued s)).


(** ** Sample front pages and failing runs *)

Definition sample_title_row : FrontRow :=
  mkFrontRow (Some "athing"%string) "1."
             [mkElem "a" (Some "http://a.example"%string) "A story"] None.

Definition sample_subtext_row : FrontRow :=
  mkFrontRow None EmptyString []
             (Some (mkSubtext "10 points"
                      [mkElem "span" None "10 points";
                       mkElem "a" (Some "user?id=ann"%string) "ann";
                       mkElem "a" (Some "item?id=1"%string) "4 comments"])).

(** An untagged row without a [td.subtext] cell. *)
Definition sample_layout_row : FrontRow := mkFrontRow None EmptyString [] None.

Definition sample_spacer_row : FrontRow :=
  mkFrontRow (Some "spacer"%string) EmptyString [] None.

Definition sample_front_page : FrontPage.t := FrontPage.mk [] 1.

Definition sample_rows : list FrontRow :=
  [sample_title_row; sample_subtext_row; sample_spacer_row;
   sample_title_row; sample_layout_row; sample_spacer_row;
   sample_title_row; sample_subtext_row].

Definition sample_parsed : Comment.t :=
  Eval vm_compute in
    match parsed 7 (sample_span "0" "ann" "101") with
    | Some c => c
    | None => Comment.new 7
    end.

Definition sample_parsed_reply : Comment.t :=
  Eval vm_compute in
    match parsed 7 (sample_span "80" "bob" "102") with
    | Some c => c
    | None => Comment.new 7
    end.

(** The page and the store after the first span of the sample page. *)
Definition sample_first : Result CommentPage.t :=
  Eval vm_compute in
    CommentPage.each 7 CommentPage.empty [sample_span "0" "ann" "101"]
                     never_fails Store.empty.

Definition sample_page_1 : CommentPage.t :=
  match sample_first with
  | Ok cp _ => cp
  | _ => CommentPage.empty
  end.

Definition sample_store_1 : Store.t := final_store sample_first.

(** What the scan of the first sample article leaves when the fourth
    statement fails. *)
Definition sample_fatal : Store.t :=
  Eval vm_compute in
    final_store
      (CommentPage.parse CommentPage.empty (FrontPage.deref sample_heap 0)
         (sample_site (Article.CommentsLink (FrontPage.deref sample_heap 0)))
         (fails_at 3) Store.empty).

(** ** Notions for the further properties *)

(** Whether ['='] occurs in a string. *)
Fixpoint has_eq (s : string) : bool :=
  match s with
  | EmptyString => false
  | String c s' => (Ascii.eqb c "="%char || has_eq s')%bool
  end.

(** A text that does not start with a sign. *)
Definition unsigned (w : string) : bool :=
  match w with
  | EmptyString => true
  | String c _ => negb (Ascii.eqb c "+"%char || Ascii.eqb c "-"%char)
  end.

(** The string [parseCommentHead] splits: the [href] of the element that
    follows the first link of the head, the empty string when there is
    none. *)
Definition permalink_href (head : list Elem) : string :=
  Attr (First_href (Next_of_links head)).

(** The latest of the comments seen so far whose offset is strictly below
    [off]. *)
Definition nearest_shallower (seen : list Comment.t) (off : Z) : option Comment.t :=
  find (fun x => Comment.offset x <? off) (rev seen).

(** The stack and the list of the comments seen so far answer alike when
    asked for the latest entry shallower than a given offset. *)
Definition spine_inv (cp : CommentPage.t) : Prop :=
  CommentPage.depth cp = List.length (CommentPage.thread cp) /\
  forall off,
    find (fun x => Comment.offset x <? off) (rev (CommentPage.thread cp)) =
    find (fun x => Comment.offset x <? off) (rev (CommentPage.Comments cp)).

(** The ids of a path, nearest first, paired with their distance. *)
Fixpoint chain (ids : list Z) (k : Z) : list (Z * Z) :=
  match ids with
  | [] => []
  | x :: rest => (x, k) :: chain rest (k + 1)
  end.

(** The ancestor pairs a stack spells out for its top entry: the top at
    depth 0, the entry below it at depth 1, and so on down to the bottom. *)
Definition path_pairs (stack : list Comment.t) : list (Z * Z) :=
  chain (map Comment.ID (rev stack)) 0.

(** The ancestor pairs of every entry of the stack are those the entries
    at and below it spell out. *)
Definition path_inv (cp : CommentPage.t) (s : Store.t) : Prop :=
  forall i c,
    nth_error (CommentPage.thread cp) i = Some c ->
    ancestors_of s (Comment.ID c) = path_pairs (firstn (S i) (CommentPage.thread cp)).

(** [k] consecutive keys from [n] on. *)
Fixpoint ids_from (n : Z) (k : nat) : list Z :=
  match k with
  | O => []
  | S k' => n :: ids_from (n + 1) k'
  end.

(** A row of the front page that the switch of [FrontPage.parse] acts on. *)
Definition meaningful (row : FrontRow) : bool :=
  (is_spacer row || is_title row || has_subtext row)%bool.


(** [hackernews.snapshots]: the keys of its rows and the next value of its
    sequence. *)
Record SnapshotTable : Type := mkSnapshotTable {
  snapshot_ids : list Z;
  snapshots_seq : Z
}.

(** [FrontPage.store]: INSERT INTO hackernews.snapshots DEFAULT VALUES
    RETURNING id, scanned into [f.SnapshotID]. *)
Definition FrontPage_store (f : FrontPage.t) (t : SnapshotTable)
  : M (FrontPage.t * SnapshotTable) :=
  (id <- QueryRow (fun s => (s, Some (snapshots_seq t))) ;;
   ret (FrontPage.mk (FrontPage.Articles f) id,
        mkSnapshotTable (snapshot_ids t ++ [id]) (id + 1)))%store.

(** [NewFrontPage]: a fresh front page is stored, then parsed; the result
    is what is sent on the channel and returned. *)
Definition NewFrontPage (t : SnapshotTable) (h : FrontPage.Heap)
    (doc : option (list FrontRow))
  : M (FrontPage.t * FrontPage.Heap * SnapshotTable) :=
  (let f := FrontPage.mk [] 0 in
   r <- FrontPage_store f t ;;
   p <- FrontPage.parse (fst r) h doc ;;
   ret (fst p, snd p, snd r))%store.

Definition sample_snapshots : SnapshotTable := mkSnapshotTable [1; 2] 3.

(** A head whose permalink has no ['=']. *)
Definition unsplittable_span : CommentSpan :=
  mkCommentSpan (Some "0"%string)
    [mkElem "a" (Some "user?id=ann"%string) "ann";
     mkElem "a" (Some "item"%string) "2 hours ago"]
    None "text".

(** What the walk over the rows of a new front page keeps: the article
    under construction is the last one allocated; the front page, the
    articles allocated from [base] on and the pointers appended so far all
    belong to the snapshot [snap]. *)
Definition snapshot_inv (base : nat) (snap : Z) (w : FrontPage.Walk) : Prop :=
  List.length (FrontPage.heap w) = S (FrontPage.cur w) /\
  (base <= FrontPage.cur w)%nat /\
  FrontPage.SnapshotID (FrontPage.page w) = snap /\
  (forall q, (base <= q <= FrontPage.cur w)%nat ->
             Article.SnapshotID (FrontPage.deref (FrontPage.heap w) q) = snap) /\
  Forall (fun p => (base <= p <= FrontPage.cur w)%nat)
         (FrontPage.Articles (FrontPage.page w)).

(** * Lemmas *)

(** ** Text primitives *)

Lemma take_digits_all : forall s, all_digits (take_digits s) = true.
Proof.
  induction s as [|c s IH]; simpl; auto.
  destruct (is_digit c) eqn:E; simpl; auto. now rewrite E, IH.
Qed.

Lemma digit_val_range : forall c, is_digit c = true -> 0 <= digit_val c <= 9.
Proof.
  intros c H. unfold is_digit in H. unfold digit_val.
  apply andb_true_iff in H. destruct H as [H1 H2].
  apply Nat.leb_le in H1. apply Nat.leb_le in H2. lia.
Qed.

Lemma decimal_value_nonneg : forall s, all_digits s = true -> 0 <= decimal_value s.
Proof.
  induction s as [|c s IH]; cbn [decimal_value all_digits]; intros H; [lia|].
  apply andb_true_iff in H. destruct H as [Hc Hs].
  pose proof (digit_val_range c Hc). specialize (IH Hs).
  assert (0 <= 10 ^ Z.of_nat (String.length s)) by (apply Z.pow_nonneg; lia).
  nia.
Qed.

Lemma FindString_no_digit :
  forall s, no_digit s = true -> number_re_FindString s = EmptyString.
Proof.
  induction s as [|c s IH]; simpl; intros H; auto.
  apply andb_true_iff in H. destruct H as [Hc Hs].
  apply negb_true_iff in Hc. rewrite Hc. auto.
Qed.

Lemma take_digits_run :
  forall run rest,
    all_digits run = true ->
    take_digits rest = EmptyString ->
    take_digits (String.append run rest) = run.
Proof.
  induction run as [|c run IH]; simpl; intros rest H Hr; auto.
  apply andb_true_iff in H. destruct H as [Hc Hs].
  rewrite Hc. f_equal. auto.
Qed.

Lemma FindString_run :
  forall pre run rest,
    no_digit pre = true ->
    all_digits run = true -> run <> EmptyString ->
    take_digits rest = EmptyString ->
    number_re_FindString (String.append pre (String.append run rest)) = run.
Proof.
  induction pre as [|c pre IH]; simpl; intros run rest Hp Hr Hne Ht.
  - destruct run as [|d run]; [congruence|]. simpl in *.
    apply andb_true_iff in Hr. destruct Hr as [Hd Hr].
    rewrite Hd. f_equal. now apply take_digits_run.
  - apply andb_true_iff in Hp. destruct Hp as [Hc Hp].
    apply negb_true_iff in Hc. rewrite Hc. auto.
Qed.

Lemma maxUint64_val : maxUint64 = 18446744073709551615.
Proof. reflexivity. Qed.

Lemma decimal_value_take_digits :
  forall s, all_digits s = true -> take_digits s = s.
Proof.
  induction s as [|c s IH]; cbn [take_digits all_digits]; intros H; auto.
  apply andb_true_iff in H. destruct H as [Hc Hs]. now rewrite Hc, IH.
Qed.

(** The loop of [ParseUint] on any text: with [run] the digits the text
    starts with, it overflows exactly when [n] followed by [run] exceeds
    the largest [uint64]; otherwise it returns that number when the text
    ends with [run], and a syntax error when it does not. *)
Lemma ParseUint_loop_run :
  forall s n,
    0 <= n <= maxUint64 ->
    ParseUint_loop n s =
      let total := n * 10 ^ Z.of_nat (String.length (take_digits s))
                   + decimal_value (take_digits s) in
      if maxUint64 <? total then (maxUint64, Some ErrRange)
      else if all_digits s then (total, None) else (0, Some ErrSyntax).
Proof.
  induction s as [|c s IH]; intros n Hn; cbn zeta;
    cbn [ParseUint_loop take_digits all_digits].
  - cbn [String.length decimal_value]. change (Z.of_nat 0) with 0.
    replace (n * 10 ^ 0 + 0) with n by lia.
    replace (maxUint64 <? n) with false by (symmetry; apply Z.ltb_ge; lia).
    reflexivity.
  - destruct (is_digit c) eqn:Hc.
    + pose proof (digit_val_range c Hc) as Hv.
      pose proof (decimal_value_nonneg _ (take_digits_all s)) as Hd.
      assert (Hp : 1 <= 10 ^ Z.of_nat (String.length (take_digits s)))
        by (change 1 with (10 ^ 0) at 1; apply Z.pow_le_mono_r; lia).
      cbn [String.length decimal_value andb].
      rewrite Nat2Z.inj_succ, Z.pow_succ_r by lia.
      set (P := 10 ^ Z.of_nat (String.length (take_digits s))) in *.
      set (D := decimal_value (take_digits s)) in *.
      replace (n * (10 * P) + (digit_val c * P + D))
        with ((n * 10 + digit_val c) * P + D) by ring.
      rewrite maxUint64_val in *.
      change cutoff64 with 1844674407370955162.
      change (2 ^ 64) with 18446744073709551616.
      change (2 ^ intSize - 1) with 18446744073709551615.
      destruct (1844674407370955162 <=? n) eqn:Lc.
      * apply Z.leb_le in Lc.
        replace (18446744073709551615 <? (n * 10 + digit_val c) * P + D) with true
          by (symmetry; apply Z.ltb_lt; nia).
        reflexivity.
      * apply Z.leb_gt in Lc.
        rewrite (Z.mod_small (n * 10)) by lia.
        destruct (Z_lt_le_dec (n * 10 + digit_val c) 18446744073709551616) as [Hs|Hb].
        -- rewrite (Z.mod_small (n * 10 + digit_val c)) by lia.
           replace (n * 10 + digit_val c <? n * 10) with false
             by (symmetry; apply Z.ltb_ge; lia).
           replace (18446744073709551615 <? n * 10 + digit_val c) with false
             by (symmetry; apply Z.ltb_ge; lia).
           cbn [orb]. rewrite IH by lia. reflexivity.
        -- assert (E : (n * 10 + digit_val c) mod 18446744073709551616
                       = n * 10 + digit_val c - 18446744073709551616)
             by (symmetry; apply Z.mod_unique with 1; lia).
           rewrite E.
           replace (n * 10 + digit_val c - 18446744073709551616 <? n * 10) with true
             by (symmetry; apply Z.ltb_lt; lia).
           cbn [orb].
           replace (18446744073709551615 <? (n * 10 + digit_val c) * P + D) with true
             by (symmetry; apply Z.ltb_lt; nia).
           reflexivity.
    + cbn [String.length decimal_value andb]. change (Z.of_nat 0) with 0.
      replace (n * 10 ^ 0 + 0) with n by lia.
      replace (maxUint64 <? n) with false by (symmetry; apply Z.ltb_ge; lia).
      reflexivity.
Qed.

(** [ParseUint] on a text that is not empty. *)
Lemma ParseUint_run :
  forall s,
    s <> EmptyString ->
    ParseUint s =
      if maxUint64 <? decimal_value (take_digits s) then (maxUint64, Some ErrRange)
      else if all_digits s then (decimal_value (take_digits s), None)
           else (0, Some ErrSyntax).
Proof.
  intros s Hne. destruct s as [|c s]; [congruence|].
  unfold ParseUint. rewrite ParseUint_loop_run by (rewrite maxUint64_val; lia).
  cbn zeta. rewrite Z.mul_0_l, Z.add_0_l. reflexivity.
Qed.

(** [Atoi] on a text that is not empty and does not start with a sign. *)
Lemma Atoi_unsigned :
  forall s,
    s <> EmptyString ->
    match s with
    | String c _ => (Ascii.eqb c "+"%char || Ascii.eqb c "-"%char)%bool = false
    | EmptyString => True
    end ->
    Atoi s =
      if maxUint64 <? decimal_value (take_digits s) then (maxInt, Some ErrRange)
      else if all_digits s then
             if decimal_value s <=? maxInt then (decimal_value s, None)
             else (maxInt, Some ErrRange)
           else (0, Some ErrSyntax).
Proof.
  intros s Hne Hu. destruct s as [|c s]; [congruence|].
  apply orb_false_iff in Hu. destruct Hu as [Hp Hm].
  unfold Atoi, ParseInt. rewrite Hp, Hm.
  rewrite ParseUint_run by discriminate.
  change (2 ^ (intSize - 1)) with 9223372036854775808.
  change maxInt with 9223372036854775807. rewrite maxUint64_val.
  destruct (18446744073709551615 <? decimal_value (take_digits (String c s))) eqn:Lo.
  - reflexivity.
  - destruct (all_digits (String c s)) eqn:Ha; [|reflexivity].
    rewrite (decimal_value_take_digits _ Ha). cbn [negb andb].
    destruct (9223372036854775808 <=? decimal_value (String c s)) eqn:L1;
      destruct (decimal_value (String c s) <=? 9223372036854775807) eqn:L2;
      try reflexivity.
    + apply Z.leb_le in L1. apply Z.leb_le in L2. lia.
    + apply Z.leb_gt in L1. apply Z.leb_gt in L2. lia.
Qed.

Lemma Atoi_digits :
  forall run,
    all_digits run = true -> run <> EmptyString ->
    Atoi run = if decimal_value run <=? maxInt
               then (decimal_value run, None)
               else (maxInt, Some ErrRange).
Proof.
  intros run H Hne.
  assert (Hu : match run with
               | String c _ => (Ascii.eqb c "+"%char || Ascii.eqb c "-"%char)%bool = false
               | EmptyString => True
               end).
  { destruct run as [|c run]; [exact I|].
    cbn [all_digits] in H. apply andb_true_iff in H. destruct H as [Hc _].
    destruct c as [[] [] [] [] [] [] [] []]; try discriminate Hc; reflexivity. }
  rewrite (Atoi_unsigned run Hne Hu), H, (decimal_value_take_digits _ H).
  destruct (maxUint64 <? decimal_value run) eqn:Lo; [|reflexivity].
  apply Z.ltb_lt in Lo. rewrite maxUint64_val in Lo.
  replace (decimal_value run <=? maxInt) with false; [reflexivity|].
  symmetry. apply Z.leb_gt. change maxInt with 9223372036854775807. lia.
Qed.

Lemma digits_split :
  forall s, exists run rest,
    s = String.append run rest /\ all_digits run = true /\
    take_digits rest = EmptyString /\ take_digits s = run.
Proof.
  induction s as [|c s (run & rest & Hs & Hr & Ht & Hd)].
  - exists EmptyString, EmptyString. auto.
  - destruct (is_digit c) eqn:E.
    + exists (String c run), rest. simpl. rewrite E, Hr, Hd.
      repeat split; auto. f_equal. exact Hs.
    + exists EmptyString, (String c s). simpl. rewrite E. auto.
Qed.

Lemma first_run_cases :
  forall txt,
    no_digit txt = true \/
    exists pre run rest,
      txt = String.append pre (String.append run rest) /\
      no_digit pre = true /\ all_digits run = true /\ run <> EmptyString /\
      take_digits rest = EmptyString.
Proof.
  induction txt as [|c s IH].
  - now left.
  - destruct (is_digit c) eqn:E.
    + right. destruct (digits_split s) as (run & rest & Hs & Hr & Ht & _).
      exists EmptyString, (String c run), rest. simpl. rewrite E, Hr.
      repeat split; auto; congruence.
    + destruct IH as [IH | (pre & run & rest & Hs & Hp & Hr & Hne & Ht)].
      * left. simpl. now rewrite E, IH.
      * right. exists (String c pre), run, rest. simpl. rewrite E, Hp.
        repeat split; auto; congruence.
Qed.

(** ** Inversion of the store computations *)

Lemma bind_Ok :
  forall {A B} (m : M A) (k : A -> M B) fails s b s',
    bind m k fails s = Ok b s' ->
    exists a s1, m fails s = Ok a s1 /\ k a fails s1 = Ok b s'.
Proof.
  intros A B m k fails s b s' H. unfold bind in H.
  destruct (m fails s) as [a s1| |]; try discriminate. eauto.
Qed.

Lemma ret_Ok :
  forall {A} (a b : A) fails s s', ret a fails s = Ok b s' -> b = a /\ s' = s.
Proof. intros A a b fails s s' H. inversion H. auto. Qed.

Lemma or_panic_Ok :
  forall {A} (o : option A) fails s a s',
    or_panic o fails s = Ok a s' -> o = Some a /\ s' = s.
Proof.
  intros A o fails s a s' H. unfold or_panic in H.
  destruct o; inversion H. auto.
Qed.

Lemma QueryRow_Ok :
  forall {A} (stmt : Store.t -> Store.t * option A) fails s a s',
    QueryRow stmt fails s = Ok a s' ->
    fails (Store.issued s) = false /\
    snd (stmt s) = Some a /\ s' = Store.tick (fst (stmt s)).
Proof.
  intros A stmt fails s a s' H. unfold QueryRow in H.
  destruct (fails (Store.issued s)); try discriminate.
  destruct (stmt s) as [s1 [r|]]; inversion H. auto.
Qed.

Lemma QueryRow_healthy :
  forall {A} (stmt : Store.t -> Store.t * option A) fails s a,
    healthy fails -> snd (stmt s) = Some a ->
    QueryRow stmt fails s = Ok a (Store.tick (fst (stmt s))).
Proof.
  intros A stmt fails s a Hh Hs. unfold QueryRow. rewrite Hh.
  destruct (stmt s) as [s1 r]. simpl in *. now subst r.
Qed.

Lemma store_Ok :
  forall c fails s c' s',
    Comment.store c fails s = Ok c' s' ->
    c' = Comment.with_ID c (Store.comments_seq s) /\ s' = after_store c s /\
    fails (Store.issued s) = false /\ fails (S (Store.issued s)) = false.
Proof.
  intros c fails s c' s' H. unfold Comment.store in H.
  apply bind_Ok in H. destruct H as (id & s1 & H1 & H).
  apply bind_Ok in H. destruct H as (tid & s2 & H2 & H).
  apply ret_Ok in H. destruct H as [-> ->].
  apply QueryRow_Ok in H1. destruct H1 as (F1 & E1 & ->). simpl in E1.
  inversion E1; subst id.
  apply QueryRow_Ok in H2. destruct H2 as (F2 & E2 & ->). simpl in *.
  repeat split; auto.
Qed.

Lemma store_healthy :
  forall c fails s,
    healthy fails ->
    Comment.store c fails s =
      Ok (Comment.with_ID c (Store.comments_seq s)) (after_store c s).
Proof.
  intros c fails s Hh. unfold Comment.store, bind, QueryRow, ret.
  rewrite Hh. cbn [Store.tick Store.issued]. rewrite Hh. reflexivity.
Qed.

Lemma addReply_Ok :
  forall p c fails s r s',
    Comment.addReply p c fails s = Ok r s' ->
    s' = after_reply (Comment.ID p) (Comment.ID c) s /\
    fails (Store.issued s) = false /\
    Comment.reply_rows (Store.threads s) (Comment.ID c) (Comment.ID p) <> [].
Proof.
  intros p c fails s r s' H. unfold Comment.addReply in H.
  apply bind_Ok in H. destruct H as (x & s1 & H1 & H).
  apply ret_Ok in H. destruct H as [-> ->].
  apply QueryRow_Ok in H1. destruct H1 as (F1 & E1 & ->). simpl in *.
  repeat split; auto.
  intros E. rewrite E in E1. discriminate.
Qed.

Lemma addReply_healthy :
  forall p c fails s,
    healthy fails ->
    Comment.reply_rows (Store.threads s) (Comment.ID c) (Comment.ID p) <> [] ->
    exists r, Comment.addReply p c fails s =
              Ok r (after_reply (Comment.ID p) (Comment.ID c) s).
Proof.
  intros p c fails s Hh Hne. unfold Comment.addReply, bind, QueryRow, ret.
  rewrite Hh.
  destruct (Comment.reply_rows (Store.threads s) (Comment.ID c) (Comment.ID p))
    as [|[[a d] k] rows] eqn:E; [congruence|].
  unfold after_reply. rewrite E. simpl. eauto.
Qed.

Lemma visit_Ok :
  forall a cp sp fails s cp' s',
    CommentPage.visit a cp sp fails s = Ok cp' s' ->
    exists c0 keep,
      parsed a sp = Some c0 /\
      CommentPage.scan_back (CommentPage.thread cp) (Comment.offset c0)
                            (CommentPage.depth cp) = Some keep /\
      cp' = pushed cp keep (Comment.with_ID c0 (Store.comments_seq s)) /\
      s' = after_visit cp' c0 s.
Proof.
  intros a cp sp fails s cp' s' H. unfold CommentPage.visit in H.
  apply bind_Ok in H. destruct H as (h & s1 & H1 & H).
  apply or_panic_Ok in H1. destruct H1 as [Hh ->].
  apply bind_Ok in H. destruct H as (c & s2 & H2 & H).
  apply store_Ok in H2. destruct H2 as (-> & -> & _ & _).
  apply bind_Ok in H. destruct H as (keep & s3 & H3 & H).
  apply or_panic_Ok in H3. destruct H3 as [Hk ->].
  apply bind_Ok in H. destruct H as (r & s4 & H4 & H).
  apply ret_Ok in H. destruct H as [-> ->].
  exists (Comment.parseCommentBody (fst h) sp), keep.
  split; [unfold parsed; rewrite Hh; now destruct h|].
  split; [exact Hk|]. split; [reflexivity|].
  unfold after_visit, reply_target, pushed. cbn [CommentPage.depth CommentPage.thread].
  match type of H4 with
  | (if ?b then _ else _) _ _ = _ => destruct b eqn:Hd
  end.
  - apply bind_Ok in H4. destruct H4 as (p & s5 & H5 & H4).
    apply or_panic_Ok in H5. destruct H5 as [Hp ->].
    apply addReply_Ok in H4. destruct H4 as (-> & _ & _).
    cbn [Comment.offset Comment.with_ID Comment.parseCommentBody] in *.
    rewrite Hp. reflexivity.
  - apply ret_Ok in H4. destruct H4 as [_ ->]. reflexivity.
Qed.

(** ** The pop loop and the stack *)

Lemma scan_back_le :
  forall th off n keep, CommentPage.scan_back th off n = Some keep -> (keep <= n)%nat.
Proof.
  induction n as [|i IH]; simpl; intros keep H.
  - inversion H. lia.
  - destruct (nth_error th i) as [t|]; try discriminate.
    destruct (Comment.offset t <? off).
    + inversion H. lia.
    + apply IH in H. lia.
Qed.

Lemma scan_back_total :
  forall th off n, (n <= List.length th)%nat ->
    exists keep, CommentPage.scan_back th off n = Some keep.
Proof.
  induction n as [|i IH]; simpl; intros Hn; eauto.
  destruct (nth_error th i) as [t|] eqn:E.
  - destruct (Comment.offset t <? off); eauto. apply IH. lia.
  - apply nth_error_None in E. lia.
Qed.

(** The entry left on top by the loop is shallower than the new comment. *)
Lemma scan_back_top :
  forall th off n i,
    CommentPage.scan_back th off n = Some (S i) ->
    exists t, nth_error th i = Some t /\ Comment.offset t < off.
Proof.
  induction n as [|j IH]; simpl; intros i H; try discriminate.
  destruct (nth_error th j) as [t|] eqn:E; try discriminate.
  destruct (Comment.offset t <? off) eqn:L.
  - inversion H; subst j. exists t. split; auto. now apply Z.ltb_lt.
  - eauto.
Qed.

(** Every entry the loop passes is at the offset of the new comment or deeper. *)
Lemma scan_back_popped :
  forall th off n keep,
    CommentPage.scan_back th off n = Some keep ->
    forall i t, (keep <= i < n)%nat -> nth_error th i = Some t ->
                off <= Comment.offset t.
Proof.
  induction n as [|j IH]; simpl; intros keep H i t Hi Ht; [lia|].
  destruct (nth_error th j) as [u|] eqn:E; try discriminate.
  destruct (Comment.offset u <? off) eqn:L.
  - inversion H; subst keep. lia.
  - destruct (Nat.eq_dec i j) as [->|Hne].
    + rewrite E in Ht. inversion Ht; subst u. now apply Z.ltb_ge.
    + apply (IH keep H i t); auto. lia.
Qed.

Lemma increasing_nth :
  forall l,
    increasing l <->
    (forall i x y, nth_error l i = Some x -> nth_error l (S i) = Some y -> x < y).
Proof.
  induction l as [|a l IH]; simpl.
  - split; auto. intros _ i x y H. destruct i; discriminate.
  - destruct l as [|b l].
    + split; auto. intros _ i x y H1 H2. destruct i as [|[|i]]; discriminate.
    + split.
      * intros [Hab Hinc] i x y H1 H2. destruct i as [|i].
        -- simpl in *. inversion H1; inversion H2; subst. exact Hab.
        -- apply (proj1 IH Hinc i); assumption.
      * intros H. split.
        -- apply (H 0%nat); reflexivity.
        -- apply IH. intros i x y H1 H2. apply (H (S i)); assumption.
Qed.

Lemma increasing_firstn :
  forall k l, increasing l -> increasing (firstn k l).
Proof.
  intros k l H. apply increasing_nth. intros i x y H1 H2.
  rewrite nth_error_firstn in H1, H2.
  destruct (i <? k)%nat; try discriminate.
  destruct (S i <? k)%nat; try discriminate.
  apply (proj1 (increasing_nth l) H i); assumption.
Qed.

Lemma increasing_snoc :
  forall l y,
    increasing l ->
    (forall x, nth_error l (List.length l - 1) = Some x -> x < y) ->
    increasing (l ++ [y]).
Proof.
  intros l y H Hlast. apply increasing_nth. intros i a b H1 H2.
  destruct (Nat.lt_ge_cases (S i) (List.length l)) as [Hlt|Hge].
  - rewrite nth_error_app1 in H1, H2 by lia.
    apply (proj1 (increasing_nth l) H i); assumption.
  - assert (Hi : (i < List.length l)%nat).
    { destruct (Nat.lt_ge_cases i (List.length l)) as [|Hi]; auto.
      rewrite nth_error_app2 in H2 by lia.
      destruct (S i - List.length l)%nat as [|[|k]] eqn:E; simpl in H2;
        try discriminate; lia. }
    rewrite nth_error_app1 in H1 by lia.
    rewrite nth_error_app2 in H2 by lia.
    replace (S i - List.length l)%nat with 0%nat in H2 by lia.
    simpl in H2. inversion H2; subst b.
    apply Hlast. replace (List.length l - 1)%nat with i by lia. exact H1.
Qed.

Lemma most_recent_snoc :
  forall l (c : Comment.t), last (map Some (l ++ [c])) None = Some c.
Proof. intros l c. rewrite map_app. simpl. apply last_last. Qed.

Lemma top_pushed :
  forall cp keep c, top (pushed cp keep c) = Some c.
Proof.
  intros cp keep c. unfold top, pushed. cbn [CommentPage.depth CommentPage.thread].
  rewrite length_app. cbn [List.length]. rewrite Nat.add_1_r.
  rewrite nth_error_app2 by lia. now rewrite Nat.sub_diag.
Qed.

(** The stack invariant survives a push that follows the pop loop. *)
Lemma stack_inv_pushed :
  forall cp keep c,
    stack_inv cp ->
    CommentPage.scan_back (CommentPage.thread cp) (Comment.offset c)
                          (CommentPage.depth cp) = Some keep ->
    stack_inv (pushed cp keep c).
Proof.
  intros cp keep c (Hd & Hinc & _) Hk. split; [reflexivity|]. split.
  - unfold pushed. cbn [CommentPage.thread]. rewrite map_app. cbn [map].
    apply increasing_snoc.
    + rewrite <- firstn_map. now apply increasing_firstn.
    + intros x Hx. rewrite length_map in Hx.
      pose proof (scan_back_le _ _ _ _ Hk) as Hle.
      rewrite length_firstn in Hx.
      rewrite nth_error_map, nth_error_firstn in Hx.
      destruct keep as [|i].
      * simpl in Hx. discriminate.
      * destruct (scan_back_top _ _ _ _ Hk) as (t & Ht & Hlt).
        replace (Nat.min (S i) (List.length (CommentPage.thread cp)) - 1)%nat
          with i in Hx by lia.
        replace (i <? S i)%nat with true in Hx
          by (symmetry; apply Nat.ltb_lt; lia).
        rewrite Ht in Hx. simpl in Hx. inversion Hx; subst x. exact Hlt.
  - rewrite top_pushed. unfold most_recent, pushed. cbn [CommentPage.Comments].
    symmetry. apply most_recent_snoc.
Qed.

(** ** The closure table under a visit *)

Lemma anc_list_app :
  forall r1 r2 d, anc_list (r1 ++ r2) d = anc_list r1 d ++ anc_list r2 d.
Proof. intros. unfold anc_list. now rewrite filter_app, map_app. Qed.

Lemma anc_list_fresh :
  forall s d, fresh_ids s -> Store.comments_seq s <= d ->
              anc_list (Store.threads s) d = [].
Proof.
  intros s d H Hd. unfold fresh_ids in H. unfold anc_list.
  induction (Store.threads s) as [|e l IH]; simpl; auto.
  inversion H as [|? ? [_ He] Hl]; subst.
  replace (Store.descendant e =? d) with false by (symmetry; apply Z.eqb_neq; lia).
  auto.
Qed.

Lemma anc_list_reply_rows :
  forall rows n child parent d,
    anc_list (Comment.number_rows n (Comment.reply_rows rows child parent)) d =
      if child =? d then deeper (anc_list rows parent) else [].
Proof.
  unfold Comment.reply_rows, anc_list, deeper.
  induction rows as [|e l IH]; intros n child parent d; simpl.
  - now destruct (child =? d).
  - destruct (Store.descendant e =? parent); simpl; auto.
    specialize (IH (n + 1) child parent d).
    destruct (child =? d); simpl; now rewrite IH.
Qed.

Lemma threads_after_store :
  forall c s,
    Store.threads (after_store c s) =
      Store.threads s ++
      [Store.mkThreadRow (Store.threads_seq s) (Store.comments_seq s)
                         (Store.comments_seq s) 0].
Proof. reflexivity. Qed.

Lemma threads_after_reply :
  forall p c s,
    Store.threads (after_reply p c s) =
      Store.threads s ++
      Comment.number_rows (Store.threads_seq s)
                          (Comment.reply_rows (Store.threads s) c p).
Proof. reflexivity. Qed.

Lemma comments_seq_after_visit :
  forall cp' c0 s,
    Store.comments_seq (after_visit cp' c0 s) = Store.comments_seq s + 1.
Proof. intros. unfold after_visit. now destruct (reply_target cp'). Qed.

(** The rows a visit adds for its comment, and only for it. *)
Lemma ancestors_after_visit :
  forall cp' c0 s d,
    fresh_ids s ->
    (forall p, reply_target cp' = Some p -> Comment.ID p < Store.comments_seq s) ->
    ancestors_of (after_visit cp' c0 s) d =
      if Store.comments_seq s =? d then
        (d, 0) :: match reply_target cp' with
                  | Some p => deeper (ancestors_of s (Comment.ID p))
                  | None => []
                  end
      else ancestors_of s d.
Proof.
  intros cp' c0 s d Hf Hp. unfold after_visit, ancestors_of.
  fold (anc_list (Store.threads s) d).
  destruct (reply_target cp') as [p|] eqn:E.
  - fold (anc_list (Store.threads
                      (after_reply (Comment.ID p) (Store.comments_seq s)
                                   (after_store c0 s))) d).
    rewrite threads_after_reply, threads_after_store.
    rewrite !anc_list_app, anc_list_reply_rows, anc_list_app.
    fold (anc_list (Store.threads s) (Comment.ID p)).
    specialize (Hp p eq_refl).
    unfold anc_list at 2 4. simpl.
    replace (Store.comments_seq s =? Comment.ID p) with false
      by (symmetry; apply Z.eqb_neq; lia).
    simpl. rewrite app_nil_r.
    destruct (Store.comments_seq s =? d) eqn:Ed.
    + apply Z.eqb_eq in Ed. subst d. rewrite anc_list_fresh by (auto; lia).
      reflexivity.
    + simpl. now rewrite !app_nil_r.
  - fold (anc_list (Store.threads (after_store c0 s)) d).
    rewrite threads_after_store, anc_list_app.
    unfold anc_list at 2. simpl.
    destruct (Store.comments_seq s =? d) eqn:Ed.
    + apply Z.eqb_eq in Ed. subst d. rewrite anc_list_fresh by (auto; lia).
      reflexivity.
    + simpl. now rewrite app_nil_r.
Qed.

Lemma fresh_ids_after_visit :
  forall cp' c0 s, fresh_ids s -> fresh_ids (after_visit cp' c0 s).
Proof.
  intros cp' c0 s H. unfold fresh_ids in *.
  rewrite comments_seq_after_visit.
  assert (Hold : Forall (fun e => Store.ancestor e < Store.comments_seq s + 1 /\
                                  Store.descendant e < Store.comments_seq s + 1)
                        (Store.threads (after_store c0 s))).
  { rewrite threads_after_store. apply Forall_app. split.
    - eapply Forall_impl; [|exact H]. simpl. intros e [? ?]. lia.
    - constructor; [simpl; lia|constructor]. }
  unfold after_visit. destruct (reply_target cp') as [p|]; auto.
  rewrite threads_after_reply. apply Forall_app. split; auto.
  generalize (Store.threads_seq (after_store c0 s)).
  unfold Comment.reply_rows.
  induction Hold as [|e l [He1 He2] Hl IH]; intros n; simpl; [constructor|].
  destruct (Store.descendant e =? Comment.ID p); simpl; auto.
  constructor; auto. simpl. lia.
Qed.

Lemma parsed_fields :
  forall a sp c0,
    parsed a sp = Some c0 ->
    Comment.offset c0 = span_offset sp /\ Comment.ArticleID c0 = a /\
    Comment.CommentID c0 = 0 /\ Comment.Color c0 = Attr (font_color sp) /\
    Comment.Content c0 = body_html sp.
Proof.
  intros a sp c0 H. unfold parsed, Comment.parseCommentHead in H.
  destruct (negb (List.length (Find_a (comhead sp)) =? 2)%nat).
  - inversion H. repeat split.
  - destruct (nth_error _ 1) as [piece|]; try discriminate.
    destruct (Atoi piece) as [id [e|]]; inversion H; repeat split.
Qed.

Lemma reply_target_pushed :
  forall cp keep c,
    (keep <= List.length (CommentPage.thread cp))%nat ->
    reply_target (pushed cp keep c) =
      match keep with
      | O => None
      | S i => nth_error (CommentPage.thread cp) i
      end.
Proof.
  intros cp keep c Hk. unfold reply_target, pushed.
  cbn [CommentPage.depth CommentPage.thread].
  rewrite length_app, length_firstn, Nat.min_l by exact Hk. cbn [List.length].
  destruct keep as [|i].
  - reflexivity.
  - replace (1 <? S i + 1)%nat with true by (symmetry; apply Nat.ltb_lt; lia).
    replace (S i + 1 - 2)%nat with i by lia.
    rewrite nth_error_app1 by (rewrite length_firstn; lia).
    rewrite nth_error_firstn.
    now replace (i <? S i)%nat with true by (symmetry; apply Nat.ltb_lt; lia).
Qed.

Lemma deeper_NoDup : forall l, NoDup l -> NoDup (deeper l).
Proof.
  intros l H. unfold deeper. induction H as [|x l Hx Hl IH]; simpl; constructor; auto.
  intros Hin. apply in_map_iff in Hin. destruct Hin as ([a k] & E & Hin).
  destruct x as [a' k']. simpl in E. inversion E.
  assert (k = k') by lia. subst. contradiction.
Qed.

(** One visit: what it preserves and what it adds. *)
Lemma visit_inv :
  forall n0 a cp sp fails s cp' s',
    scan_inv n0 cp s ->
    CommentPage.visit a cp sp fails s = Ok cp' s' ->
    scan_inv n0 cp' s' /\
    Store.comments_seq s' = Store.comments_seq s + 1 /\
    (forall d, d <> Store.comments_seq s -> ancestors_of s' d = ancestors_of s d) /\
    ancestors_of s' (Store.comments_seq s) =
      (Store.comments_seq s, 0) ::
      match reply_target cp' with
      | Some p => deeper (ancestors_of s' (Comment.ID p))
      | None => []
      end /\
    exists c0 keep,
      parsed a sp = Some c0 /\
      cp' = pushed cp keep (Comment.with_ID c0 (Store.comments_seq s)) /\
      CommentPage.scan_back (CommentPage.thread cp) (span_offset sp)
                            (CommentPage.depth cp) = Some keep /\
      Store.comments s' =
        Store.comments s ++ [Comment.to_row (Store.comments_seq s) c0] /\
      (forall p, reply_target cp' = Some p ->
                 In p (CommentPage.thread cp) /\ Comment.offset p < span_offset sp).
Proof.
  intros n0 a cp sp fails s cp' s' Hinv H.
  destruct Hinv as (Hst & Hf & Hn0 & Hth & Hcs & Hwl & Hpath).
  destruct (visit_Ok _ _ _ _ _ _ _ H) as (c0 & keep & Hp & Hk & -> & ->).
  set (c := Comment.with_ID c0 (Store.comments_seq s)) in *.
  assert (Hoff : Comment.offset c = Comment.offset c0) by reflexivity.
  assert (Hle : (keep <= List.length (CommentPage.thread cp))%nat).
  { apply scan_back_le in Hk. destruct Hst as [Hd _]. lia. }
  pose proof (reply_target_pushed cp keep c Hle) as Hrt.
  assert (Htgt : forall p, reply_target (pushed cp keep c) = Some p ->
                           In p (CommentPage.thread cp) /\
                           Comment.offset p < Comment.offset c /\
                           n0 <= Comment.ID p < Store.comments_seq s).
  { intros p E. rewrite Hrt in E. destruct keep as [|i]; try discriminate.
    destruct (scan_back_top _ _ _ _ Hk) as (t & Ht & Hlt).
    rewrite E in Ht. inversion Ht; subst t.
    pose proof (nth_error_In _ _ E) as Hin.
    repeat split; auto; rewrite Forall_forall in Hth; apply Hth; auto. }
  assert (Hanc := fun d => ancestors_after_visit (pushed cp keep c) c0 s d Hf
                            (fun p E => proj2 (proj2 (proj2 (Htgt p E))))).
  assert (Hsame : forall d, d <> Store.comments_seq s ->
            ancestors_of (after_visit (pushed cp keep c) c0 s) d = ancestors_of s d).
  { intros d Hd. rewrite Hanc.
    now replace (Store.comments_seq s =? d) with false
      by (symmetry; apply Z.eqb_neq; lia). }
  assert (Hnew : ancestors_of (after_visit (pushed cp keep c) c0 s) (Store.comments_seq s) =
            (Store.comments_seq s, 0) ::
            match reply_target (pushed cp keep c) with
            | Some p => deeper (ancestors_of s (Comment.ID p))
            | None => []
            end).
  { rewrite Hanc. now rewrite Z.eqb_refl. }
  split; [|split; [apply comments_seq_after_visit|split; [exact Hsame|split]]].
  - (* the invariant *)
    unfold scan_inv. rewrite comments_seq_after_visit.
    split; [apply stack_inv_pushed; auto|].
    split; [now apply fresh_ids_after_visit|].
    split; [lia|].
    split; [|split; [|split]].
    + unfold pushed. cbn [CommentPage.thread]. apply Forall_app. split.
      * apply Forall_forall. intros x Hx.
        assert (In x (CommentPage.thread cp)).
        { rewrite <- (firstn_skipn keep (CommentPage.thread cp)).
          apply in_or_app. now left. }
        rewrite Forall_forall in Hth. specialize (Hth x H0). lia.
      * constructor; [simpl; lia|constructor].
    + unfold pushed. cbn [CommentPage.Comments]. apply Forall_app. split.
      * eapply Forall_impl; [|exact Hcs]. simpl. intros; lia.
      * constructor; [simpl; lia|constructor].
    + intros d Hd. unfold well_linked.
      destruct (Z.eq_dec d (Store.comments_seq s)) as [->|Hne].
      * rewrite Hnew. destruct (reply_target (pushed cp keep c)) as [p|] eqn:E.
        -- destruct (Htgt p eq_refl) as (_ & _ & Hpr).
           destruct (Hwl _ Hpr) as (rest & Er & Fr & Nr).
           exists (deeper (ancestors_of s (Comment.ID p))). split; auto.
           rewrite Er. split.
           ++ simpl. constructor; [simpl; lia|].
              unfold deeper. apply Forall_forall. intros x Hx.
              apply in_map_iff in Hx. destruct Hx as (y & <- & Hy).
              rewrite Forall_forall in Fr. specialize (Fr y Hy). simpl. lia.
           ++ apply deeper_NoDup. rewrite <- Er.
              rewrite Er. constructor; auto.
              intros Hin. rewrite Forall_forall in Fr.
              specialize (Fr _ Hin). simpl in Fr. lia.
        -- exists []. repeat split; constructor.
      * rewrite Hsame by auto.
        destruct (Hwl d ltac:(lia)) as (rest & Er & Fr & Nr).
        exists rest. auto.
    + intros i p x Hi HSi. unfold pushed in Hi, HSi.
      cbn [CommentPage.thread] in Hi, HSi.
      assert (Hlen : List.length (firstn keep (CommentPage.thread cp)) = keep)
        by (rewrite length_firstn; lia).
      destruct (Nat.lt_ge_cases (S i) keep) as [Hlt|Hge].
      * rewrite nth_error_app1 in Hi, HSi by lia.
        rewrite nth_error_firstn in Hi, HSi.
        replace (i <? keep)%nat with true in Hi by (symmetry; apply Nat.ltb_lt; lia).
        replace (S i <? keep)%nat with true in HSi by (symmetry; apply Nat.ltb_lt; lia).
        pose proof (nth_error_In _ _ HSi) as Hin.
        rewrite Forall_forall in Hth. specialize (Hth x Hin).
        rewrite Hsame by lia. eapply Hpath; eauto.
      * assert (Hik : S i = keep).
        { destruct (Nat.lt_ge_cases keep (S i)) as [Hgt|]; [|lia].
          rewrite nth_error_app2 in HSi by lia.
          destruct (S i - List.length (firstn keep (CommentPage.thread cp)))%nat
            as [|[|k]] eqn:Ek; simpl in HSi; try discriminate; lia. }
        subst keep.
        rewrite nth_error_app1 in Hi by lia.
        rewrite nth_error_firstn in Hi.
        replace (i <? S i)%nat with true in Hi by (symmetry; apply Nat.ltb_lt; lia).
        rewrite nth_error_app2 in HSi by lia.
        replace (S i - List.length (firstn (S i) (CommentPage.thread cp)))%nat
          with 0%nat in HSi by lia.
        simpl in HSi. inversion HSi; subst x.
        change (Comment.ID c) with (Store.comments_seq s).
        rewrite Hnew, Hrt, Hi.
        destruct (Htgt p ltac:(rewrite Hrt; exact Hi)) as (_ & _ & Hpr).
        destruct (Hwl _ Hpr) as (rest & Er & _).
        rewrite Er. right. left. reflexivity.
  - (* the rows of the new comment *)
    rewrite Hnew. f_equal.
    destruct (reply_target (pushed cp keep c)) as [p|] eqn:E; auto.
    destruct (Htgt p eq_refl) as (_ & _ & Hpr). rewrite Hsame by lia. reflexivity.
  - assert (Hso : Comment.offset c0 = span_offset sp)
      by apply (parsed_fields _ _ _ Hp).
    exists c0, keep. split; [exact Hp|]. split; [reflexivity|].
    split; [now rewrite <- Hso|].
    split; [unfold after_visit; now destruct (reply_target (pushed cp keep c))|].
    intros p E. destruct (Htgt p E) as (? & ? & _). rewrite <- Hso, <- Hoff. auto.
Qed.

(** ** The whole scan *)

Lemma scan_inv_start :
  forall s0, fresh_ids s0 -> scan_inv (Store.comments_seq s0) CommentPage.empty s0.
Proof.
  intros s0 H. unfold scan_inv, stack_inv. simpl.
  split; [auto|]. split; [exact H|]. split; [lia|].
  split; [constructor|]. split; [constructor|]. split.
  - intros d Hd. lia.
  - intros i p c Hi. destruct i; discriminate.
Qed.

Lemma each_app :
  forall a l1 l2 cp fails s,
    CommentPage.each a cp (l1 ++ l2) fails s =
      match CommentPage.each a cp l1 fails s with
      | Ok cp1 s1 => CommentPage.each a cp1 l2 fails s1
      | Fatal s1 => Fatal s1
      | Panic s1 => Panic s1
      end.
Proof.
  induction l1 as [|sp l1 IH]; intros l2 cp fails s; simpl.
  - reflexivity.
  - unfold bind. destruct (CommentPage.visit a cp sp fails s); auto.
Qed.

Lemma each_inv :
  forall n0 a doc cp fails s cp' s',
    scan_inv n0 cp s ->
    CommentPage.each a cp doc fails s = Ok cp' s' ->
    scan_inv n0 cp' s' /\
    Store.comments_seq s' = Store.comments_seq s + Z.of_nat (List.length doc) /\
    (forall d, d < Store.comments_seq s -> ancestors_of s' d = ancestors_of s d) /\
    exists new,
      CommentPage.Comments cp' = CommentPage.Comments cp ++ new /\
      Store.comments s' = Store.comments s ++ map row_of new /\
      map Comment.offset new = map span_offset doc.
Proof.
  intros n0 a doc. induction doc as [|sp doc IH]; intros cp fails s cp' s' Hinv H.
  - cbn [CommentPage.each] in H. apply ret_Ok in H. destruct H as [-> ->].
    split; auto. split; [simpl; lia|]. split; auto.
    exists []. now rewrite !app_nil_r.
  - cbn [CommentPage.each] in H. apply bind_Ok in H.
    destruct H as (cp1 & s1 & Hv & H).
    destruct (visit_inv _ _ _ _ _ _ _ _ Hinv Hv)
      as (Hinv1 & Hseq & Hsame & _ & c0 & keep & Hp & -> & _ & Hrows & _).
    destruct (IH _ _ _ _ _ Hinv1 H) as (Hinv' & Hseq' & Hsame' & new & Hc & Hr & Ho).
    split; auto. split; [cbn [List.length]; lia|]. split.
    + intros d Hd. rewrite Hsame' by lia. apply Hsame. lia.
    + exists (Comment.with_ID c0 (Store.comments_seq s) :: new).
      split; [rewrite Hc; unfold pushed; cbn [CommentPage.Comments];
              now rewrite <- app_assoc|].
      split; [rewrite Hr, Hrows, <- app_assoc; reflexivity|].
      cbn [map]. rewrite Ho. f_equal. apply (parsed_fields _ _ _ Hp).
Qed.

(** Whether the head of a span makes [strings.Split(...)[1]] panic does not
    depend on the comment being filled in. *)
Lemma parseCommentHead_panic :
  forall c c' head,
    Comment.parseCommentHead c head = None ->
    Comment.parseCommentHead c' head = None.
Proof.
  intros c c' head. unfold Comment.parseCommentHead.
  destruct (negb (List.length (Find_a head) =? 2)%nat); try discriminate.
  destruct (nth_error _ 1) as [piece|]; auto.
  destruct (Atoi piece) as [id [e|]]; discriminate.
Qed.

Lemma parsed_head_ok :
  forall a sp, head_ok sp = true -> exists c0, parsed a sp = Some c0.
Proof.
  intros a sp H. unfold parsed, head_ok in *.
  destruct (Comment.parseCommentHead (Comment.parseIndent (Comment.new a) sp)
                                     (comhead sp)) as [[c e]|] eqn:E; eauto.
  now rewrite (parseCommentHead_panic _ (Comment.new 0) _ E) in H.
Qed.

(** With a store that answers and a head that can be indexed, a visit
    returns. *)
Lemma visit_healthy :
  forall n0 a cp sp fails s,
    scan_inv n0 cp s -> healthy fails -> head_ok sp = true ->
    exists cp' s', CommentPage.visit a cp sp fails s = Ok cp' s'.
Proof.
  intros n0 a cp sp fails s Hinv Hh Hok.
  destruct Hinv as (Hst & Hf & Hn0 & Hth & Hcs & Hwl & Hpath).
  destruct (parsed_head_ok a sp Hok) as (c0 & Hp).
  unfold parsed in Hp.
  destruct (Comment.parseCommentHead (Comment.parseIndent (Comment.new a) sp)
                                     (comhead sp)) as [[c e]|] eqn:E; try discriminate.
  inversion Hp; subst c0; clear Hp.
  destruct Hst as (Hd & _ & _).
  destruct (scan_back_total (CommentPage.thread cp)
              (Comment.offset (Comment.parseCommentBody c sp))
              (CommentPage.depth cp) ltac:(lia)) as (keep & Hk).
  pose proof (scan_back_le _ _ _ _ Hk) as Hle.
  unfold CommentPage.visit, bind, or_panic. rewrite E.
  cbn [fst]. rewrite (store_healthy _ _ _ Hh).
  cbn [Comment.offset Comment.with_ID] in *. rewrite Hk.
  set (cw := Comment.with_ID (Comment.parseCommentBody c sp) (Store.comments_seq s)).
  set (th := firstn keep (CommentPage.thread cp) ++ [cw]).
  assert (Hlen : List.length th = S keep).
  { unfold th. rewrite length_app, length_firstn. simpl. lia. }
  rewrite Hlen. destruct keep as [|i].
  - simpl. unfold ret. eauto.
  - replace (1 <? S (S i))%nat with true by (symmetry; apply Nat.ltb_lt; lia).
    replace (S (S i) - 2)%nat with i by lia.
    assert (Hi : exists p, nth_error th i = Some p /\ In p (CommentPage.thread cp)).
    { unfold th. rewrite nth_error_app1 by (rewrite length_firstn; lia).
      rewrite nth_error_firstn.
      replace (i <? S i)%nat with true by (symmetry; apply Nat.ltb_lt; lia).
      destruct (nth_error (CommentPage.thread cp) i) as [p|] eqn:En.
      - exists p. split; auto. eapply nth_error_In; eauto.
      - apply nth_error_None in En. lia. }
    destruct Hi as (p & Hi & Hin). rewrite Hi.
    rewrite Forall_forall in Hth. specialize (Hth p Hin).
    destruct (Hwl _ Hth) as (rest & Er & _).
    destruct (addReply_healthy p cw fails
                (after_store (Comment.parseCommentBody c sp) s) Hh) as (r & Hr).
    + rewrite threads_after_store. unfold Comment.reply_rows.
      rewrite filter_app, map_app.
      unfold ancestors_of in Er.
      destruct (filter (fun e => Store.descendant e =? Comment.ID p) (Store.threads s));
        simpl in *; congruence.
    + rewrite Hr. unfold ret. eauto.
Qed.

Lemma each_healthy :
  forall n0 a doc cp fails s,
    scan_inv n0 cp s -> healthy fails -> forallb head_ok doc = true ->
    exists cp' s', CommentPage.each a cp doc fails s = Ok cp' s'.
Proof.
  intros n0 a doc. induction doc as [|sp doc IH]; intros cp fails s Hinv Hh Hok.
  - simpl. unfold ret. eauto.
  - simpl in Hok. apply andb_true_iff in Hok. destruct Hok as [Hsp Hdoc].
    destruct (visit_healthy _ a _ _ _ _ Hinv Hh Hsp) as (cp1 & s1 & Hv).
    destruct (visit_inv _ _ _ _ _ _ _ _ Hinv Hv) as (Hinv1 & _).
    destruct (IH _ _ _ Hinv1 Hh Hdoc) as (cp' & s' & He).
    exists cp', s'. cbn [CommentPage.each]. unfold bind. now rewrite Hv.
Qed.

(** ** Counting edges *)

Lemma count_edges_anc :
  forall s a d k,
    count_edges s a d k =
      List.length (filter (fun ak => (fst ak =? a) && (snd ak =? k))%bool
                          (ancestors_of s d)).
Proof.
  intros s a d k. unfold count_edges, ancestors_of.
  induction (Store.threads s) as [|e l IH]; simpl; auto.
  destruct (Store.descendant e =? d) eqn:E1, (Store.ancestor e =? a) eqn:E2,
    (Store.depth e =? k) eqn:E3; simpl; rewrite ?E2, ?E3; simpl; auto.
Qed.

Lemma filter_pair_absent :
  forall (l : list (Z * Z)) a k,
    ~ In (a, k) l ->
    filter (fun ak => (fst ak =? a) && (snd ak =? k))%bool l = [].
Proof.
  induction l as [|[a' k'] l IH]; intros a k H; simpl; auto.
  destruct ((a' =? a) && (k' =? k))%bool eqn:E.
  - apply andb_true_iff in E. destruct E as [E1 E2].
    apply Z.eqb_eq in E1. apply Z.eqb_eq in E2. subst. exfalso. apply H. now left.
  - apply IH. intros Hin. apply H. now right.
Qed.

Lemma count_edges_one :
  forall s a d k,
    NoDup (ancestors_of s d) -> In (a, k) (ancestors_of s d) ->
    count_edges s a d k = 1%nat.
Proof.
  intros s a d k Hnd Hin. rewrite count_edges_anc.
  induction (ancestors_of s d) as [|[a' k'] l IH]; [contradiction|].
  inversion Hnd as [|? ? Hx Hl]; subst. simpl.
  destruct Hin as [E|Hin].
  - inversion E; subst. rewrite !Z.eqb_refl. simpl.
    now rewrite filter_pair_absent.
  - destruct ((a' =? a) && (k' =? k))%bool eqn:E.
    + apply andb_true_iff in E. destruct E as [E1 E2].
      apply Z.eqb_eq in E1. apply Z.eqb_eq in E2. subst. contradiction.
    + auto.
Qed.

Lemma well_linked_NoDup :
  forall n0 s d, well_linked n0 s d -> NoDup (ancestors_of s d).
Proof.
  intros n0 s d (rest & E & F & N). rewrite E. constructor; auto.
  intros Hin. rewrite Forall_forall in F. specialize (F _ Hin). simpl in F. lia.
Qed.


Lemma edge_in_ancestors :
  forall s e, In e (Store.threads s) ->
    In (Store.ancestor e, Store.depth e) (ancestors_of s (Store.descendant e)).
Proof.
  intros s e H. unfold ancestors_of.
  apply in_map_iff. exists e. split; auto.
  apply filter_In. split; auto. apply Z.eqb_refl.
Qed.

Lemma ancestors_in_edges :
  forall s a d k, In (a, k) (ancestors_of s d) -> In (a, d, k) (edges s).
Proof.
  intros s a d k H. unfold ancestors_of in H. unfold edges.
  apply in_map_iff in H. destruct H as (e & E & Hin).
  apply filter_In in Hin. destruct Hin as [Hin Hd].
  apply Z.eqb_eq in Hd. inversion E; subst.
  apply in_map_iff. exists e. auto.
Qed.

Lemma edges_reply_rows :
  forall rows n child parent,
    map (fun e => (Store.ancestor e, Store.descendant e, Store.depth e))
        (Comment.number_rows n (Comment.reply_rows rows child parent)) =
      reply_edges child (anc_list rows parent).
Proof.
  unfold Comment.reply_rows, anc_list, reply_edges.
  induction rows as [|e l IH]; intros n child parent; simpl; auto.
  destruct (Store.descendant e =? parent); simpl; auto.
  now rewrite IH.
Qed.

(** The edges a visit appends. *)
Lemma edges_after_visit :
  forall cp' c0 s,
    (forall p, reply_target cp' = Some p -> Comment.ID p < Store.comments_seq s) ->
    edges (after_visit cp' c0 s) =
      edges s ++
      (Store.comments_seq s, Store.comments_seq s, 0) ::
      match reply_target cp' with
      | Some p => reply_edges (Store.comments_seq s) (ancestors_of s (Comment.ID p))
      | None => []
      end.
Proof.
  intros cp' c0 s Hp. unfold after_visit, edges.
  destruct (reply_target cp') as [p|].
  - rewrite threads_after_reply, threads_after_store.
    rewrite !map_app, edges_reply_rows, anc_list_app. simpl.
    rewrite <- app_assoc. simpl. do 3 f_equal.
    unfold anc_list at 2. simpl.
    specialize (Hp p eq_refl).
    replace (Store.comments_seq s =? Comment.ID p) with false
      by (symmetry; apply Z.eqb_neq; lia).
    simpl. now rewrite app_nil_r.
  - rewrite threads_after_store, map_app. reflexivity.
Qed.

(** ** The closure table only grows *)













Lemma visit_edges :
  forall n0 a cp sp fails s cp' s',
    scan_inv n0 cp s ->
    CommentPage.visit a cp sp fails s = Ok cp' s' ->
    edges s' =
      edges s ++
      (Store.comments_seq s, Store.comments_seq s, 0) ::
      match reply_target cp' with
      | Some p => reply_edges (Store.comments_seq s) (ancestors_of s (Comment.ID p))
      | None => []
      end.
Proof.
  intros n0 a cp sp fails s cp' s' Hinv H.
  destruct (visit_inv _ _ _ _ _ _ _ _ Hinv H) as (_ & _ & _ & _ & c0 & keep & _ & _ & _ & _ & Ht).
  destruct (visit_Ok _ _ _ _ _ _ _ H) as (c1 & keep1 & _ & _ & Hcp & ->).
  apply edges_after_visit. intros p E.
  destruct (Ht p E) as [Hin _].
  destruct Hinv as (_ & _ & _ & Hth & _).
  rewrite Forall_forall in Hth. apply (Hth p Hin).
Qed.

Lemma sample_run_eq :
  CommentPage.each 7 CommentPage.empty sample_doc never_fails Store.empty
    = sample_run.
Proof. vm_compute. reflexivity. Qed.

Lemma parse_Ok :
  forall cp a doc fails s cp' s',
    CommentPage.parse cp a (Some doc) fails s = Ok cp' s' ->
    CommentPage.each (Article.ID a) cp doc fails s = Ok cp' s'.
Proof. intros cp a doc fails s cp' s' H. exact H. Qed.

Lemma fresh_ids_empty : fresh_ids Store.empty.
Proof. constructor. Qed.

Lemma each_Ok_prefix :
  forall a pre post cp fails s cp' s',
    CommentPage.each a cp (pre ++ post) fails s = Ok cp' s' ->
    exists cp1 s1,
      CommentPage.each a cp pre fails s = Ok cp1 s1 /\
      CommentPage.each a cp1 post fails s1 = Ok cp' s'.
Proof.
  intros a pre post cp fails s cp' s' H. rewrite each_app in H.
  destruct (CommentPage.each a cp pre fails s) as [cp1 s1| |]; try discriminate.
  eauto.
Qed.

(** ** Scans over given offsets *)

(** A visit in closed form: the stack it leaves, and the rows it adds in
    terms of the entry [keep - 1] of the stack it found. *)
Lemma visit_step :
  forall n0 a cp sp fails s cp' s',
    scan_inv n0 cp s ->
    CommentPage.visit a cp sp fails s = Ok cp' s' ->
    exists c keep,
      CommentPage.scan_back (CommentPage.thread cp) (span_offset sp)
                            (CommentPage.depth cp) = Some keep /\
      Comment.ID c = Store.comments_seq s /\
      Comment.offset c = span_offset sp /\
      CommentPage.thread cp' = firstn keep (CommentPage.thread cp) ++ [c] /\
      CommentPage.depth cp' = S keep /\
      CommentPage.Comments cp' = CommentPage.Comments cp ++ [c] /\
      scan_inv n0 cp' s' /\
      Store.comments_seq s' = Store.comments_seq s + 1 /\
      (forall d, d <> Store.comments_seq s -> ancestors_of s' d = ancestors_of s d) /\
      ancestors_of s' (Store.comments_seq s) =
        (Store.comments_seq s, 0) ::
        match keep with
        | O => []
        | S i => match nth_error (CommentPage.thread cp) i with
                 | Some p => deeper (ancestors_of s (Comment.ID p))
                 | None => []
                 end
        end /\
      edges s' =
        edges s ++
        (Store.comments_seq s, Store.comments_seq s, 0) ::
        match keep with
        | O => []
        | S i => match nth_error (CommentPage.thread cp) i with
                 | Some p => reply_edges (Store.comments_seq s)
                                         (ancestors_of s (Comment.ID p))
                 | None => []
                 end
        end.
Proof.
  intros n0 a cp sp fails s cp' s' Hinv H.
  pose proof (visit_edges _ _ _ _ _ _ _ _ Hinv H) as He.
  destruct (visit_inv _ _ _ _ _ _ _ _ Hinv H)
    as (Hinv' & Hseq & Hsame & Hnew & c0 & keep & Hp & Hcp & Hk & _ & Ht).
  assert (Hle : (keep <= List.length (CommentPage.thread cp))%nat).
  { apply scan_back_le in Hk. destruct Hinv as ((Hd & _) & _). lia. }
  assert (Hrt : reply_target cp' =
                match keep with
                | O => None
                | S i => nth_error (CommentPage.thread cp) i
                end).
  { rewrite Hcp. now apply reply_target_pushed. }
  exists (Comment.with_ID c0 (Store.comments_seq s)), keep.
  split; [exact Hk|]. split; [reflexivity|].
  split; [apply (parsed_fields _ _ _ Hp)|].
  split; [now rewrite Hcp|].
  split; [rewrite Hcp; unfold pushed; cbn [CommentPage.depth];
          rewrite length_app, length_firstn; simpl; lia|].
  split; [now rewrite Hcp|].
  split; [exact Hinv'|]. split; [exact Hseq|]. split; [exact Hsame|].
  rewrite Hnew, He, Hrt. split.
  - f_equal. destruct keep as [|i]; auto.
    destruct (nth_error (CommentPage.thread cp) i) as [p|] eqn:E; auto.
    rewrite Hsame; auto.
    assert (Hin : In p (CommentPage.thread cp)) by (eapply nth_error_In; eauto).
    destruct Hinv as (_ & _ & _ & Hth & _).
    rewrite Forall_forall in Hth. specialize (Hth p Hin). lia.
  - destruct keep as [|i]; auto.
Qed.

(** Opens a scan of the given spans into its successive visits. *)
Ltac open_scan H :=
  cbn [CommentPage.each] in H;
  repeat (let cp := fresh "cp" in let s := fresh "s" in let Hv := fresh "Hv" in
          apply bind_Ok in H; destruct H as (cp & s & Hv & H));
  apply ret_Ok in H; destruct H.

(** Evaluates the pop loop on a stack whose offsets are known. *)
Ltac run_loop Hk :=
  cbn [CommentPage.scan_back nth_error] in Hk;
  repeat match type of Hk with
         | context [Comment.offset ?c] =>
             match goal with
             | E : Comment.offset c = _ |- _ => rewrite E in Hk
             end
         end;
  cbn in Hk; inversion Hk; subst; clear Hk.

Lemma child_of_linked :
  forall n0 cp s c p,
    scan_inv n0 cp s -> n0 <= c < Store.comments_seq s ->
    In (p, 1) (ancestors_of s c) -> child_of s c p.
Proof.
  intros n0 cp s c p Hinv Hc Hin. unfold child_of.
  apply count_edges_one; auto.
  destruct Hinv as (_ & _ & _ & _ & _ & Hwl & _).
  eapply well_linked_NoDup. apply Hwl. exact Hc.
Qed.

Lemma scan_0212 :
  forall fails a sp1 sp2 sp3 sp4 s0 cp' s' n,
    fresh_ids s0 ->
    n = Store.comments_seq s0 ->
    map span_offset [sp1; sp2; sp3; sp4] = [0; 2; 1; 2] ->
    CommentPage.each a CommentPage.empty [sp1; sp2; sp3; sp4] fails s0 = Ok cp' s' ->
    map Comment.ID (CommentPage.Comments cp') = [n; n + 1; n + 2; n + 3] /\
    edges s' = edges s0 ++
               [(n, n, 0); (n + 1, n + 1, 0); (n, n + 1, 1);
                (n + 2, n + 2, 0); (n, n + 2, 1);
                (n + 3, n + 3, 0); (n + 2, n + 3, 1); (n, n + 3, 2)] /\
    ancestors_of s' n = [(n, 0)] /\
    ancestors_of s' (n + 1) = [(n + 1, 0); (n, 1)] /\
    ancestors_of s' (n + 2) = [(n + 2, 0); (n, 1)] /\
    ancestors_of s' (n + 3) = [(n + 3, 0); (n + 2, 1); (n, 2)] /\
    scan_inv n cp' s' /\ Store.comments_seq s' = n + 4.
Proof.
  intros fails a sp1 sp2 sp3 sp4 s0 cp' s' n Hf Hn Hoff H.
  inversion Hoff as [[Ho1 Ho2 Ho3 Ho4]]. clear Hoff.
  pose proof (scan_inv_start s0 Hf) as Hinv0. rewrite <- Hn in Hinv0.
  open_scan H. subst cp' s'.
  (* comment 1 *)
  destruct (visit_step _ _ _ _ _ _ _ _ Hinv0 Hv)
    as (c1 & k1 & Hk1 & Hid1 & Hof1 & Hth1 & Hdp1 & Hcs1 & Hinv1 & Hseq1 & Hsame1 & Hnew1 & He1).
  rewrite <- Hn in *. rewrite Ho1 in *. run_loop Hk1.
  cbn [CommentPage.thread CommentPage.Comments CommentPage.empty firstn app] in *.
  (* comment 2 *)
  destruct (visit_step _ _ _ _ _ _ _ _ Hinv1 Hv0)
    as (c2 & k2 & Hk2 & Hid2 & Hof2 & Hth2 & Hdp2 & Hcs2 & Hinv2 & Hseq2 & Hsame2 & Hnew2 & He2).
  rewrite Hth1, Hdp1, Hcs1, Hseq1, Ho2 in *. run_loop Hk2.
  cbn [nth_error firstn app] in *.
  rewrite Hid1, Hnew1 in Hnew2, He2.
  assert (A21 : ancestors_of s1 (Store.comments_seq s0) = [(Store.comments_seq s0, 0)])
    by (rewrite Hsame2 by lia; exact Hnew1).
  (* comment 3 *)
  destruct (visit_step _ _ _ _ _ _ _ _ Hinv2 Hv1)
    as (c3 & k3 & Hk3 & Hid3 & Hof3 & Hth3 & Hdp3 & Hcs3 & Hinv3 & Hseq3 & Hsame3 & Hnew3 & He3).
  rewrite Hth2, Hdp2, Hcs2, Hseq2, Ho3 in *. run_loop Hk3.
  cbn [nth_error firstn app] in *.
  rewrite Hid1, A21 in Hnew3, He3.
  assert (A31 : ancestors_of s2 (Store.comments_seq s0) = [(Store.comments_seq s0, 0)])
    by (rewrite Hsame3 by lia; exact A21).
  assert (A32 : ancestors_of s2 (Store.comments_seq s0 + 1) = _)
    by (rewrite Hsame3 by lia; exact Hnew2).
  (* comment 4 *)
  destruct (visit_step _ _ _ _ _ _ _ _ Hinv3 Hv2)
    as (c4 & k4 & Hk4 & Hid4 & Hof4 & Hth4 & Hdp4 & Hcs4 & Hinv4 & Hseq4 & Hsame4 & Hnew4 & He4).
  rewrite Hth3, Hdp3, Hcs3, Hseq3, Ho4 in *. run_loop Hk4.
  cbn [nth_error firstn app] in *.
  rewrite Hid3, Hnew3 in Hnew4, He4.
  set (n := Store.comments_seq s0) in *.
  replace (n + 1 + 1 + 1) with (n + 3) in * by lia.
  replace (n + 1 + 1) with (n + 2) in * by lia.
  cbn [reply_edges deeper map fst snd] in *.
  change (0 + 1) with 1 in *. change (1 + 1) with 2 in *.
  split; [rewrite Hcs4; cbn [map]; now rewrite Hid1, Hid2, Hid3, Hid4|].
  split; [rewrite He4, He3, He2, He1; rewrite <- !app_assoc; reflexivity|].
  split; [rewrite Hsame4 by lia; exact A31|].
  split; [rewrite Hsame4 by lia; exact A32|].
  split; [rewrite Hsame4 by lia; exact Hnew3|].
  split; [exact Hnew4|]. split; [exact Hinv4|lia].
Qed.

Lemma scan_012 :
  forall fails a sp1 sp2 sp3 s0 cp' s' n,
    fresh_ids s0 ->
    n = Store.comments_seq s0 ->
    map span_offset [sp1; sp2; sp3] = [0; 1; 2] ->
    CommentPage.each a CommentPage.empty [sp1; sp2; sp3] fails s0 = Ok cp' s' ->
    map Comment.ID (CommentPage.Comments cp') = [n; n + 1; n + 2] /\
    edges s' = edges s0 ++
               [(n, n, 0); (n + 1, n + 1, 0); (n, n + 1, 1);
                (n + 2, n + 2, 0); (n + 1, n + 2, 1); (n, n + 2, 2)] /\
    ancestors_of s' n = [(n, 0)] /\
    ancestors_of s' (n + 1) = [(n + 1, 0); (n, 1)] /\
    ancestors_of s' (n + 2) = [(n + 2, 0); (n + 1, 1); (n, 2)].
Proof.
  intros fails a sp1 sp2 sp3 s0 cp' s' n Hf Hn Hoff H.
  inversion Hoff as [[Ho1 Ho2 Ho3]]. clear Hoff.
  pose proof (scan_inv_start s0 Hf) as Hinv0. rewrite <- Hn in Hinv0.
  open_scan H. subst cp' s'.
  destruct (visit_step _ _ _ _ _ _ _ _ Hinv0 Hv)
    as (c1 & k1 & Hk1 & Hid1 & Hof1 & Hth1 & Hdp1 & Hcs1 & Hinv1 & Hseq1 & Hsame1 & Hnew1 & He1).
  rewrite <- Hn in *. rewrite Ho1 in *. run_loop Hk1.
  cbn [CommentPage.thread CommentPage.Comments CommentPage.empty firstn app] in *.
  destruct (visit_step _ _ _ _ _ _ _ _ Hinv1 Hv0)
    as (c2 & k2 & Hk2 & Hid2 & Hof2 & Hth2 & Hdp2 & Hcs2 & Hinv2 & Hseq2 & Hsame2 & Hnew2 & He2).
  rewrite Hth1, Hdp1, Hcs1, Hseq1, Ho2 in *. run_loop Hk2.
  cbn [nth_error firstn app] in *.
  rewrite Hid1, Hnew1 in Hnew2, He2.
  assert (A21 : ancestors_of s1 (Store.comments_seq s0) = [(Store.comments_seq s0, 0)])
    by (rewrite Hsame2 by lia; exact Hnew1).
  destruct (visit_step _ _ _ _ _ _ _ _ Hinv2 Hv1)
    as (c3 & k3 & Hk3 & Hid3 & Hof3 & Hth3 & Hdp3 & Hcs3 & Hinv3 & Hseq3 & Hsame3 & Hnew3 & He3).
  rewrite Hth2, Hdp2, Hcs2, Hseq2, Ho3 in *. run_loop Hk3.
  cbn [nth_error firstn app] in *.
  rewrite Hid2, Hnew2 in Hnew3, He3.
  set (n := Store.comments_seq s0) in *.
  replace (n + 1 + 1) with (n + 2) in * by lia.
  cbn [reply_edges deeper map fst snd] in *.
  change (0 + 1) with 1 in *. change (1 + 1) with 2 in *.
  split; [rewrite Hcs3; cbn [map]; now rewrite Hid1, Hid2, Hid3|].
  split; [rewrite He3, He2, He1; rewrite <- !app_assoc; reflexivity|].
  split; [rewrite Hsame3 by lia; exact A21|].
  split; [rewrite Hsame3 by lia; exact Hnew2|].
  exact Hnew3.
Qed.

Lemma scan_000 :
  forall fails a sp1 sp2 sp3 s0 cp' s' n,
    fresh_ids s0 ->
    n = Store.comments_seq s0 ->
    map span_offset [sp1; sp2; sp3] = [0; 0; 0] ->
    CommentPage.each a CommentPage.empty [sp1; sp2; sp3] fails s0 = Ok cp' s' ->
    map Comment.ID (CommentPage.Comments cp') = [n; n + 1; n + 2] /\
    edges s' = edges s0 ++ [(n, n, 0); (n + 1, n + 1, 0); (n + 2, n + 2, 0)] /\
    ancestors_of s' n = [(n, 0)] /\
    ancestors_of s' (n + 1) = [(n + 1, 0)] /\
    ancestors_of s' (n + 2) = [(n + 2, 0)].
Proof.
  intros fails a sp1 sp2 sp3 s0 cp' s' n Hf Hn Hoff H.
  inversion Hoff as [[Ho1 Ho2 Ho3]]. clear Hoff.
  pose proof (scan_inv_start s0 Hf) as Hinv0. rewrite <- Hn in Hinv0.
  open_scan H. subst cp' s'.
  destruct (visit_step _ _ _ _ _ _ _ _ Hinv0 Hv)
    as (c1 & k1 & Hk1 & Hid1 & Hof1 & Hth1 & Hdp1 & Hcs1 & Hinv1 & Hseq1 & Hsame1 & Hnew1 & He1).
  rewrite <- Hn in *. rewrite Ho1 in *. run_loop Hk1.
  cbn [CommentPage.thread CommentPage.Comments CommentPage.empty firstn app] in *.
  destruct (visit_step _ _ _ _ _ _ _ _ Hinv1 Hv0)
    as (c2 & k2 & Hk2 & Hid2 & Hof2 & Hth2 & Hdp2 & Hcs2 & Hinv2 & Hseq2 & Hsame2 & Hnew2 & He2).
  rewrite Hth1, Hdp1, Hcs1, Hseq1, Ho2 in *. run_loop Hk2.
  cbn [nth_error firstn app] in *.
  assert (A21 : ancestors_of s1 (Store.comments_seq s0) = [(Store.comments_seq s0, 0)])
    by (rewrite Hsame2 by lia; exact Hnew1).
  destruct (visit_step _ _ _ _ _ _ _ _ Hinv2 Hv1)
    as (c3 & k3 & Hk3 & Hid3 & Hof3 & Hth3 & Hdp3 & Hcs3 & Hinv3 & Hseq3 & Hsame3 & Hnew3 & He3).
  rewrite Hth2, Hdp2, Hcs2, Hseq2, Ho3 in *. run_loop Hk3.
  cbn [nth_error firstn app] in *.
  set (n := Store.comments_seq s0) in *.
  replace (n + 1 + 1) with (n + 2) in * by lia.
  split; [rewrite Hcs3; cbn [map]; now rewrite Hid1, Hid2, Hid3|].
  split; [rewrite He3, He2, He1; rewrite <- !app_assoc; reflexivity|].
  split; [rewrite Hsame3 by lia; exact A21|].
  split; [rewrite Hsame3 by lia; exact Hnew2|].
  exact Hnew3.
Qed.

Lemma first_comment_root :
  forall fails a sp rest s0 cp' s',
    fresh_ids s0 ->
    CommentPage.each a CommentPage.empty (sp :: rest) fails s0 = Ok cp' s' ->
    exists c others cp1 s1,
      CommentPage.visit a CommentPage.empty sp fails s0 = Ok cp1 s1 /\
      reply_target cp1 = None /\
      CommentPage.Comments cp' = c :: others /\
      Comment.ID c = Store.comments_seq s0 /\
      ancestors_of s' (Comment.ID c) = [(Comment.ID c, 0)].
Proof.
  intros fails a sp rest s0 cp' s' Hf H.
  pose proof (scan_inv_start s0 Hf) as Hinv0.
  cbn [CommentPage.each] in H. apply bind_Ok in H.
  destruct H as (cp1 & s1 & Hv & H).
  destruct (visit_step _ _ _ _ _ _ _ _ Hinv0 Hv)
    as (c1 & k1 & Hk1 & Hid1 & Hof1 & Hth1 & Hdp1 & Hcs1 & Hinv1 & Hseq1 & Hsame1 & Hnew1 & He1).
  cbn in Hk1. inversion Hk1; subst k1; clear Hk1.
  destruct (each_inv _ _ _ _ _ _ _ _ Hinv1 H) as (_ & _ & Hstable & new & Hc & _).
  exists c1, new, cp1, s1. split; [exact Hv|].
  split; [unfold reply_target; now rewrite Hdp1|].
  split; [rewrite Hc, Hcs1; reflexivity|]. split; [exact Hid1|].
  rewrite Hid1, Hstable by lia. exact Hnew1.
Qed.

Lemma healthy_never_fails : healthy never_fails.
Proof. intros n. reflexivity. Qed.

Lemma parse_healthy :
  forall a doc fails s0,
    fresh_ids s0 -> healthy fails -> forallb head_ok doc = true ->
    exists cp' s',
      CommentPage.parse CommentPage.empty a (Some doc) fails s0 = Ok cp' s'.
Proof.
  intros a doc fails s0 Hf Hh Hok.
  exact (each_healthy _ (Article.ID a) doc _ fails s0 (scan_inv_start s0 Hf) Hh Hok).
Qed.

(** ** Heads and identifiers *)

(** The error [parseCommentHead] returns is dropped by the callback: a
    comment whose head is rejected is stored and pushed like any other. *)
Lemma rejected_head_is_pushed :
  forall a cp sp fails s cp' s',
    two_links sp = false ->
    CommentPage.visit a cp sp fails s = Ok cp' s' ->
    Comment.parseCommentHead (Comment.parseIndent (Comment.new a) sp) (comhead sp)
      = Some (Comment.parseIndent (Comment.new a) sp, Some Comment.WrongLinkCount) /\
    exists c,
      top cp' = Some c /\
      CommentPage.Comments cp' = CommentPage.Comments cp ++ [c] /\
      Comment.ID c = Store.comments_seq s /\
      Comment.Username c = EmptyString /\
      In (Comment.ID c, Comment.ID c, 0) (edges s').
Proof.
  intros a cp sp fails s cp' s' H2 H.
  assert (Hh : Comment.parseCommentHead (Comment.parseIndent (Comment.new a) sp)
                                        (comhead sp)
               = Some (Comment.parseIndent (Comment.new a) sp,
                       Some Comment.WrongLinkCount)).
  { unfold Comment.parseCommentHead. unfold two_links in H2. now rewrite H2. }
  split; [exact Hh|].
  destruct (visit_Ok _ _ _ _ _ _ _ H) as (c0 & keep & Hp & Hk & -> & ->).
  unfold parsed in Hp. rewrite Hh in Hp. inversion Hp; subst c0; clear Hp.
  eexists. split; [apply top_pushed|]. split; [reflexivity|].
  split; [reflexivity|]. split; [reflexivity|].
  unfold edges, after_visit.
  destruct (reply_target _).
  - rewrite threads_after_reply, threads_after_store, !map_app.
    apply in_or_app. left. apply in_or_app. right. now left.
  - rewrite threads_after_store, map_app. apply in_or_app. right. now left.
Qed.

(** Whatever the head of the span holds, the row a visit inserts has 0 in
    its [comment_id] column, and the id of the sequence as its key. *)
Lemma comment_id_never_stored :
  forall a cp sp fails s cp' s',
    CommentPage.visit a cp sp fails s = Ok cp' s' ->
    exists row,
      Store.comments s' = Store.comments s ++ [row] /\
      Store.c_id row = Store.comments_seq s /\
      Store.c_comment_id row = 0.
Proof.
  intros a cp sp fails s cp' s' H.
  destruct (visit_Ok _ _ _ _ _ _ _ H) as (c0 & keep & Hp & Hk & -> & ->).
  exists (Comment.to_row (Store.comments_seq s) c0).
  split; [unfold after_visit; now destruct (reply_target _)|].
  split; [reflexivity|]. simpl. apply (parsed_fields _ _ _ Hp).
Qed.

(** ** Store failures *)

Lemma visit_parsed :
  forall a cp sp fails s c0,
    parsed a sp = Some c0 ->
    CommentPage.visit a cp sp fails s =
      bind (Comment.store c0)
           (fun c =>
              bind (or_panic (CommentPage.scan_back (CommentPage.thread cp)
                                (Comment.offset c) (CommentPage.depth cp)))
                   (fun keep =>
                      let thread' := firstn keep (CommentPage.thread cp) ++ [c] in
                      let depth' := List.length thread' in
                      bind (if (1 <? depth')%nat
                            then bind (or_panic (nth_error thread' (depth' - 2)))
                                      (fun parent => Comment.addReply parent c)
                            else ret 0)
                           (fun _ => ret (CommentPage.mk
                                            (CommentPage.Comments cp ++ [c])
                                            thread' depth'))))
           fails s.
Proof.
  intros a cp sp fails s c0 Hp. unfold parsed in Hp.
  unfold CommentPage.visit at 1. unfold bind at 1, or_panic at 1.
  destruct (Comment.parseCommentHead (Comment.parseIndent (Comment.new a) sp)
                                     (comhead sp)) as [[c e]|]; try discriminate.
  inversion Hp; subst c0. reflexivity.
Qed.

Lemma store_two_ok :
  forall c fails s,
    fails (Store.issued s) = false -> fails (S (Store.issued s)) = false ->
    Comment.store c fails s =
      Ok (Comment.with_ID c (Store.comments_seq s)) (after_store c s).
Proof.
  intros c fails s H0 H1. unfold Comment.store, bind, QueryRow, ret.
  rewrite H0. cbn [Store.tick Store.issued]. rewrite H1. reflexivity.
Qed.

Lemma addReply_fails :
  forall p c fails s,
    fails (Store.issued s) = true -> Comment.addReply p c fails s = Fatal s.
Proof.
  intros p c fails s H. unfold Comment.addReply, bind, QueryRow. now rewrite H.
Qed.

(** ** The front page *)

Lemma assign_length :
  forall h p a, (p < List.length h)%nat -> List.length (FrontPage.assign h p a) = List.length h.
Proof.
  intros h p a H. unfold FrontPage.assign.
  rewrite length_app, length_firstn. cbn [List.length]. rewrite length_skipn. lia.
Qed.

Lemma deref_assign_eq :
  forall h p a, (p < List.length h)%nat -> FrontPage.deref (FrontPage.assign h p a) p = a.
Proof.
  intros h p a H. unfold FrontPage.deref, FrontPage.assign.
  rewrite app_nth2 by (rewrite length_firstn; lia).
  rewrite length_firstn, Nat.min_l by lia. now rewrite Nat.sub_diag.
Qed.

Lemma deref_assign_neq :
  forall h p q a,
    (p < List.length h)%nat -> q <> p ->
    FrontPage.deref (FrontPage.assign h p a) q = FrontPage.deref h q.
Proof.
  intros h p q a H Hq. unfold FrontPage.deref, FrontPage.assign.
  rewrite <- (firstn_skipn p h) at 3.
  destruct (Nat.lt_ge_cases q p) as [Hlt|Hge].
  - rewrite !app_nth1 by (rewrite length_firstn; lia). reflexivity.
  - rewrite !app_nth2 by (rewrite length_firstn; lia).
    rewrite length_firstn, Nat.min_l by lia.
    destruct (q - p)%nat as [|k] eqn:E; [lia|].
    cbn [nth]. rewrite <- (firstn_skipn 1 (skipn p h)) at 1.
    rewrite skipn_skipn. replace (1 + p)%nat with (S p) by lia.
    assert (Hl : List.length (firstn 1 (skipn p h)) = 1%nat).
    { rewrite length_firstn, length_skipn. lia. }
    rewrite app_nth2 by lia. rewrite Hl.
    now replace (S k - 1)%nat with k by lia.
Qed.

Lemma deref_app_l :
  forall h l q, (q < List.length h)%nat -> FrontPage.deref (h ++ l) q = FrontPage.deref h q.
Proof. intros h l q H. unfold FrontPage.deref. now apply app_nth1. Qed.

Lemma deref_app_new :
  forall h x, FrontPage.deref (h ++ [x]) (List.length h) = x.
Proof.
  intros h x. unfold FrontPage.deref. rewrite app_nth2 by lia.
  now rewrite Nat.sub_diag.
Qed.









(** ** How a scan can end *)

Lemma store_fails_first :
  forall c fails s,
    fails (Store.issued s) = true -> Comment.store c fails s = Fatal s.
Proof.
  intros c fails s H. unfold Comment.store, bind, QueryRow. now rewrite H.
Qed.

Lemma store_fails_second :
  forall c fails s,
    fails (Store.issued s) = false -> fails (S (Store.issued s)) = true ->
    Comment.store c fails s = Fatal (after_comment_insert c s).
Proof.
  intros c fails s H0 H1. unfold Comment.store, bind, QueryRow.
  rewrite H0. cbn [Store.tick Store.issued]. now rewrite H1.
Qed.

Lemma addReply_answers :
  forall p c fails s,
    fails (Store.issued s) = false ->
    Comment.reply_rows (Store.threads s) (Comment.ID c) (Comment.ID p) <> [] ->
    exists r, Comment.addReply p c fails s =
              Ok r (after_reply (Comment.ID p) (Comment.ID c) s).
Proof.
  intros p c fails s Hf Hne. unfold Comment.addReply, bind, QueryRow, ret.
  rewrite Hf.
  destruct (Comment.reply_rows (Store.threads s) (Comment.ID c) (Comment.ID p))
    as [|[[a d] k] rows] eqn:E; [congruence|].
  unfold after_reply. rewrite E. simpl. eauto.
Qed.





(** * Properties of the scraper *)

(** C1: with a store that answers and heads that can be read, a page whose
    spans have the offsets 0, 2, 1, 2 yields four comments [c1 .. c4] where
    [c2] and [c3] are children of [c1] (the pop passes [c2], which is as deep
    as or deeper than [c3]), [c4] is a child of [c3], and the ancestors of
    [c4] are exactly [c4] at depth 0, [c3] at depth 1 and [c1] at depth 2.
    The rows appended to the closure table are given in full. *)
Theorem stack_pop_correctness :
  forall fails a sp1 sp2 sp3 sp4 s0,
    fresh_ids s0 -> healthy fails ->
    forallb head_ok [sp1; sp2; sp3; sp4] = true ->
    map span_offset [sp1; sp2; sp3; sp4] = [0; 2; 1; 2] ->
    exists cp' s' c1 c2 c3 c4,
      CommentPage.parse CommentPage.empty a (Some [sp1; sp2; sp3; sp4]) fails s0
        = Ok cp' s' /\
      CommentPage.Comments cp' = [c1; c2; c3; c4] /\
      child_of s' (Comment.ID c2) (Comment.ID c1) /\
      child_of s' (Comment.ID c3) (Comment.ID c1) /\
      child_of s' (Comment.ID c4) (Comment.ID c3) /\
      ancestors_of s' (Comment.ID c1) = [(Comment.ID c1, 0)] /\
      ancestors_of s' (Comment.ID c2) = [(Comment.ID c2, 0); (Comment.ID c1, 1)] /\
      ancestors_of s' (Comment.ID c3) = [(Comment.ID c3, 0); (Comment.ID c1, 1)] /\
      ancestors_of s' (Comment.ID c4) =
        [(Comment.ID c4, 0); (Comment.ID c3, 1); (Comment.ID c1, 2)] /\
      edges s' =
        edges s0 ++
        [(Comment.ID c1, Comment.ID c1, 0);
         (Comment.ID c2, Comment.ID c2, 0); (Comment.ID c1, Comment.ID c2, 1);
         (Comment.ID c3, Comment.ID c3, 0); (Comment.ID c1, Comment.ID c3, 1);
         (Comment.ID c4, Comment.ID c4, 0); (Comment.ID c3, Comment.ID c4, 1);
         (Comment.ID c1, Comment.ID c4, 2)].
Proof.
  intros fails a sp1 sp2 sp3 sp4 s0 Hf Hh Hok Hoff.
  destruct (parse_healthy a _ fails s0 Hf Hh Hok) as (cp' & s' & H).
  destruct (scan_0212 _ _ _ _ _ _ _ _ _ _ Hf eq_refl Hoff (parse_Ok _ _ _ _ _ _ _ H))
    as (Hids & He & A1 & A2 & A3 & A4 & Hinv & Hseq).
  destruct (CommentPage.Comments cp') as [|c1 [|c2 [|c3 [|c4 [|c5 l]]]]] eqn:EC;
    try discriminate Hids.
  cbn [map] in Hids. injection Hids as I1 I2 I3 I4.
  exists cp', s', c1, c2, c3, c4.
  rewrite I1, I2, I3, I4.
  split; [exact H|]. split; [exact EC|].
  split; [eapply child_of_linked; [exact Hinv|lia|rewrite A2; simpl; auto]|].
  split; [eapply child_of_linked; [exact Hinv|lia|rewrite A3; simpl; auto]|].
  split; [eapply child_of_linked; [exact Hinv|lia|rewrite A4; simpl; auto]|].
  auto 10.
Qed.

Lemma stack_pop_correctness_witness :
  exists cp' s' c1 c2 c3 c4,
    CommentPage.parse CommentPage.empty sample_article (Some sample_doc_0212)
                      never_fails Store.empty = Ok cp' s' /\
    CommentPage.Comments cp' = [c1; c2; c3; c4] /\
    child_of s' (Comment.ID c2) (Comment.ID c1) /\
    child_of s' (Comment.ID c3) (Comment.ID c1) /\
    child_of s' (Comment.ID c4) (Comment.ID c3) /\
    ancestors_of s' (Comment.ID c1) = [(Comment.ID c1, 0)] /\
    ancestors_of s' (Comment.ID c2) = [(Comment.ID c2, 0); (Comment.ID c1, 1)] /\
    ancestors_of s' (Comment.ID c3) = [(Comment.ID c3, 0); (Comment.ID c1, 1)] /\
    ancestors_of s' (Comment.ID c4) =
      [(Comment.ID c4, 0); (Comment.ID c3, 1); (Comment.ID c1, 2)] /\
    edges s' =
      edges Store.empty ++
      [(Comment.ID c1, Comment.ID c1, 0);
       (Comment.ID c2, Comment.ID c2, 0); (Comment.ID c1, Comment.ID c2, 1);
       (Comment.ID c3, Comment.ID c3, 0); (Comment.ID c1, Comment.ID c3, 1);
       (Comment.ID c4, Comment.ID c4, 0); (Comment.ID c3, Comment.ID c4, 1);
       (Comment.ID c1, Comment.ID c4, 2)].
Proof.
  exact (stack_pop_correctness never_fails sample_article
           (sample_span "0" "ann" "101") (sample_span "2" "bob" "102")
           (sample_span "1" "cat" "103") (sample_span "2" "dan" "104")
           Store.empty fresh_ids_empty healthy_never_fails
           ltac:(vm_compute; reflexivity) ltac:(vm_compute; reflexivity)).
Defined.

(** C2: after a scan that started on a store respecting the key discipline,
    every edge [{a, d, k}] with [k > 0] whose descendant the scan persisted
    comes with exactly one edge [{a, p, k-1}], where [p] is the entry that
    was on top of the stack, once popped, when [d] was pushed; and the
    ancestor pairs of [d] are its self-edge followed by those of [p], each
    one level deeper. *)
Theorem closure_completeness :
  forall fails a doc s0 cp' s',
    fresh_ids s0 ->
    CommentPage.parse CommentPage.empty a (Some doc) fails s0 = Ok cp' s' ->
    forall e,
      In e (Store.threads s') ->
      Store.comments_seq s0 <= Store.descendant e ->
      0 < Store.depth e ->
      exists k cp s c p,
        CommentPage.each (Article.ID a) CommentPage.empty (firstn (S k) doc) fails s0
          = Ok cp s /\
        top cp = Some c /\ Comment.ID c = Store.descendant e /\
        reply_target cp = Some p /\
        count_edges s' (Store.ancestor e) (Comment.ID p) (Store.depth e - 1) = 1%nat /\
        ancestors_of s' (Comment.ID c) =
          (Comment.ID c, 0) :: deeper (ancestors_of s' (Comment.ID p)).
Proof.
  intros fails a doc s0 cp' s' Hf H e He Hd Hk. apply parse_Ok in H.
  pose proof (scan_inv_start s0 Hf) as Hinv0.
  destruct (each_inv _ _ _ _ _ _ _ _ Hinv0 H) as (Hinv' & Hseq' & _).
  assert (Hlt : Store.descendant e < Store.comments_seq s').
  { destruct Hinv' as (_ & Hf' & _). unfold fresh_ids in Hf'.
    rewrite Forall_forall in Hf'. apply (Hf' e He). }
  set (k := Z.to_nat (Store.descendant e - Store.comments_seq s0)).
  assert (Hkl : (k < List.length doc)%nat) by lia.
  destruct (nth_error doc k) as [sp|] eqn:Esp;
    [|apply nth_error_None in Esp; lia].
  destruct (nth_error_split _ _ Esp) as (pre & post & Hdoc & Hpre).
  assert (Hfirst : firstn (S k) doc = pre ++ [sp]).
  { rewrite Hdoc. rewrite firstn_app, Hpre.
    replace (S k - k)%nat with 1%nat by lia.
    rewrite firstn_all2 by lia. reflexivity. }
  rewrite Hdoc in H.
  replace (pre ++ sp :: post) with ((pre ++ [sp]) ++ post) in H
    by (rewrite <- app_assoc; reflexivity).
  destruct (each_Ok_prefix _ _ _ _ _ _ _ _ H) as (cp2 & s2 & H2 & Hpost).
  destruct (each_Ok_prefix _ _ _ _ _ _ _ _ H2) as (cp1 & s1 & H1 & Hv).
  cbn [CommentPage.each] in Hv. apply bind_Ok in Hv.
  destruct Hv as (cp2' & s2' & Hv & Hr). apply ret_Ok in Hr.
  destruct Hr as [-> ->].
  destruct (each_inv _ _ _ _ _ _ _ _ Hinv0 H1) as (Hinv1 & Hseq1 & _).
  destruct (visit_inv _ _ _ _ _ _ _ _ Hinv1 Hv)
    as (Hinv2 & Hseq2 & Hsame2 & Hnew2 & c0 & keep & Hp & Hcp & _ & _ & Ht).
  destruct (each_inv _ _ _ _ _ _ _ _ Hinv2 Hpost) as (_ & _ & Hstable & _).
  assert (Hd1 : Store.comments_seq s1 = Store.descendant e) by lia.
  pose proof (edge_in_ancestors s' e He) as Hin.
  rewrite Hstable in Hin by lia.
  rewrite <- Hd1 in Hin. rewrite Hnew2 in Hin.
  destruct Hin as [E|Hin]; [inversion E; lia|].
  destruct (reply_target cp2') as [p|] eqn:Etgt; [|contradiction].
  destruct (Ht p eq_refl) as [Hpin _].
  assert (Hpr : Store.comments_seq s0 <= Comment.ID p < Store.comments_seq s1).
  { destruct Hinv1 as (_ & _ & _ & Hth & _).
    rewrite Forall_forall in Hth. apply (Hth p Hpin). }
  exists k, cp2', s2', (Comment.with_ID c0 (Store.comments_seq s1)), p.
  split; [rewrite Hfirst; exact H2|].
  split; [rewrite Hcp; apply top_pushed|].
  split; [exact Hd1|]. split; [exact Etgt|].
  assert (Hp' : ancestors_of s' (Comment.ID p) = ancestors_of s2' (Comment.ID p))
    by (apply Hstable; lia).
  split.
  - apply count_edges_one.
    + destruct Hinv' as (_ & _ & _ & _ & _ & Hwl & _).
      apply (well_linked_NoDup (Store.comments_seq s0)). apply Hwl. lia.
    + rewrite Hp'. unfold deeper in Hin. apply in_map_iff in Hin.
      destruct Hin as ([a' k'] & E & Hin). simpl in E. inversion E; subst.
      now replace (k' + 1 - 1) with k' by lia.
  - cbn [Comment.ID Comment.with_ID]. rewrite Hstable by lia.
    rewrite Hnew2, Hp'. reflexivity.
Qed.

Lemma closure_completeness_witness :
  exists k cp s c p,
    CommentPage.each 7 CommentPage.empty (firstn (S k) sample_doc)
                     never_fails Store.empty = Ok cp s /\
    top cp = Some c /\ Comment.ID c = 4 /\
    reply_target cp = Some p /\
    count_edges (final_store sample_run) 1 (Comment.ID p) (2 - 1) = 1%nat /\
    ancestors_of (final_store sample_run) (Comment.ID c) =
      (Comment.ID c, 0) :: deeper (ancestors_of (final_store sample_run) (Comment.ID p)).
Proof.
  assert (H : CommentPage.parse CommentPage.empty sample_article (Some sample_doc)
                never_fails Store.empty = sample_run)
    by (vm_compute; reflexivity).
  assert (Hin : In (Store.mkThreadRow 8 1 4 2) (Store.threads (final_store sample_run)))
    by (vm_compute; tauto).
  exact (closure_completeness never_fails sample_article sample_doc Store.empty
           _ _ fresh_ids_empty H (Store.mkThreadRow 8 1 4 2) Hin
           ltac:(vm_compute; discriminate) ltac:(reflexivity)).
Defined.




(** C4: with a store that answers and heads that can be read, spans at the
    offsets 0, 1, 2 yield one chain, the three comments being at depths 0, 1
    and 2 below the first; spans at the offsets 0, 0, 0 yield three comments
    whose only edge is their self-edge; and in every scan that returns, the
    first comment is pushed on an empty stack, has no reply target, and ends
    with its self-edge as its only ancestor edge. *)
Theorem depth_monotonicity :
  (forall fails a sp1 sp2 sp3 s0,
      fresh_ids s0 -> healthy fails ->
      forallb head_ok [sp1; sp2; sp3] = true ->
      map span_offset [sp1; sp2; sp3] = [0; 1; 2] ->
      exists cp' s' c1 c2 c3,
        CommentPage.parse CommentPage.empty a (Some [sp1; sp2; sp3]) fails s0
          = Ok cp' s' /\
        CommentPage.Comments cp' = [c1; c2; c3] /\
        ancestors_of s' (Comment.ID c1) = [(Comment.ID c1, 0)] /\
        ancestors_of s' (Comment.ID c2) = [(Comment.ID c2, 0); (Comment.ID c1, 1)] /\
        ancestors_of s' (Comment.ID c3) =
          [(Comment.ID c3, 0); (Comment.ID c2, 1); (Comment.ID c1, 2)] /\
        edges s' =
          edges s0 ++
          [(Comment.ID c1, Comment.ID c1, 0);
           (Comment.ID c2, Comment.ID c2, 0); (Comment.ID c1, Comment.ID c2, 1);
           (Comment.ID c3, Comment.ID c3, 0); (Comment.ID c2, Comment.ID c3, 1);
           (Comment.ID c1, Comment.ID c3, 2)]) /\
  (forall fails a sp1 sp2 sp3 s0,
      fresh_ids s0 -> healthy fails ->
      forallb head_ok [sp1; sp2; sp3] = true ->
      map span_offset [sp1; sp2; sp3] = [0; 0; 0] ->
      exists cp' s' c1 c2 c3,
        CommentPage.parse CommentPage.empty a (Some [sp1; sp2; sp3]) fails s0
          = Ok cp' s' /\
        CommentPage.Comments cp' = [c1; c2; c3] /\
        ancestors_of s' (Comment.ID c1) = [(Comment.ID c1, 0)] /\
        ancestors_of s' (Comment.ID c2) = [(Comment.ID c2, 0)] /\
        ancestors_of s' (Comment.ID c3) = [(Comment.ID c3, 0)] /\
        edges s' =
          edges s0 ++
          [(Comment.ID c1, Comment.ID c1, 0); (Comment.ID c2, Comment.ID c2, 0);
           (Comment.ID c3, Comment.ID c3, 0)]) /\
  (forall fails a sp rest s0 cp' s',
      fresh_ids s0 ->
      CommentPage.parse CommentPage.empty a (Some (sp :: rest)) fails s0 = Ok cp' s' ->
      exists c others cp1 s1,
        CommentPage.visit (Article.ID a) CommentPage.empty sp fails s0 = Ok cp1 s1 /\
        reply_target cp1 = None /\
        CommentPage.Comments cp' = c :: others /\
        Comment.ID c = Store.comments_seq s0 /\
        ancestors_of s' (Comment.ID c) = [(Comment.ID c, 0)]).
Proof.
  split; [|split].
  - intros fails a sp1 sp2 sp3 s0 Hf Hh Hok Hoff.
    destruct (parse_healthy a _ fails s0 Hf Hh Hok) as (cp' & s' & H).
    destruct (scan_012 _ _ _ _ _ _ _ _ _ Hf eq_refl Hoff (parse_Ok _ _ _ _ _ _ _ H))
      as (Hids & He & A1 & A2 & A3).
    destruct (CommentPage.Comments cp') as [|c1 [|c2 [|c3 [|c4 l]]]] eqn:EC;
      try discriminate Hids.
    cbn [map] in Hids. injection Hids as I1 I2 I3.
    exists cp', s', c1, c2, c3. rewrite I1, I2, I3. auto 10.
  - intros fails a sp1 sp2 sp3 s0 Hf Hh Hok Hoff.
    destruct (parse_healthy a _ fails s0 Hf Hh Hok) as (cp' & s' & H).
    destruct (scan_000 _ _ _ _ _ _ _ _ _ Hf eq_refl Hoff (parse_Ok _ _ _ _ _ _ _ H))
      as (Hids & He & A1 & A2 & A3).
    destruct (CommentPage.Comments cp') as [|c1 [|c2 [|c3 [|c4 l]]]] eqn:EC;
      try discriminate Hids.
    cbn [map] in Hids. injection Hids as I1 I2 I3.
    exists cp', s', c1, c2, c3. rewrite I1, I2, I3. auto 10.
  - intros fails a sp rest s0 cp' s' Hf H.
    exact (first_comment_root _ _ _ _ _ _ _ Hf (parse_Ok _ _ _ _ _ _ _ H)).
Qed.

Lemma depth_monotonicity_witness :
  (exists cp' s' c1 c2 c3,
      CommentPage.parse CommentPage.empty sample_article (Some sample_doc_012)
                        never_fails Store.empty = Ok cp' s' /\
      CommentPage.Comments cp' = [c1; c2; c3] /\
      ancestors_of s' (Comment.ID c1) = [(Comment.ID c1, 0)] /\
      ancestors_of s' (Comment.ID c2) = [(Comment.ID c2, 0); (Comment.ID c1, 1)] /\
      ancestors_of s' (Comment.ID c3) =
        [(Comment.ID c3, 0); (Comment.ID c2, 1); (Comment.ID c1, 2)] /\
      edges s' =
        edges Store.empty ++
        [(Comment.ID c1, Comment.ID c1, 0);
         (Comment.ID c2, Comment.ID c2, 0); (Comment.ID c1, Comment.ID c2, 1);
         (Comment.ID c3, Comment.ID c3, 0); (Comment.ID c2, Comment.ID c3, 1);
         (Comment.ID c1, Comment.ID c3, 2)]) /\
  (exists cp' s' c1 c2 c3,
      CommentPage.parse CommentPage.empty sample_article (Some sample_doc_000)
                        never_fails Store.empty = Ok cp' s' /\
      CommentPage.Comments cp' = [c1; c2; c3] /\
      ancestors_of s' (Comment.ID c1) = [(Comment.ID c1, 0)] /\
      ancestors_of s' (Comment.ID c2) = [(Comment.ID c2, 0)] /\
      ancestors_of s' (Comment.ID c3) = [(Comment.ID c3, 0)] /\
      edges s' =
        edges Store.empty ++
        [(Comment.ID c1, Comment.ID c1, 0); (Comment.ID c2, Comment.ID c2, 0);
         (Comment.ID c3, Comment.ID c3, 0)]) /\
  (exists c others cp1 s1,
      CommentPage.visit 7 CommentPage.empty (sample_span "0" "ann" "101")
                        never_fails Store.empty = Ok cp1 s1 /\
      reply_target cp1 = None /\
      CommentPage.Comments
        match sample_run with Ok cp _ => cp | _ => CommentPage.empty end
        = c :: others /\
      Comment.ID c = 1 /\
      ancestors_of (final_store sample_run) (Comment.ID c) = [(Comment.ID c, 0)]).
Proof.
  assert (H : CommentPage.parse CommentPage.empty sample_article (Some sample_doc)
                never_fails Store.empty = sample_run)
    by (vm_compute; reflexivity).
  split; [|split].
  - exact (proj1 depth_monotonicity never_fails sample_article
             (sample_span "0" "ann" "101") (sample_span "1" "bob" "102")
             (sample_span "2" "cat" "103")
             Store.empty fresh_ids_empty healthy_never_fails
             ltac:(vm_compute; reflexivity) ltac:(vm_compute; reflexivity)).
  - exact (proj1 (proj2 depth_monotonicity) never_fails sample_article
             (sample_span "0" "ann" "101") (sample_span "0" "bob" "102")
             (sample_span "0" "cat" "103")
             Store.empty fresh_ids_empty healthy_never_fails
             ltac:(vm_compute; reflexivity) ltac:(vm_compute; reflexivity)).
  - exact (proj2 (proj2 depth_monotonicity) never_fails sample_article
             (sample_span "0" "ann" "101")
             [sample_span "80" "bob" "102"; sample_span "40" "cat" "103";
              sample_span "80" "dan" "104"]
             Store.empty _ _ fresh_ids_empty H).
Defined.

(** C5, at a page whose second span has three links in its head:
    [parseCommentHead] rejects the head, yet the comment is stored under the
    id 2, gets a self-edge, becomes a child of comment 1 and the parent of
    comment 3; comment 3, which would be a child of comment 1 without that
    span, ends at depth 2 under comment 1. *)
Theorem malformed_comment_is_linked :
  Comment.parseCommentHead (Comment.new 7) (comhead (malformed_span "40" "bob" "102"))
    = Some (Comment.new 7, Some Comment.WrongLinkCount) /\
  edges (final_store
           (CommentPage.parse CommentPage.empty sample_article
              (Some sample_doc_malformed) never_fails Store.empty))
    = [(1, 1, 0); (2, 2, 0); (1, 2, 1); (3, 3, 0); (2, 3, 1); (1, 3, 2);
       (4, 4, 0); (1, 4, 1)] /\
  edges (final_store
           (CommentPage.parse CommentPage.empty sample_article
              (Some sample_doc_without_malformed) never_fails Store.empty))
    = [(1, 1, 0); (2, 2, 0); (1, 2, 1); (3, 3, 0); (1, 3, 1)].
Proof. repeat split; vm_compute; reflexivity. Qed.

(** C6, as stated, at the sample snapshot when the fourth statement (the
    self-edge of the second comment of the first article) fails: the loop
    does not go on, the process ends; what is left in the store is the two
    comments inserted so far, the second without its self-edge, and nothing
    of the second article. *)
Lemma store_failure_ends_process :
  terminated (comments_loop sample_site sample_heap [0%nat; 1%nat]
                            (fails_at 3) Store.empty) = true /\
  map Store.c_id
      (Store.comments (final_store (comments_loop sample_site sample_heap
                                      [0%nat; 1%nat] (fails_at 3) Store.empty)))
    = [1; 2] /\
  edges (final_store (comments_loop sample_site sample_heap [0%nat; 1%nat]
                                    (fails_at 3) Store.empty))
    = [(1, 1, 0)] /\
  terminated (comments_loop sample_site sample_heap [0%nat; 1%nat]
                            never_fails Store.empty) = false.
Proof. repeat split; vm_compute; reflexivity. Qed.

(** C6, amended: a failed insert is fatal to the process.  When the insert
    of a comment fails the scan ends with the store as it was; when the
    insert of its self-edge fails it ends with the comment stored and no
    edge for it; when the insert of its ancestor edges fails it ends with
    the comment and its self-edge stored and no other edge for it.  In each
    case the remaining spans are not visited, and a scan that ends this way
    ends the comments loop: the remaining articles are not processed. *)
Theorem store_failure_is_fatal :
  (forall a cp sp rest fails s,
      head_ok sp = true ->
      fails (Store.issued s) = true ->
      CommentPage.each a cp (sp :: rest) fails s = Fatal s) /\
  (forall a cp sp rest fails s c0,
      parsed a sp = Some c0 ->
      fails (Store.issued s) = false ->
      fails (S (Store.issued s)) = true ->
      CommentPage.each a cp (sp :: rest) fails s
        = Fatal (after_comment_insert c0 s)) /\
  (forall a cp sp rest fails s c0 i,
      parsed a sp = Some c0 ->
      CommentPage.scan_back (CommentPage.thread cp) (Comment.offset c0)
                            (CommentPage.depth cp) = Some (S i) ->
      fails (Store.issued s) = false ->
      fails (S (Store.issued s)) = false ->
      fails (S (S (Store.issued s))) = true ->
      CommentPage.each a cp (sp :: rest) fails s = Fatal (after_store c0 s)) /\
  (forall site h p rest fails s s1,
      CommentPage.parse CommentPage.empty (FrontPage.deref h p)
        (site (Article.CommentsLink (FrontPage.deref h p))) fails s = Fatal s1 ->
      comments_loop site h (p :: rest) fails s = Fatal s1 /\
      terminated (comments_loop site h (p :: rest) fails s) = true).
Proof.
  split; [|split; [|split]].
  - intros a cp sp rest fails s Hok Hf.
    destruct (parsed_head_ok a sp Hok) as (c0 & Hp).
    cbn [CommentPage.each]. unfold bind at 1. rewrite (visit_parsed _ _ _ _ _ _ Hp).
    unfold bind at 1. unfold Comment.store, bind at 1, QueryRow at 1.
    now rewrite Hf.
  - intros a cp sp rest fails s c0 Hp Hf0 Hf1.
    cbn [CommentPage.each]. unfold bind at 1. rewrite (visit_parsed _ _ _ _ _ _ Hp).
    unfold bind at 1. unfold Comment.store, bind, QueryRow.
    rewrite Hf0. cbn [Store.tick Store.issued]. now rewrite Hf1.
  - intros a cp sp rest fails s c0 i Hp Hk Hf0 Hf1 Hf2.
    destruct (scan_back_top _ _ _ _ Hk) as (t & Ht & _).
    assert (Hi : (i < List.length (CommentPage.thread cp))%nat)
      by (apply nth_error_Some; congruence).
    cbn [CommentPage.each]. unfold bind at 1. rewrite (visit_parsed _ _ _ _ _ _ Hp).
    unfold bind at 1. rewrite (store_two_ok _ _ _ Hf0 Hf1).
    unfold bind at 1, or_panic at 1.
    cbn [Comment.offset Comment.with_ID]. rewrite Hk.
    rewrite length_app, length_firstn, Nat.min_l by lia. cbn [List.length].
    replace (1 <? S i + 1)%nat with true by (symmetry; apply Nat.ltb_lt; lia).
    replace (S i + 1 - 2)%nat with i by lia.
    rewrite nth_error_app1 by (rewrite length_firstn; lia).
    rewrite nth_error_firstn.
    replace (i <? S i)%nat with true by (symmetry; apply Nat.ltb_lt; lia).
    rewrite Ht. unfold bind at 1 2, or_panic at 1.
    rewrite addReply_fails by exact Hf2. reflexivity.
  - intros site h p rest fails s s1 H.
    assert (E : comments_loop site h (p :: rest) fails s = Fatal s1).
    { cbn [comments_loop]. unfold bind at 1. now rewrite H. }
    split; [exact E|]. now rewrite E.
Qed.

Lemma store_failure_is_fatal_witness :
  CommentPage.each 7 CommentPage.empty sample_doc (fails_at 0) Store.empty
    = Fatal Store.empty /\
  CommentPage.each 7 CommentPage.empty sample_doc (fails_at 1) Store.empty
    = Fatal (after_comment_insert sample_parsed Store.empty) /\
  CommentPage.each 7 sample_page_1 (tl sample_doc) (fails_at 4) sample_store_1
    = Fatal (after_store sample_parsed_reply sample_store_1) /\
  comments_loop sample_site sample_heap [0%nat; 1%nat] (fails_at 3) Store.empty
    = Fatal sample_fatal /\
  terminated (comments_loop sample_site sample_heap [0%nat; 1%nat]
                            (fails_at 3) Store.empty) = true.
Proof.
  split; [|split; [|split]].
  - exact (proj1 store_failure_is_fatal 7 CommentPage.empty
             (sample_span "0" "ann" "101") (tl sample_doc) (fails_at 0) Store.empty
             ltac:(vm_compute; reflexivity) eq_refl).
  - exact (proj1 (proj2 store_failure_is_fatal) 7 CommentPage.empty
             (sample_span "0" "ann" "101") (tl sample_doc) (fails_at 1) Store.empty
             sample_parsed ltac:(vm_compute; reflexivity) eq_refl eq_refl).
  - exact (proj1 (proj2 (proj2 store_failure_is_fatal)) 7 sample_page_1
             (sample_span "80" "bob" "102") (tl (tl sample_doc)) (fails_at 4)
             sample_store_1 sample_parsed_reply 0%nat
             ltac:(vm_compute; reflexivity) ltac:(vm_compute; reflexivity)
             eq_refl eq_refl eq_refl).
  - exact (proj2 (proj2 (proj2 store_failure_is_fatal)) sample_site sample_heap
             0%nat [1%nat] (fails_at 3) Store.empty sample_fatal
             ltac:(vm_compute; reflexivity)).
Defined.




(** C8, at a well-formed span whose permalink is [item?id=101]:
    [parseCommentHead] reads 101 into [c.ID], [store] inserts [c.CommentID],
    which nothing ever sets, and overwrites [c.ID] with the generated key; the
    rows of the sample page hold the keys 1 to 4 and 0 as their
    [comment_id]. *)
Theorem comment_id_column_is_zero :
  permalink_id (sample_span "0" "ann" "101") = Some 101 /\
  option_map (fun h => Comment.ID (fst h))
    (Comment.parseCommentHead (Comment.new 7) (comhead (sample_span "0" "ann" "101")))
    = Some 101 /\
  map (fun r => (Store.c_id r, Store.c_comment_id r))
      (Store.comments (final_store sample_run))
    = [(1, 0); (2, 0); (3, 0); (4, 0)] /\
  map (fun c => (Comment.ID c, Comment.CommentID c))
      (CommentPage.Comments match sample_run with
                            | Ok cp _ => cp
                            | _ => CommentPage.empty
                            end)
    = [(1, 0); (2, 0); (3, 0); (4, 0)].
Proof. repeat split; vm_compute; reflexivity. Qed.

(** C9, as stated: the extraction does not always return the integer denoted
    by the run of digits.  A run that denotes more than [maxInt] makes
    [strconv.Atoi] fail, and the extraction returns 0; and the run that is
    read is the first one of the text, wherever it starts, so a text that
    starts with no digit can still yield a non-zero value. *)
Lemma parseInt_leading_run_refuted :
  (parseIntFromSelectionText "99999999999999999999" = 0 /\
   leading_run_value "99999999999999999999" = 99999999999999999999 /\
   parseIntFromSelectionText "99999999999999999999"
     <> leading_run_value "99999999999999999999") /\
  (parseIntFromSelectionText "no. 7" = 7 /\
   leading_run_value "no. 7" = 0 /\
   parseIntFromSelectionText "no. 7" <> leading_run_value "no. 7").
Proof. repeat split; vm_compute; congruence. Qed.

(** C9, amended: a text without any digit yields 0; otherwise the text splits
    into a digit-free part, the first maximal run of digits and a rest that
    does not start with a digit, and the extraction yields the integer the
    run denotes when it is at most [maxInt], and 0 when it is larger. *)
Theorem parseInt_first_run :
  forall txt,
    (no_digit txt = true /\ parseIntFromSelectionText txt = 0) \/
    (exists pre run rest,
        txt = String.append pre (String.append run rest) /\
        no_digit pre = true /\ all_digits run = true /\ run <> EmptyString /\
        take_digits rest = EmptyString /\
        parseIntFromSelectionText txt =
          if decimal_value run <=? maxInt then decimal_value run else 0).
Proof.
  intros txt.
  destruct (first_run_cases txt) as [H | (pre & run & rest & Hs & Hp & Hr & Hne & Ht)].
  - left. split; auto. unfold parseIntFromSelectionText.
    now rewrite FindString_no_digit.
  - right. exists pre, run, rest. repeat split; auto.
    unfold parseIntFromSelectionText. subst txt.
    rewrite FindString_run, Atoi_digits by assumption.
    now destruct (decimal_value run <=? maxInt).
Qed.

(** C10: the empty page satisfies the stack invariant (the depth counter is
    the length of the stack, offsets increase strictly from bottom to top,
    the top is the comment processed last); every visit that returns
    preserves it and leaves the comment of the visited span on top; under it
    the pop loop never indexes out of range, passes only entries at the new
    offset or deeper and stops below a shallower one; so the invariant holds
    after each span of a scan; and, on a store that respects the key
    discipline, each entry of the stack is the parent of the entry above
    it. *)
Theorem thread_stack_invariant :
  stack_inv CommentPage.empty /\
  (forall a cp sp fails s cp' s',
      stack_inv cp ->
      CommentPage.visit a cp sp fails s = Ok cp' s' ->
      stack_inv cp' /\
      exists c, top cp' = Some c /\ Comment.offset c = span_offset sp /\
                CommentPage.Comments cp' = CommentPage.Comments cp ++ [c]) /\
  (forall cp off,
      stack_inv cp ->
      exists keep,
        CommentPage.scan_back (CommentPage.thread cp) off (CommentPage.depth cp)
          = Some keep /\
        (keep <= CommentPage.depth cp)%nat /\
        (forall i t, (keep <= i < CommentPage.depth cp)%nat ->
                     nth_error (CommentPage.thread cp) i = Some t ->
                     off <= Comment.offset t) /\
        (forall i t, keep = S i ->
                     nth_error (CommentPage.thread cp) i = Some t ->
                     Comment.offset t < off)) /\
  (forall a pre post fails s cp' s',
      CommentPage.each a CommentPage.empty (pre ++ post) fails s = Ok cp' s' ->
      exists cp1 s1,
        CommentPage.each a CommentPage.empty pre fails s = Ok cp1 s1 /\
        stack_inv cp1) /\
  (forall a doc fails s0 cp' s',
      fresh_ids s0 ->
      CommentPage.each a CommentPage.empty doc fails s0 = Ok cp' s' ->
      forall i p c,
        nth_error (CommentPage.thread cp') i = Some p ->
        nth_error (CommentPage.thread cp') (S i) = Some c ->
        child_of s' (Comment.ID c) (Comment.ID p) /\
        Comment.offset p < Comment.offset c).
Proof.
  assert (Hvisit : forall a cp sp fails s cp' s',
      stack_inv cp ->
      CommentPage.visit a cp sp fails s = Ok cp' s' ->
      stack_inv cp' /\
      exists c, top cp' = Some c /\ Comment.offset c = span_offset sp /\
                CommentPage.Comments cp' = CommentPage.Comments cp ++ [c]).
  { intros a cp sp fails s cp' s' Hst H.
    destruct (visit_Ok _ _ _ _ _ _ _ H) as (c0 & keep & Hp & Hk & -> & _).
    split; [now apply stack_inv_pushed|].
    eexists. split; [apply top_pushed|]. split; [|reflexivity].
    apply (parsed_fields _ _ _ Hp). }
  assert (Hempty : stack_inv CommentPage.empty) by (repeat split).
  split; [exact Hempty|]. split; [exact Hvisit|]. split; [|split].
  - intros cp off (Hd & _ & _).
    destruct (scan_back_total (CommentPage.thread cp) off (CommentPage.depth cp)
                ltac:(lia)) as (keep & Hk).
    exists keep. split; auto. split; [eapply scan_back_le; eauto|]. split.
    + intros i t Hi Ht. eapply scan_back_popped; eauto.
    + intros i t -> Ht. destruct (scan_back_top _ _ _ _ Hk) as (u & Hu & Hlt).
      rewrite Ht in Hu. now inversion Hu; subst.
  - intros a pre post fails s cp' s' H. rewrite each_app in H.
    destruct (CommentPage.each a CommentPage.empty pre fails s) as [cp1 s1| |] eqn:E;
      try discriminate.
    exists cp1, s1. split; auto. clear H.
    revert E. generalize CommentPage.empty, Hempty. revert s.
    induction pre as [|sp pre IH]; intros s cp Hcp E.
    + cbn [CommentPage.each] in E. apply ret_Ok in E. now destruct E as [-> _].
    + cbn [CommentPage.each] in E. apply bind_Ok in E.
      destruct E as (cp2 & s2 & Hv & E).
      eapply IH; [|exact E]. eapply Hvisit; eauto.
  - intros a doc fails s0 cp' s' Hf H i p c Hp Hc.
    destruct (each_inv _ _ _ _ _ _ _ _ (scan_inv_start s0 Hf) H) as (Hinv & _).
    pose proof Hinv as ((_ & Hinc & _) & _ & _ & Hth & _ & _ & Hpath).
    split.
    + eapply child_of_linked; [exact Hinv| |eapply Hpath; eauto].
      rewrite Forall_forall in Hth. apply Hth. eapply nth_error_In; eauto.
    + apply (proj1 (increasing_nth _) Hinc i); rewrite nth_error_map.
      * now rewrite Hp.
      * now rewrite Hc.
Qed.

Lemma thread_stack_invariant_witness :
  exists cp1 s1,
    CommentPage.each 7 CommentPage.empty sample_doc never_fails Store.empty
      = Ok cp1 s1 /\
    stack_inv cp1.
Proof.
  assert (H : CommentPage.each 7 CommentPage.empty (sample_doc ++ [])
                never_fails Store.empty = sample_run)
    by (vm_compute; reflexivity).
  exact (proj1 (proj2 (proj2 (proj2 thread_stack_invariant)))
           7 sample_doc [] never_fails Store.empty _ _ H).
Defined.

(** * Further properties *)

(** ** Reading a comment row *)

Lemma maxInt_val : maxInt = 9223372036854775807.
Proof. reflexivity. Qed.

Lemma minInt_val : minInt = -9223372036854775808.
Proof. reflexivity. Qed.

Lemma ParseUint_range : forall s, 0 <= fst (ParseUint s) <= maxUint64.
Proof.
  intros s. destruct s as [|c s];
    [cbn [ParseUint fst]; rewrite maxUint64_val; lia|].
  rewrite ParseUint_run by discriminate.
  pose proof (decimal_value_nonneg _ (take_digits_all (String c s))) as Hd.
  rewrite maxUint64_val.
  destruct (18446744073709551615 <? decimal_value (take_digits (String c s))) eqn:L;
    [cbn [fst]; lia|].
  apply Z.ltb_ge in L.
  destruct (all_digits (String c s)); cbn [fst]; lia.
Qed.

Lemma Atoi_range : forall s, minInt <= fst (Atoi s) <= maxInt.
Proof.
  intros s. unfold Atoi, ParseInt. rewrite maxInt_val, minInt_val.
  destruct s as [|c s]; [cbn [fst]; lia|].
  match goal with
  | |- context [let '(_, _) := ?m in _] => destruct m as [neg body]
  end.
  pose proof (ParseUint_range body) as Hr. rewrite maxUint64_val in Hr.
  change (2 ^ (intSize - 1)) with 9223372036854775808.
  destruct (ParseUint body) as [un [[|]|]]; cbn [fst] in Hr; [cbn [fst]; lia| |];
    (destruct neg; cbn [negb andb];
     [destruct (9223372036854775808 <? un) eqn:L; cbn [fst];
      [lia|apply Z.ltb_ge in L; lia]
     |destruct (9223372036854775808 <=? un) eqn:L; cbn [fst];
      [lia|apply Z.leb_gt in L; lia]]).
Qed.

Lemma Atoi_empty : Atoi EmptyString = (0, Some ErrSyntax).
Proof. reflexivity. Qed.

(** [Atoi] on an unsigned text that is not a numeral: the bytes are read
    from the left, so the digits before the first other byte decide between
    the syntax error and the range error. *)
Lemma Atoi_not_numeral :
  forall w,
    unsigned w = true -> all_digits w = false ->
    Atoi w = if decimal_value (take_digits w) <=? maxUint64
             then (0, Some ErrSyntax) else (maxInt, Some ErrRange).
Proof.
  intros w Hu Hd. destruct w as [|c w]; [discriminate Hd|].
  cbn [unsigned] in Hu. apply negb_true_iff in Hu.
  rewrite (Atoi_unsigned (String c w)) by (try discriminate; exact Hu).
  rewrite Hd, Z.ltb_antisym.
  now destruct (decimal_value (take_digits (String c w)) <=? maxUint64).
Qed.

(** X1: [parseIndent] writes the offset and nothing else.  The error of
    [strconv.Atoi] is dropped and its value kept, so the offset is always
    within the range of [int]; it is 0 when the image has no width; for a
    width made of digits it is the number they denote, or the largest [int]
    when they denote more; for an unsigned width that holds another byte it
    is 0, unless the digits before that byte already exceed the largest
    [uint64]: the conversion then stops with a range error before it reads
    the byte, and the offset is the largest [int]. *)
Theorem parseIndent_offset :
  forall c sp,
    Comment.ID (Comment.parseIndent c sp) = Comment.ID c /\
    Comment.Username (Comment.parseIndent c sp) = Comment.Username c /\
    Comment.CommentID (Comment.parseIndent c sp) = Comment.CommentID c /\
    Comment.Color (Comment.parseIndent c sp) = Comment.Color c /\
    Comment.Content (Comment.parseIndent c sp) = Comment.Content c /\
    Comment.ArticleID (Comment.parseIndent c sp) = Comment.ArticleID c /\
    minInt <= Comment.offset (Comment.parseIndent c sp) <= maxInt /\
    (ind_width sp = None -> Comment.offset (Comment.parseIndent c sp) = 0) /\
    (forall w, ind_width sp = Some w -> all_digits w = true -> w <> EmptyString ->
               Comment.offset (Comment.parseIndent c sp)
                 = Z.min (decimal_value w) maxInt) /\
    (forall w, ind_width sp = Some w -> unsigned w = true -> all_digits w = false ->
               Comment.offset (Comment.parseIndent c sp)
                 = if decimal_value (take_digits w) <=? maxUint64 then 0
                   else maxInt).
Proof.
  intros c sp. unfold Comment.parseIndent. cbn [Comment.ID Comment.Username
    Comment.CommentID Comment.Color Comment.Content Comment.ArticleID Comment.offset].
  repeat (split; [reflexivity|]).
  split; [apply Atoi_range|]. split; [|split].
  - intros ->. reflexivity.
  - intros w -> Hd Hne. cbn [Attr]. rewrite (Atoi_digits w Hd Hne).
    destruct (decimal_value w <=? maxInt) eqn:L; cbn [fst].
    + apply Z.leb_le in L. lia.
    + apply Z.leb_gt in L. lia.
  - intros w -> Hu Hd. cbn [Attr]. rewrite (Atoi_not_numeral w Hu Hd).
    now destruct (decimal_value (take_digits w) <=? maxUint64).
Qed.

Lemma parseIndent_offset_witness :
  Comment.offset (Comment.parseIndent (Comment.new 7)
                    (mkCommentSpan None [] None EmptyString)) = 0 /\
  Comment.offset (Comment.parseIndent (Comment.new 7) (sample_span "80" "bob" "102"))
    = Z.min (decimal_value "80") maxInt /\
  Comment.offset (Comment.parseIndent (Comment.new 7) (sample_span "40px" "bob" "102"))
    = 0 /\
  Comment.offset (Comment.parseIndent (Comment.new 7)
                    (sample_span "99999999999999999999px" "bob" "102"))
    = maxInt.
Proof.
  split; [|split; [|split]].
  - exact (proj1 (proj2 (proj2 (proj2 (proj2 (proj2 (proj2 (proj2
             (parseIndent_offset (Comment.new 7)
                (mkCommentSpan None [] None EmptyString)))))))))
             eq_refl).
  - exact (proj1 (proj2 (proj2 (proj2 (proj2 (proj2 (proj2 (proj2 (proj2
             (parseIndent_offset (Comment.new 7) (sample_span "80" "bob" "102"))))))))))
             "80"%string eq_refl eq_refl ltac:(discriminate)).
  - exact (proj2 (proj2 (proj2 (proj2 (proj2 (proj2 (proj2 (proj2 (proj2
             (parseIndent_offset (Comment.new 7) (sample_span "40px" "bob" "102"))))))))))
             "40px"%string eq_refl eq_refl eq_refl).
  - exact (proj2 (proj2 (proj2 (proj2 (proj2 (proj2 (proj2 (proj2 (proj2
             (parseIndent_offset (Comment.new 7)
                (sample_span "99999999999999999999px" "bob" "102"))))))))))
             "99999999999999999999px"%string eq_refl eq_refl eq_refl).
Defined.

Lemma split_eq_nonempty : forall s, split_eq s <> [].
Proof.
  induction s as [|c s IH]; cbn [split_eq]; [discriminate|].
  destruct (Ascii.eqb c "="); [discriminate|].
  destruct (split_eq s); discriminate.
Qed.

Lemma split_eq_no_eq : forall s, has_eq s = false -> split_eq s = [s].
Proof.
  induction s as [|c s IH]; cbn [split_eq has_eq]; intros H; auto.
  apply orb_false_iff in H. destruct H as [Hc Hs].
  rewrite Hc, (IH Hs). reflexivity.
Qed.

Lemma split_eq_has_eq :
  forall s, has_eq s = true -> exists a b rest, split_eq s = a :: b :: rest.
Proof.
  induction s as [|c s IH]; cbn [split_eq has_eq]; intros H; [discriminate|].
  destruct (Ascii.eqb c "=") eqn:E.
  - destruct (split_eq s) as [|b rest] eqn:Es; [now apply split_eq_nonempty in Es|].
    eauto.
  - destruct (IH H) as (a & b & rest & ->). eauto.
Qed.

Lemma split_eq_app :
  forall pre rest,
    has_eq pre = false ->
    split_eq (String.append pre (String "="%char rest)) = pre :: split_eq rest.
Proof.
  induction pre as [|c pre IH]; intros rest H; cbn [String.append split_eq].
  - reflexivity.
  - cbn [has_eq] in H. apply orb_false_iff in H. destruct H as [Hc Hp].
    rewrite Hc, (IH rest Hp). reflexivity.
Qed.

Lemma digits_no_eq : forall s, all_digits s = true -> has_eq s = false.
Proof.
  induction s as [|c s IH]; cbn [all_digits has_eq]; intros H; auto.
  apply andb_true_iff in H. destruct H as [Hc Hs]. rewrite (IH Hs).
  destruct (Ascii.eqb c "=") eqn:E; auto.
  apply Ascii.eqb_eq in E. subst c. discriminate Hc.
Qed.

(** X2: [parseCommentHead] panics, its index into the result of
    [strings.Split] being out of range, exactly when the head holds two
    links and the [href] it splits contains no ['=']; with any other number
    of links it returns before splitting. *)
Theorem parseCommentHead_panics_iff :
  forall c head,
    Comment.parseCommentHead c head = None <->
    (List.length (Find_a head) = 2%nat /\ has_eq (permalink_href head) = false).
Proof.
  intros c head. unfold Comment.parseCommentHead, permalink_href.
  destruct (List.length (Find_a head) =? 2)%nat eqn:E; cbn [negb].
  - apply Nat.eqb_eq in E.
    destruct (has_eq (Attr (First_href (Next_of_links head)))) eqn:He.
    + destruct (split_eq_has_eq _ He) as (a & b & rest & ->). cbn [nth_error].
      split; [|intros [_ H]; discriminate].
      destruct (Atoi b) as [id [e|]]; discriminate.
    + rewrite (split_eq_no_eq _ He). cbn [nth_error]. tauto.
  - apply Nat.eqb_neq in E. split; [discriminate|]. intros [H _]. contradiction.
Qed.

Lemma parseCommentHead_panics_iff_witness :
  Comment.parseCommentHead (Comment.new 7) (comhead unsplittable_span) = None /\
  Comment.parseCommentHead (Comment.new 7) (comhead (sample_span "0" "ann" "101")) <> None.
Proof.
  split.
  - exact (proj2 (parseCommentHead_panics_iff (Comment.new 7) (comhead unsplittable_span))
             (conj eq_refl eq_refl)).
  - intros H.
    destruct (proj1 (parseCommentHead_panics_iff (Comment.new 7)
                       (comhead (sample_span "0" "ann" "101"))) H) as [_ F].
    discriminate F.
Defined.

(** X3: what [parseCommentHead] returns.  With a number of links other
    than two it reports the wrong count and leaves the comment as it was.
    With two links and a permalink of the form [pre=num], [num] a numeral
    within [int], it sets the username to the text of the first link and the
    id to [num].  Whenever it returns, only the username and the id can have
    changed, and the id is unchanged when an error is returned. *)
Theorem parseCommentHead_outcomes :
  forall c head,
    (List.length (Find_a head) <> 2%nat ->
     Comment.parseCommentHead c head = Some (c, Some Comment.WrongLinkCount)) /\
    (forall pre num,
        List.length (Find_a head) = 2%nat ->
        permalink_href head = String.append pre (String "="%char num) ->
        has_eq pre = false -> all_digits num = true -> num <> EmptyString ->
        decimal_value num <= maxInt ->
        Comment.parseCommentHead c head =
          Some (Comment.with_ID (Comment.with_Username c (First_Text (Find_a head)))
                                (decimal_value num), None)) /\
    (forall c' e,
        Comment.parseCommentHead c head = Some (c', e) ->
        Comment.CommentID c' = Comment.CommentID c /\
        Comment.Color c' = Comment.Color c /\
        Comment.Content c' = Comment.Content c /\
        Comment.ArticleID c' = Comment.ArticleID c /\
        Comment.offset c' = Comment.offset c /\
        (e <> None -> Comment.ID c' = Comment.ID c)).
Proof.
  intros c head. unfold Comment.parseCommentHead, permalink_href.
  split; [|split].
  - intros H. apply Nat.eqb_neq in H. now rewrite H.
  - intros pre num H2 Hh Hp Hd Hne Hle. apply Nat.eqb_eq in H2. rewrite H2. cbn [negb].
    rewrite Hh, (split_eq_app _ _ Hp), (split_eq_no_eq _ (digits_no_eq _ Hd)).
    cbn [nth_error]. rewrite (Atoi_digits _ Hd Hne).
    apply Z.leb_le in Hle. now rewrite Hle.
  - intros c' e H.
    destruct (negb (List.length (Find_a head) =? 2)%nat).
    + inversion H; subst. repeat split; auto.
    + destruct (nth_error _ 1) as [piece|]; try discriminate.
      destruct (Atoi piece) as [id [err|]]; inversion H; subst;
        repeat split; auto. intros F. now contradiction F.
Qed.

Lemma parseCommentHead_outcomes_witness :
  Comment.parseCommentHead (Comment.new 7) (comhead (malformed_span "40" "bob" "102"))
    = Some (Comment.new 7, Some Comment.WrongLinkCount) /\
  Comment.parseCommentHead (Comment.new 7) (comhead (sample_span "0" "ann" "101"))
    = Some (Comment.with_ID
              (Comment.with_Username (Comment.new 7)
                 (First_Text (Find_a (comhead (sample_span "0" "ann" "101")))))
              (decimal_value "101"), None) /\
  Comment.ArticleID (Comment.with_ID (Comment.with_Username (Comment.new 7) "ann") 101) = 7.
Proof.
  split; [|split].
  - exact (proj1 (parseCommentHead_outcomes (Comment.new 7)
                    (comhead (malformed_span "40" "bob" "102")))
             ltac:(vm_compute; discriminate)).
  - exact (proj1 (proj2 (parseCommentHead_outcomes (Comment.new 7)
                           (comhead (sample_span "0" "ann" "101"))))
             "item?id"%string "101"%string eq_refl eq_refl eq_refl eq_refl
             ltac:(discriminate) ltac:(vm_compute; discriminate)).
  - assert (H : Comment.parseCommentHead (Comment.new 7)
                   (comhead (sample_span "0" "ann" "101"))
                 = Some (Comment.with_ID
                           (Comment.with_Username (Comment.new 7) "ann") 101, None))
      by (vm_compute; reflexivity).
    exact (proj1 (proj2 (proj2 (proj2
             (proj2 (proj2 (parseCommentHead_outcomes (Comment.new 7)
                              (comhead (sample_span "0" "ann" "101")))) _ _ H))))).
Defined.

(** ** Reading a front-page row *)

Lemma append_empty_r : forall s, String.append s EmptyString = s.
Proof. induction s as [|c s IH]; cbn [String.append]; [reflexivity|now rewrite IH]. Qed.

Lemma parseInt_range :
  forall txt, 0 <= parseIntFromSelectionText txt <= maxInt.
Proof.
  intros txt. unfold parseIntFromSelectionText.
  destruct (first_run_cases txt) as [H | (pre & run & rest & -> & Hp & Hr & Hne & Ht)].
  - rewrite (FindString_no_digit _ H), maxInt_val. cbn. lia.
  - rewrite (FindString_run _ _ _ Hp Hr Hne Ht), (Atoi_digits _ Hr Hne).
    pose proof (decimal_value_nonneg _ Hr).
    destruct (decimal_value run <=? maxInt) eqn:L.
    + apply Z.leb_le in L. lia.
    + rewrite maxInt_val. lia.
Qed.

(** X4: the rank, the score and the comment count of an article are never
    negative and never above the largest [int], whatever the texts they are
    read from. *)
Theorem article_counts_in_range :
  forall a row st,
    0 <= Article.Rank (Article.parseTitleRow a row) <= maxInt /\
    0 <= Article.Score (fst (Article.parseSubtextRow a (Some st))) <= maxInt /\
    0 <= Article.CommentCount (fst (Article.parseSubtextRow a (Some st))) <= maxInt.
Proof.
  intros a row st. unfold Article.parseTitleRow, Article.parseSubtextRow.
  cbn [fst Article.Rank Article.Score Article.CommentCount].
  repeat split; apply parseInt_range.
Qed.

(** X5: the subtext cell of an article.  Without a cell the article is left
    as it was and the row is reported as not being a subtext row.  With a
    cell the row is always accepted: the username is the text of the first
    link, the comments link and the comment count are read from the last
    link, so that a cell with a single link uses it for all three, and a
    cell without links leaves the username and the comments link empty and
    the count at 0.  The fields of the title row are not touched. *)
Theorem parseSubtextRow_links :
  forall a st,
    Article.parseSubtextRow a None = (a, false) /\
    snd (Article.parseSubtextRow a (Some st)) = true /\
    (Find_a (sub_region st) = [] ->
     Article.Username (fst (Article.parseSubtextRow a (Some st))) = EmptyString /\
     Article.CommentsLink (fst (Article.parseSubtextRow a (Some st))) = EmptyString /\
     Article.CommentCount (fst (Article.parseSubtextRow a (Some st))) = 0) /\
    (forall before lst,
        Find_a (sub_region st) = before ++ [lst] ->
        Article.Username (fst (Article.parseSubtextRow a (Some st)))
          = First_Text (before ++ [lst]) /\
        Article.CommentsLink (fst (Article.parseSubtextRow a (Some st)))
          = Attr (href lst) /\
        Article.CommentCount (fst (Article.parseSubtextRow a (Some st)))
          = parseIntFromSelectionText (text lst)) /\
    Article.ID (fst (Article.parseSubtextRow a (Some st))) = Article.ID a /\
    Article.SnapshotID (fst (Article.parseSubtextRow a (Some st))) = Article.SnapshotID a /\
    Article.Rank (fst (Article.parseSubtextRow a (Some st))) = Article.Rank a /\
    Article.Link (fst (Article.parseSubtextRow a (Some st))) = Article.Link a /\
    Article.Title (fst (Article.parseSubtextRow a (Some st))) = Article.Title a.
Proof.
  intros a st. unfold Article.parseSubtextRow.
  cbn [fst snd Article.Username Article.CommentsLink Article.CommentCount
       Article.ID Article.SnapshotID Article.Rank Article.Link Article.Title].
  split; [reflexivity|]. split; [reflexivity|]. split; [|split].
  - intros ->. repeat split.
  - intros before lst ->. rewrite map_app. cbn [map]. rewrite last_last.
    cbn [First_href Text fold_right]. rewrite append_empty_r. repeat split.
  - repeat split.
Qed.

Lemma parseSubtextRow_links_witness :
  Article.Username (fst (Article.parseSubtextRow (Article.new 1)
     (Some (mkSubtext EmptyString [mkElem "a" (Some "item?id=9"%string) "3 hours ago"]))))
    = "3 hours ago"%string /\
  Article.CommentsLink (fst (Article.parseSubtextRow (Article.new 1)
     (Some (mkSubtext EmptyString [mkElem "a" (Some "item?id=9"%string) "3 hours ago"]))))
    = "item?id=9"%string /\
  Article.CommentCount (fst (Article.parseSubtextRow (Article.new 1)
     (Some (mkSubtext EmptyString [mkElem "a" (Some "item?id=9"%string) "3 hours ago"]))))
    = parseIntFromSelectionText "3 hours ago".
Proof.
  exact (proj1 (proj2 (proj2 (proj2
           (parseSubtextRow_links (Article.new 1)
              (mkSubtext EmptyString [mkElem "a" (Some "item?id=9"%string) "3 hours ago"])))))
           [] (mkElem "a" (Some "item?id=9"%string) "3 hours ago") eq_refl).
Defined.

Lemma skipn_app_exact :
  forall {A} (l1 l2 : list A), skipn (List.length l1) (l1 ++ l2) = l2.
Proof. intros A l1 l2. induction l1 as [|x l1 IH]; cbn; auto. Qed.

Lemma firstn_app_exact :
  forall {A} (l1 l2 : list A), firstn (List.length l1) (l1 ++ l2) = l1.
Proof. intros A l1 l2. induction l1 as [|x l1 IH]; cbn; [reflexivity|now rewrite IH]. Qed.

Lemma assign_assign :
  forall h p x y,
    (p < List.length h)%nat ->
    FrontPage.assign (FrontPage.assign h p x) p y = FrontPage.assign h p y.
Proof.
  intros h p x y H. unfold FrontPage.assign.
  assert (Hl : List.length (firstn p h) = p) by (rewrite length_firstn; lia).
  f_equal.
  - rewrite <- Hl at 1. apply firstn_app_exact.
  - f_equal.
    change (firstn p h ++ x :: skipn (S p) h)
      with (firstn p h ++ [x] ++ skipn (S p) h).
    rewrite app_assoc.
    replace (S p) with (List.length (firstn p h ++ [x])) at 1
      by (rewrite length_app, Hl; simpl; lia).
    apply skipn_app_exact.
Qed.

Lemma assign_same :
  forall h p, (p < List.length h)%nat ->
              FrontPage.assign h p (FrontPage.deref h p) = h.
Proof.
  unfold FrontPage.assign, FrontPage.deref.
  induction h as [|x h IH]; intros p H; cbn [List.length] in H; [lia|].
  destruct p as [|p]; cbn; [reflexivity|].
  f_equal. apply IH. lia.
Qed.

Lemma is_title_not_spacer :
  forall row, is_title row = true -> is_spacer row = false.
Proof.
  intros row H. unfold is_title, is_spacer in *.
  apply String.eqb_eq in H. rewrite H. reflexivity.
Qed.

Lemma visit_title :
  forall w row fails s,
    is_title row = true ->
    FrontPage.visit w row fails s =
      Ok (FrontPage.mkWalk (FrontPage.page w)
            (FrontPage.assign (FrontPage.heap w) (FrontPage.cur w)
               (Article.parseTitleRow
                  (FrontPage.deref (FrontPage.heap w) (FrontPage.cur w)) row))
            (FrontPage.cur w)) s.
Proof.
  intros w row fails s H. unfold FrontPage.visit.
  change (String.eqb (Attr (class row)) SPACER) with (is_spacer row).
  change (String.eqb (Attr (class row)) TITLE_ROW) with (is_title row).
  now rewrite (is_title_not_spacer _ H), H.
Qed.

Lemma visit_subtext :
  forall w row fails s,
    has_subtext row = true ->
    exists st,
      subtext row = Some st /\
      FrontPage.visit w row fails s =
        Ok (FrontPage.mkWalk
              (FrontPage.mk (FrontPage.Articles (FrontPage.page w) ++ [FrontPage.cur w])
                            (FrontPage.SnapshotID (FrontPage.page w)))
              (FrontPage.assign (FrontPage.heap w) (FrontPage.cur w)
                 (fst (Article.parseSubtextRow
                         (FrontPage.deref (FrontPage.heap w) (FrontPage.cur w))
                         (Some st))))
              (FrontPage.cur w)) s.
Proof.
  intros w row fails s H. unfold has_subtext in H.
  apply andb_true_iff in H. destruct H as [H Hst].
  apply andb_true_iff in H. destruct H as [H Hun].
  apply andb_true_iff in H. destruct H as [Hsp Htl].
  apply negb_true_iff in Hsp. apply negb_true_iff in Htl.
  destruct (subtext row) as [st|] eqn:E; [|discriminate].
  exists st. split; [reflexivity|]. unfold FrontPage.visit.
  change (String.eqb (Attr (class row)) SPACER) with (is_spacer row).
  change (String.eqb (Attr (class row)) TITLE_ROW) with (is_title row).
  rewrite Hsp, Htl, Hun, E. reflexivity.
Qed.

Lemma visit_ignored :
  forall w row fails s,
    meaningful row = false ->
    (FrontPage.cur w < List.length (FrontPage.heap w))%nat ->
    FrontPage.visit w row fails s = Ok w s.
Proof.
  intros w row fails s H Hc. unfold meaningful in H.
  apply orb_false_iff in H. destruct H as [H Hsub].
  apply orb_false_iff in H. destruct H as [Hsp Htl].
  unfold FrontPage.visit.
  change (String.eqb (Attr (class row)) SPACER) with (is_spacer row).
  change (String.eqb (Attr (class row)) TITLE_ROW) with (is_title row).
  rewrite Hsp, Htl.
  destruct (String.eqb (Attr (class row)) EmptyString) eqn:Eun; [|reflexivity].
  unfold has_subtext in Hsub. rewrite Hsp, Htl, Eun in Hsub. cbn [negb andb] in Hsub.
  destruct (subtext row); [discriminate|].
  cbn [Article.parseSubtextRow]. rewrite assign_same by exact Hc.
  destruct w. reflexivity.
Qed.

Lemma visit_keeps_bound :
  forall w row fails s w' s',
    (FrontPage.cur w < List.length (FrontPage.heap w))%nat ->
    FrontPage.visit w row fails s = Ok w' s' ->
    (FrontPage.cur w' < List.length (FrontPage.heap w'))%nat.
Proof.
  intros w row fails s w' s' Hc H.
  destruct (meaningful row) eqn:Hm.
  - unfold meaningful in Hm.
    destruct (is_spacer row) eqn:Hsp.
    + unfold FrontPage.visit in H.
      change (String.eqb (Attr (class row)) SPACER) with (is_spacer row) in H.
      rewrite Hsp in H. apply bind_Ok in H. destruct H as (a' & s1 & _ & H).
      cbn [FrontPage.next] in H. apply ret_Ok in H. destruct H as [-> _].
      cbn [FrontPage.cur FrontPage.heap]. rewrite length_app. simpl. lia.
    + destruct (is_title row) eqn:Htl.
      * rewrite (visit_title _ _ _ _ Htl) in H. inversion H; subst.
        cbn [FrontPage.cur FrontPage.heap]. rewrite assign_length; lia.
      * cbn [orb] in Hm.
        destruct (visit_subtext w row fails s Hm) as (st & _ & E).
        rewrite E in H. inversion H; subst.
        cbn [FrontPage.cur FrontPage.heap]. rewrite assign_length; lia.
  - rewrite (visit_ignored _ _ _ _ Hm Hc) in H. inversion H; subst. exact Hc.
Qed.

(** X6: the title row and the subtext row of an article may come in either
    order: the two parsers write different fields of the article under
    construction, and the walk reaches the same state. *)
Theorem title_subtext_commute :
  forall w t u rest fails s,
    is_title t = true -> has_subtext u = true ->
    (FrontPage.cur w < List.length (FrontPage.heap w))%nat ->
    FrontPage.each w (t :: u :: rest) fails s
      = FrontPage.each w (u :: t :: rest) fails s.
Proof.
  intros w t u rest fails s Ht Hu Hc.
  cbn [FrontPage.each]. unfold bind.
  rewrite (visit_title w t fails s Ht).
  destruct (visit_subtext w u fails s Hu) as (st & Est & Eu). rewrite Eu.
  match goal with
  | |- context [FrontPage.visit ?w1 u fails s] =>
      destruct (visit_subtext w1 u fails s Hu) as (st' & Est' & Eu'); rewrite Eu'
  end.
  match goal with
  | |- context [FrontPage.visit ?w2 t fails s] =>
      rewrite (visit_title w2 t fails s Ht)
  end.
  rewrite Est in Est'. inversion Est'; subst st'.
  cbn [FrontPage.page FrontPage.heap FrontPage.cur FrontPage.Articles
       FrontPage.SnapshotID].
  rewrite !assign_assign, !deref_assign_eq by exact Hc.
  reflexivity.
Qed.

Lemma title_subtext_commute_witness :
  FrontPage.each (FrontPage.mkWalk sample_front_page [Article.new 1] 0)
                 [sample_title_row; sample_subtext_row; sample_spacer_row]
                 never_fails Store.empty
  = FrontPage.each (FrontPage.mkWalk sample_front_page [Article.new 1] 0)
                   [sample_subtext_row; sample_title_row; sample_spacer_row]
                   never_fails Store.empty.
Proof.
  exact (title_subtext_commute (FrontPage.mkWalk sample_front_page [Article.new 1] 0)
           sample_title_row sample_subtext_row [sample_spacer_row]
           never_fails Store.empty eq_refl eq_refl ltac:(cbn; lia)).
Defined.

(** X7: rows that are neither a spacer, nor a title row, nor an untagged
    row with a subtext cell are ignored: removing them from the page changes
    neither the outcome of the walk nor the store. *)
Theorem layout_rows_ignored :
  forall rows w fails s,
    (FrontPage.cur w < List.length (FrontPage.heap w))%nat ->
    FrontPage.each w rows fails s = FrontPage.each w (filter meaningful rows) fails s.
Proof.
  induction rows as [|row rows IH]; intros w fails s Hc; [reflexivity|].
  cbn [filter]. destruct (meaningful row) eqn:Hm.
  - cbn [FrontPage.each]. unfold bind.
    destruct (FrontPage.visit w row fails s) as [w1 s1| |] eqn:E; auto.
    apply IH. eapply visit_keeps_bound; eauto.
  - cbn [FrontPage.each]. unfold bind at 1.
    rewrite (visit_ignored _ _ _ _ Hm Hc). now apply IH.
Qed.

Lemma layout_rows_ignored_witness :
  FrontPage.each (FrontPage.mkWalk sample_front_page [Article.new 1] 0)
                 sample_rows never_fails Store.empty
  = FrontPage.each (FrontPage.mkWalk sample_front_page [Article.new 1] 0)
                   (filter meaningful sample_rows) never_fails Store.empty.
Proof.
  exact (layout_rows_ignored sample_rows
           (FrontPage.mkWalk sample_front_page [Article.new 1] 0)
           never_fails Store.empty ltac:(cbn; lia)).
Defined.

(** ** The reply target of a comment *)

Lemma firstn_succ_nth :
  forall {A} (l : list A) i t,
    nth_error l i = Some t -> firstn (S i) l = firstn i l ++ [t].
Proof.
  intros A l. induction l as [|x l IH]; intros i t H; destruct i; try discriminate.
  - inversion H. reflexivity.
  - cbn [nth_error] in H. cbn [firstn app]. f_equal. now apply IH.
Qed.

Lemma find_app_none :
  forall {A} (P : A -> bool) l1 l2,
    (forall x, In x l1 -> P x = false) -> find P (l1 ++ l2) = find P l2.
Proof.
  intros A P l1 l2. induction l1 as [|x l1 IH]; intros H; [reflexivity|].
  cbn [app find]. rewrite (H x (or_introl eq_refl)).
  apply IH. intros y Hy. apply H. now right.
Qed.

(** The entry the pop loop stops at is the topmost entry of the stack that
    is shallower than the new comment. *)
Lemma scan_back_find :
  forall th off n keep,
    CommentPage.scan_back th off n = Some keep ->
    match keep with
    | O => None
    | S i => nth_error th i
    end = find (fun x => Comment.offset x <? off) (rev (firstn n th)).
Proof.
  induction n as [|i IH]; intros keep H; cbn [CommentPage.scan_back] in H.
  - inversion H. reflexivity.
  - destruct (nth_error th i) as [t|] eqn:E; try discriminate.
    rewrite (firstn_succ_nth _ _ _ E), rev_app_distr. cbn [rev app find].
    destruct (Comment.offset t <? off).
    + inversion H. exact E.
    + now apply IH.
Qed.

Lemma spine_pushed :
  forall cp keep c,
    spine_inv cp ->
    CommentPage.scan_back (CommentPage.thread cp) (Comment.offset c)
                          (CommentPage.depth cp) = Some keep ->
    spine_inv (pushed cp keep c).
Proof.
  intros cp keep c [Hd Hf] Hk. split; [reflexivity|].
  intros off. unfold pushed. cbn [CommentPage.thread CommentPage.Comments].
  rewrite !rev_app_distr. cbn [rev app find].
  destruct (Comment.offset c <? off) eqn:L; [reflexivity|].
  apply Z.ltb_ge in L. rewrite <- Hf.
  rewrite <- (firstn_skipn keep (CommentPage.thread cp)) at 2.
  rewrite rev_app_distr. symmetry. apply find_app_none.
  intros x Hx. apply in_rev in Hx.
  destruct (In_nth_error _ _ Hx) as (j & Hj).
  rewrite nth_error_skipn in Hj.
  assert (Hlt : (keep + j < List.length (CommentPage.thread cp))%nat)
    by (apply nth_error_Some; congruence).
  pose proof (scan_back_popped _ _ _ _ Hk (keep + j)%nat x ltac:(lia) Hj).
  apply Z.ltb_ge. lia.
Qed.

Lemma each_spine :
  forall a doc cp fails s cp' s',
    spine_inv cp ->
    CommentPage.each a cp doc fails s = Ok cp' s' ->
    spine_inv cp' /\
    map Comment.offset (CommentPage.Comments cp') =
      map Comment.offset (CommentPage.Comments cp) ++ map span_offset doc.
Proof.
  intros a doc. induction doc as [|sp doc IH]; intros cp fails s cp' s' Hsp H.
  - cbn [CommentPage.each] in H. apply ret_Ok in H. destruct H as [-> _].
    split; [exact Hsp|]. now rewrite app_nil_r.
  - cbn [CommentPage.each] in H. apply bind_Ok in H.
    destruct H as (cp1 & s1 & Hv & H).
    destruct (visit_Ok _ _ _ _ _ _ _ Hv) as (c0 & keep & Hp & Hk & -> & _).
    destruct (IH _ _ _ _ _
                (spine_pushed cp keep (Comment.with_ID c0 (Store.comments_seq s)) Hsp Hk)
                H) as (Hsp' & Ho).
    split; [exact Hsp'|]. rewrite Ho. unfold pushed. cbn [CommentPage.Comments].
    rewrite map_app, <- app_assoc. cbn [map app]. do 2 f_equal.
    apply (parsed_fields _ _ _ Hp).
Qed.

Lemma spine_empty : spine_inv CommentPage.empty.
Proof. split; reflexivity. Qed.

(** X8: the parent the scan gives to a comment is the latest comment before
    it in the page whose offset is strictly smaller, and the comment is a
    root when there is none.  Here [cp1] is the page after the spans before
    [sp], whose comments carry the offsets of those spans, and [cp2] the page
    after the visit of [sp]. *)
Theorem reply_target_nearest_shallower :
  forall a pre sp fails s cp1 s1 cp2 s2,
    CommentPage.each a CommentPage.empty pre fails s = Ok cp1 s1 ->
    CommentPage.visit a cp1 sp fails s1 = Ok cp2 s2 ->
    map Comment.offset (CommentPage.Comments cp1) = map span_offset pre /\
    reply_target cp2 = nearest_shallower (CommentPage.Comments cp1) (span_offset sp).
Proof.
  intros a pre sp fails s cp1 s1 cp2 s2 H1 Hv.
  destruct (each_spine _ _ _ _ _ _ _ spine_empty H1) as ([Hd Hf] & Ho).
  split; [exact Ho|].
  destruct (visit_Ok _ _ _ _ _ _ _ Hv) as (c0 & keep & Hp & Hk & -> & _).
  assert (Hoff : Comment.offset c0 = span_offset sp) by apply (parsed_fields _ _ _ Hp).
  rewrite Hoff in Hk.
  pose proof (scan_back_le _ _ _ _ Hk) as Hle.
  rewrite reply_target_pushed by lia.
  rewrite (scan_back_find _ _ _ _ Hk), Hd, firstn_all.
  unfold nearest_shallower. apply Hf.
Qed.

Lemma reply_target_nearest_shallower_witness :
  map Comment.offset (CommentPage.Comments sample_page_1)
    = map span_offset [sample_span "0" "ann" "101"] /\
  reply_target
    match CommentPage.visit 7 sample_page_1 (sample_span "80" "bob" "102")
            never_fails sample_store_1 with
    | Ok cp _ => cp
    | _ => CommentPage.empty
    end
  = nearest_shallower (CommentPage.Comments sample_page_1)
                      (span_offset (sample_span "80" "bob" "102")).
Proof.
  assert (H1 : CommentPage.each 7 CommentPage.empty [sample_span "0" "ann" "101"]
                 never_fails Store.empty = sample_first)
    by (vm_compute; reflexivity).
  assert (Hv : CommentPage.visit 7 sample_page_1 (sample_span "80" "bob" "102")
                 never_fails sample_store_1
               = Ok match CommentPage.visit 7 sample_page_1
                            (sample_span "80" "bob" "102")
                            never_fails sample_store_1 with
                    | Ok cp _ => cp
                    | _ => CommentPage.empty
                    end
                    (final_store
                       (CommentPage.visit 7 sample_page_1
                          (sample_span "80" "bob" "102") never_fails sample_store_1)))
    by (vm_compute; reflexivity).
  exact (reply_target_nearest_shallower 7 [sample_span "0" "ann" "101"]
           (sample_span "80" "bob" "102") never_fails Store.empty
           sample_page_1 sample_store_1 _ _ H1 Hv).
Defined.

(** ** The closure rows spell out the stack *)

Lemma chain_deeper : forall ids k, chain ids (k + 1) = deeper (chain ids k).
Proof.
  unfold deeper. induction ids as [|x ids IH]; intros k; cbn [chain map]; auto.
  cbn [fst snd]. now rewrite IH.
Qed.

Lemma path_pairs_snoc :
  forall stack c,
    path_pairs (stack ++ [c]) = (Comment.ID c, 0) :: deeper (path_pairs stack).
Proof.
  intros stack c. unfold path_pairs. rewrite rev_app_distr. cbn [rev app map chain].
  f_equal. apply (chain_deeper _ 0).
Qed.

Lemma visit_path :
  forall n0 a cp sp fails s cp' s',
    scan_inv n0 cp s -> path_inv cp s ->
    CommentPage.visit a cp sp fails s = Ok cp' s' ->
    path_inv cp' s'.
Proof.
  intros n0 a cp sp fails s cp' s' Hinv Hpath H.
  destruct (visit_step _ _ _ _ _ _ _ _ Hinv H)
    as (c & keep & Hk & Hid & Hof & Hth & Hdp & Hcs & Hinv' & Hseq & Hsame & Hnew & _).
  pose proof (scan_back_le _ _ _ _ Hk) as Hle.
  destruct Hinv as ((Hd & _) & _ & _ & Hids & _).
  assert (Hlen : List.length (firstn keep (CommentPage.thread cp)) = keep)
    by (rewrite length_firstn; lia).
  intros i x Hi. rewrite Hth in Hi |- *.
  destruct (Nat.lt_ge_cases i keep) as [Hlt|Hge].
  - rewrite nth_error_app1 in Hi by lia. rewrite nth_error_firstn in Hi.
    replace (i <? keep)%nat with true in Hi by (symmetry; apply Nat.ltb_lt; lia).
    rewrite firstn_app, Hlen. replace (S i - keep)%nat with 0%nat by lia.
    change (firstn 0 [c]) with (@nil Comment.t).
    rewrite app_nil_r, firstn_firstn, Nat.min_l by lia.
    rewrite Forall_forall in Hids. pose proof (Hids x (nth_error_In _ _ Hi)).
    rewrite Hsame by lia. now apply Hpath.
  - rewrite nth_error_app2 in Hi by lia. rewrite Hlen in Hi.
    destruct (i - keep)%nat as [|j] eqn:E;
      [|destruct j; discriminate Hi].
    cbn [nth_error] in Hi. inversion Hi; subst x.
    assert (i = keep) by lia. subst i.
    rewrite firstn_all2 by (rewrite length_app, Hlen; simpl; lia).
    rewrite path_pairs_snoc, Hid, Hnew. f_equal.
    destruct keep as [|j]; [reflexivity|].
    destruct (scan_back_top _ _ _ _ Hk) as (t & Ht & _).
    rewrite Ht, (Hpath j t Ht). reflexivity.
Qed.

Lemma each_path :
  forall n0 a doc cp fails s cp' s',
    scan_inv n0 cp s -> path_inv cp s ->
    CommentPage.each a cp doc fails s = Ok cp' s' ->
    path_inv cp' s'.
Proof.
  intros n0 a doc. induction doc as [|sp doc IH]; intros cp fails s cp' s' Hinv Hp H.
  - cbn [CommentPage.each] in H. apply ret_Ok in H. now destruct H as [-> ->].
  - cbn [CommentPage.each] in H. apply bind_Ok in H.
    destruct H as (cp1 & s1 & Hv & H).
    destruct (visit_inv _ _ _ _ _ _ _ _ Hinv Hv) as (Hinv1 & _).
    exact (IH _ _ _ _ _ Hinv1 (visit_path _ _ _ _ _ _ _ _ Hinv Hp Hv) H).
Qed.

(** X9: the closure rows of a comment spell out the stack at the time it
    was pushed.  After any prefix of a scan, for every entry of the stack,
    the rows the final store holds for it are: the entry itself at depth 0,
    the entry below it at depth 1, and so on down to the bottom of the stack,
    in this order and nothing else. *)
Theorem ancestors_are_the_stack :
  forall fails a pre post s0 cp' s',
    fresh_ids s0 ->
    CommentPage.each a CommentPage.empty (pre ++ post) fails s0 = Ok cp' s' ->
    exists cp1 s1,
      CommentPage.each a CommentPage.empty pre fails s0 = Ok cp1 s1 /\
      forall i c,
        nth_error (CommentPage.thread cp1) i = Some c ->
        ancestors_of s' (Comment.ID c)
          = path_pairs (firstn (S i) (CommentPage.thread cp1)).
Proof.
  intros fails a pre post s0 cp' s' Hf H.
  destruct (each_Ok_prefix _ _ _ _ _ _ _ _ H) as (cp1 & s1 & H1 & H2).
  exists cp1, s1. split; [exact H1|].
  pose proof (scan_inv_start s0 Hf) as Hinv0.
  assert (Hp0 : path_inv CommentPage.empty s0)
    by (intros i c Hi; destruct i; discriminate Hi).
  destruct (each_inv _ _ _ _ _ _ _ _ Hinv0 H1) as (Hinv1 & _).
  pose proof (each_path _ _ _ _ _ _ _ _ Hinv0 Hp0 H1) as Hp1.
  destruct (each_inv _ _ _ _ _ _ _ _ Hinv1 H2) as (_ & _ & Hstable & _).
  intros i c Hi. rewrite Hstable; [now apply Hp1|].
  destruct Hinv1 as (_ & _ & _ & Hids & _).
  rewrite Forall_forall in Hids. apply (Hids c (nth_error_In _ _ Hi)).
Qed.

Lemma ancestors_are_the_stack_witness :
  exists cp1 s1,
    CommentPage.each 7 CommentPage.empty sample_doc never_fails Store.empty
      = Ok cp1 s1 /\
    forall i c,
      nth_error (CommentPage.thread cp1) i = Some c ->
      ancestors_of (final_store sample_run) (Comment.ID c)
        = path_pairs (firstn (S i) (CommentPage.thread cp1)).
Proof.
  assert (H : CommentPage.each 7 CommentPage.empty (sample_doc ++ [])
                never_fails Store.empty = sample_run)
    by (vm_compute; reflexivity).
  exact (ancestors_are_the_stack never_fails 7 sample_doc [] Store.empty _ _
           fresh_ids_empty H).
Defined.

(** ** The comments of a page, in order *)

Lemma each_comments :
  forall a doc cp fails s cp' s',
    CommentPage.each a cp doc fails s = Ok cp' s' ->
    exists new,
      CommentPage.Comments cp' = CommentPage.Comments cp ++ new /\
      map Comment.ID new = ids_from (Store.comments_seq s) (List.length doc) /\
      map Comment.offset new = map span_offset doc /\
      Forall (fun c => Comment.ArticleID c = a /\ Comment.CommentID c = 0) new /\
      Store.comments s' = Store.comments s ++ map row_of new /\
      Store.comments_seq s' = Store.comments_seq s + Z.of_nat (List.length doc).
Proof.
  intros a doc. induction doc as [|sp doc IH]; intros cp fails s cp' s' H.
  - cbn [CommentPage.each] in H. apply ret_Ok in H. destruct H as [-> ->].
    exists []. cbn. rewrite !app_nil_r. repeat split; auto. lia.
  - cbn [CommentPage.each] in H. apply bind_Ok in H.
    destruct H as (cp1 & s1 & Hv & H).
    destruct (visit_Ok _ _ _ _ _ _ _ Hv) as (c0 & keep & Hp & Hk & -> & ->).
    destruct (IH _ _ _ _ _ H) as (new & Hc & Hi & Ho & Hf & Hr & Hs).
    destruct (parsed_fields _ _ _ Hp) as (Po & Pa & Pc & _).
    rewrite comments_seq_after_visit in Hi, Hs.
    exists (Comment.with_ID c0 (Store.comments_seq s) :: new).
    split; [rewrite Hc; unfold pushed; cbn [CommentPage.Comments];
            now rewrite <- app_assoc|].
    split; [cbn [map List.length ids_from Comment.ID Comment.with_ID]; now rewrite Hi|].
    split; [cbn [map]; rewrite Ho; f_equal; exact Po|].
    split; [constructor; [split; assumption|exact Hf]|].
    split.
    + rewrite Hr. cbn [map]. change (?x :: ?l) with ([x] ++ l). rewrite app_assoc.
      f_equal. unfold after_visit. now destruct (reply_target _).
    + rewrite Hs. cbn [List.length]. lia.
Qed.

(** X10: a scan that returns has made one comment of every span, in the
    order of the page and with the offsets of the spans, none dropped; their
    keys are consecutive values of the sequence, starting with the value it
    had when the scan began; each of them carries the id of the article, and
    the rows added to [hackernews.comments] are theirs, in the same order. *)
Theorem scan_comments_in_order :
  forall fails a doc s0 cp' s',
    CommentPage.parse CommentPage.empty a (Some doc) fails s0 = Ok cp' s' ->
    List.length (CommentPage.Comments cp') = List.length doc /\
    map Comment.ID (CommentPage.Comments cp')
      = ids_from (Store.comments_seq s0) (List.length doc) /\
    map Comment.offset (CommentPage.Comments cp') = map span_offset doc /\
    Forall (fun c => Comment.ArticleID c = Article.ID a) (CommentPage.Comments cp') /\
    Store.comments s' = Store.comments s0 ++ map row_of (CommentPage.Comments cp') /\
    Forall (fun r => Store.c_article_id r = Article.ID a)
           (map row_of (CommentPage.Comments cp')).
Proof.
  intros fails a doc s0 cp' s' H. apply parse_Ok in H.
  destruct (each_comments _ _ _ _ _ _ _ H) as (new & Hc & Hi & Ho & Hf & Hr & _).
  cbn [CommentPage.Comments CommentPage.empty app] in Hc. rewrite Hc.
  split; [rewrite <- (length_map Comment.offset), Ho; apply length_map|].
  split; [exact Hi|]. split; [exact Ho|].
  split; [eapply Forall_impl; [|exact Hf]; intros c [Ha _]; exact Ha|].
  split; [exact Hr|].
  apply Forall_forall. intros r Hin. apply in_map_iff in Hin.
  destruct Hin as (c & <- & Hin). rewrite Forall_forall in Hf.
  apply (Hf c Hin).
Qed.

Lemma scan_comments_in_order_witness :
  map Comment.ID
      (CommentPage.Comments match sample_run with
                            | Ok cp _ => cp
                            | _ => CommentPage.empty
                            end)
    = ids_from (Store.comments_seq Store.empty) (List.length sample_doc).
Proof.
  assert (H : CommentPage.parse CommentPage.empty sample_article (Some sample_doc)
                never_fails Store.empty = sample_run)
    by (vm_compute; reflexivity).
  exact (proj1 (proj2 (scan_comments_in_order never_fails sample_article sample_doc
                         Store.empty _ _ H))).
Defined.

(** X11: the edges a scan adds stay within the page and point forward:
    an edge whose descendant the scan persisted has a descendant among the
    keys the scan handed out, and either is a self-edge at depth 0 or has, at
    depth 1 or more, an ancestor that the same scan persisted earlier; and
    the rows of comments persisted before the scan are left as they were. *)
Theorem scan_edges_point_forward :
  forall fails a doc s0 cp' s',
    fresh_ids s0 ->
    CommentPage.parse CommentPage.empty a (Some doc) fails s0 = Ok cp' s' ->
    (forall e,
        In e (Store.threads s') ->
        Store.comments_seq s0 <= Store.descendant e ->
        Store.descendant e < Store.comments_seq s0 + Z.of_nat (List.length doc) /\
        ((Store.ancestor e = Store.descendant e /\ Store.depth e = 0) \/
         (Store.comments_seq s0 <= Store.ancestor e < Store.descendant e /\
          1 <= Store.depth e))) /\
    (forall d, d < Store.comments_seq s0 -> ancestors_of s' d = ancestors_of s0 d).
Proof.
  intros fails a doc s0 cp' s' Hf H. apply parse_Ok in H.
  destruct (each_inv _ _ _ _ _ _ _ _ (scan_inv_start s0 Hf) H)
    as (Hinv & Hseq & Hstable & _).
  split; [|exact Hstable].
  intros e He Hd.
  destruct Hinv as (_ & Hf' & _ & _ & _ & Hwl & _).
  assert (Hlt : Store.descendant e < Store.comments_seq s').
  { unfold fresh_ids in Hf'. rewrite Forall_forall in Hf'. apply (Hf' e He). }
  split; [lia|].
  destruct (Hwl (Store.descendant e) ltac:(lia)) as (rest & Er & Fr & _).
  pose proof (edge_in_ancestors s' e He) as Hin. rewrite Er in Hin.
  destruct Hin as [E|Hin].
  - left. inversion E. auto.
  - right. rewrite Forall_forall in Fr. apply (Fr _ Hin).
Qed.

Lemma scan_edges_point_forward_witness :
  4 < Store.comments_seq Store.empty + Z.of_nat (List.length sample_doc) /\
  ((1 = 4 /\ 2 = 0) \/ (Store.comments_seq Store.empty <= 1 < 4 /\ 1 <= 2)).
Proof.
  assert (H : CommentPage.parse CommentPage.empty sample_article (Some sample_doc)
                never_fails Store.empty = sample_run)
    by (vm_compute; reflexivity).
  assert (Hin : In (Store.mkThreadRow 8 1 4 2) (Store.threads (final_store sample_run)))
    by (vm_compute; tauto).
  exact (proj1 (scan_edges_point_forward never_fails sample_article sample_doc
                  Store.empty _ _ fresh_ids_empty H)
           (Store.mkThreadRow 8 1 4 2) Hin ltac:(vm_compute; discriminate)).
Defined.

(** ** How a scan can end *)

(** Under the invariant of the scan, a visit of a span whose head can be
    indexed either returns or ends the process at a statement that failed. *)
Lemma visit_outcome :
  forall n0 a cp sp fails s,
    scan_inv n0 cp s -> head_ok sp = true ->
    (exists cp' s', CommentPage.visit a cp sp fails s = Ok cp' s') \/
    (exists s1, CommentPage.visit a cp sp fails s = Fatal s1 /\
                fails (Store.issued s1) = true).
Proof.
  intros n0 a cp sp fails s Hinv Hok.
  destruct Hinv as ((Hd & _) & Hf & _ & Hth & _ & Hwl & _).
  destruct (parsed_head_ok a sp Hok) as (c0 & Hp).
  remember (CommentPage.visit a cp sp fails s) as r eqn:Er.
  rewrite (visit_parsed _ _ _ _ _ _ Hp) in Er. unfold bind at 1 in Er.
  destruct (fails (Store.issued s)) eqn:F0.
  { right. rewrite (store_fails_first _ _ _ F0) in Er. eauto. }
  destruct (fails (S (Store.issued s))) eqn:F1.
  { right. rewrite (store_fails_second _ _ _ F0 F1) in Er.
    exists (after_comment_insert c0 s). split; [exact Er|exact F1]. }
  rewrite (store_two_ok _ _ _ F0 F1) in Er.
  destruct (scan_back_total (CommentPage.thread cp) (Comment.offset c0)
              (CommentPage.depth cp) ltac:(lia)) as (keep & Hk).
  pose proof (scan_back_le _ _ _ _ Hk) as Hle.
  unfold bind at 1, or_panic at 1 in Er.
  cbn [Comment.offset Comment.with_ID] in Er. rewrite Hk in Er.
  rewrite length_app, length_firstn, Nat.min_l in Er by lia.
  cbn [List.length] in Er.
  destruct keep as [|i].
  - left. cbn in Er. unfold bind, ret in Er. eauto.
  - replace (1 <? S i + 1)%nat with true in Er by (symmetry; apply Nat.ltb_lt; lia).
    replace (S i + 1 - 2)%nat with i in Er by lia.
    rewrite nth_error_app1 in Er by (rewrite length_firstn; lia).
    rewrite nth_error_firstn in Er.
    replace (i <? S i)%nat with true in Er by (symmetry; apply Nat.ltb_lt; lia).
    destruct (scan_back_top _ _ _ _ Hk) as (p & Hp' & _).
    rewrite Hp' in Er. unfold bind at 1 2, or_panic at 1 in Er.
    destruct (fails (S (S (Store.issued s)))) eqn:F2.
    + right. rewrite addReply_fails in Er by exact F2.
      exists (after_store c0 s). split; [exact Er|exact F2].
    + left. rewrite Forall_forall in Hth.
      pose proof (Hth p (nth_error_In _ _ Hp')) as Hpr.
      destruct (Hwl _ Hpr) as (rest & Er' & _).
      destruct (addReply_answers p (Comment.with_ID c0 (Store.comments_seq s)) fails
                  (after_store c0 s) F2) as (r' & Hr).
      * rewrite threads_after_store. unfold Comment.reply_rows.
        rewrite filter_app, map_app. unfold ancestors_of in Er'.
        destruct (filter (fun e => Store.descendant e =? Comment.ID p)
                         (Store.threads s)); simpl in *; congruence.
      * rewrite Hr in Er. unfold ret in Er. eauto.
Qed.

Lemma each_outcome :
  forall n0 a doc cp fails s,
    scan_inv n0 cp s -> forallb head_ok doc = true ->
    match CommentPage.each a cp doc fails s with
    | Ok _ _ => True
    | Fatal s1 => fails (Store.issued s1) = true
    | Panic _ => False
    end.
Proof.
  intros n0 a doc. induction doc as [|sp doc IH]; intros cp fails s Hinv Hok.
  - exact I.
  - cbn [forallb] in Hok. apply andb_true_iff in Hok. destruct Hok as [Hsp Hdoc].
    cbn [CommentPage.each]. unfold bind.
    destruct (visit_outcome _ a _ _ fails _ Hinv Hsp)
      as [(cp1 & s1 & Hv) | (s1 & Hv & Hf)]; rewrite Hv.
    + destruct (visit_inv _ _ _ _ _ _ _ _ Hinv Hv) as (Hinv1 & _).
      now apply IH.
    + exact Hf.
Qed.

(** X12: on a store that respects the key discipline, a scan of a page
    whose heads can all be indexed never panics, whatever the store does:
    the indices into the stack are always in range.  It either returns or
    ends the process, and it ends the process only at a statement that
    failed; in particular [addReply] always finds the rows of the parent and
    never reads an empty result. *)
Theorem scan_never_panics :
  forall fails a doc s0,
    fresh_ids s0 -> forallb head_ok doc = true ->
    match CommentPage.parse CommentPage.empty a (Some doc) fails s0 with
    | Ok _ _ => True
    | Fatal s1 => fails (Store.issued s1) = true
    | Panic _ => False
    end.
Proof.
  intros fails a doc s0 Hf Hok.
  exact (each_outcome _ (Article.ID a) doc _ fails s0 (scan_inv_start s0 Hf) Hok).
Qed.

Lemma scan_never_panics_witness :
  match CommentPage.parse CommentPage.empty sample_article (Some sample_doc)
          (fails_at 6) Store.empty with
  | Ok _ _ => True
  | Fatal s1 => fails_at 6 (Store.issued s1) = true
  | Panic _ => False
  end.
Proof.
  exact (scan_never_panics (fails_at 6) sample_article sample_doc Store.empty
           fresh_ids_empty ltac:(vm_compute; reflexivity)).
Defined.

(** ** The comments loop over a snapshot *)





(** ** A new front page *)

Lemma Article_store_Ok :
  forall a fails s a' s',
    Article.store a fails s = Ok a' s' ->
    a' = Article.with_ID a (Store.articles_seq s) /\ s' = after_article a s.
Proof.
  intros a fails s a' s' H. unfold Article.store in H.
  apply bind_Ok in H. destruct H as (id & s1 & H1 & H).
  apply ret_Ok in H. destruct H as [-> ->].
  apply QueryRow_Ok in H1. destruct H1 as (_ & E & ->). cbn in E.
  inversion E; subst id. split; reflexivity.
Qed.

Lemma visit_snapshot :
  forall base snap w row fails s w' s',
    snapshot_inv base snap w ->
    FrontPage.visit w row fails s = Ok w' s' ->
    snapshot_inv base snap w' /\
    exists added,
      Store.articles s' = Store.articles s ++ added /\
      Forall (fun r => Store.a_snapshot_id r = snap) added.
Proof.
  intros base snap w row fails s w' s' (Hlen & Hb & Hsn & Hheap & Harts) H.
  assert (Hc : (FrontPage.cur w < List.length (FrontPage.heap w))%nat) by lia.
  assert (Hcur : Article.SnapshotID
                   (FrontPage.deref (FrontPage.heap w) (FrontPage.cur w)) = snap)
    by (apply Hheap; lia).
  destruct (meaningful row) eqn:Hm.
  - unfold meaningful in Hm. destruct (is_spacer row) eqn:Hsp.
    + unfold FrontPage.visit in H.
      change (String.eqb (Attr (class row)) SPACER) with (is_spacer row) in H.
      rewrite Hsp in H. apply bind_Ok in H. destruct H as (a' & s1 & Hst & H).
      apply Article_store_Ok in Hst. destruct Hst as [-> ->].
      cbn [FrontPage.next] in H. apply ret_Ok in H. destruct H as [-> ->].
      split.
      * unfold snapshot_inv. cbn [FrontPage.heap FrontPage.cur FrontPage.page].
        rewrite length_app, assign_length by lia. cbn [List.length].
        split; [lia|]. split; [lia|]. split; [exact Hsn|]. split.
        -- intros q Hq. destruct (Nat.eq_dec q (List.length (FrontPage.heap w))) as [->|Hne].
           ++ rewrite <- (assign_length (FrontPage.heap w) (FrontPage.cur w)
                            (Article.with_ID
                               (FrontPage.deref (FrontPage.heap w) (FrontPage.cur w))
                               (Store.articles_seq s))) at 1 by lia.
              rewrite deref_app_new. cbn. exact Hsn.
           ++ rewrite deref_app_l by (rewrite assign_length; lia).
              destruct (Nat.eq_dec q (FrontPage.cur w)) as [->|Hq'].
              ** rewrite deref_assign_eq by lia. exact Hcur.
              ** rewrite deref_assign_neq by lia. apply Hheap. lia.
        -- eapply Forall_impl; [|exact Harts]. cbn. intros; lia.
      * eexists. split; [reflexivity|]. constructor; [exact Hcur|constructor].
    + destruct (is_title row) eqn:Htl.
      * rewrite (visit_title _ _ _ _ Htl) in H. inversion H; subst.
        split; [|exists []; split; [now rewrite app_nil_r|constructor]].
        unfold snapshot_inv. cbn [FrontPage.heap FrontPage.cur FrontPage.page].
        rewrite assign_length by lia.
        split; [lia|]. split; [lia|]. split; [reflexivity|]. split; [|exact Harts].
        intros q Hq. destruct (Nat.eq_dec q (FrontPage.cur w)) as [->|Hq'].
        -- rewrite deref_assign_eq by lia. exact Hcur.
        -- rewrite deref_assign_neq by lia. apply Hheap. lia.
      * cbn [orb] in Hm.
        destruct (visit_subtext w row fails s Hm) as (st & _ & E).
        rewrite E in H. inversion H; subst.
        split; [|exists []; split; [now rewrite app_nil_r|constructor]].
        unfold snapshot_inv.
        cbn [FrontPage.heap FrontPage.cur FrontPage.page FrontPage.SnapshotID
             FrontPage.Articles].
        rewrite assign_length by lia.
        split; [lia|]. split; [lia|]. split; [reflexivity|]. split.
        -- intros q Hq. destruct (Nat.eq_dec q (FrontPage.cur w)) as [->|Hq'].
           ++ rewrite deref_assign_eq by lia. exact Hcur.
           ++ rewrite deref_assign_neq by lia. apply Hheap. lia.
        -- apply Forall_app. split; [exact Harts|]. constructor; [lia|constructor].
  - rewrite (visit_ignored _ _ _ _ Hm Hc) in H. inversion H; subst.
    split; [repeat split; assumption|].
    exists []. split; [now rewrite app_nil_r|constructor].
Qed.

Lemma each_snapshot :
  forall base snap rows w fails s w' s',
    snapshot_inv base snap w ->
    FrontPage.each w rows fails s = Ok w' s' ->
    snapshot_inv base snap w' /\
    exists added,
      Store.articles s' = Store.articles s ++ added /\
      Forall (fun r => Store.a_snapshot_id r = snap) added.
Proof.
  intros base snap rows. induction rows as [|row rows IH]; intros w fails s w' s' Hw H.
  - cbn [FrontPage.each] in H. apply ret_Ok in H. destruct H as [-> ->].
    split; [exact Hw|]. exists []. split; [now rewrite app_nil_r|constructor].
  - cbn [FrontPage.each] in H. apply bind_Ok in H.
    destruct H as (w1 & s1 & Hv & H).
    destruct (visit_snapshot _ _ _ _ _ _ _ _ Hw Hv) as (Hw1 & add1 & E1 & F1).
    destruct (IH _ _ _ _ _ Hw1 H) as (Hw' & add2 & E2 & F2).
    split; [exact Hw'|]. exists (add1 ++ add2).
    split; [rewrite E2, E1; now rewrite app_assoc|].
    apply Forall_app. split; assumption.
Qed.

(** X14: a new front page.  [NewFrontPage] inserts the snapshot first: when
    that insert fails the process ends before anything is parsed, and when
    the page cannot be fetched it ends after that one statement, no
    article stored.  When it returns, the front page holds the key of the new
    snapshot, the key is the next value of the sequence, every article of the
    front page holds it, and every row added to [hackernews.articles] refers
    to it. *)
Theorem NewFrontPage_snapshot :
  (forall t h doc fails s,
      fails (Store.issued s) = true ->
      NewFrontPage t h doc fails s = Fatal s) /\
  (forall t h fails s,
      fails (Store.issued s) = false ->
      NewFrontPage t h None fails s = Fatal (Store.tick s)) /\
  (forall t h rows fails s f' h' t' s',
      NewFrontPage t h (Some rows) fails s = Ok (f', h', t') s' ->
      FrontPage.SnapshotID f' = snapshots_seq t /\
      snapshot_ids t' = snapshot_ids t ++ [snapshots_seq t] /\
      snapshots_seq t' = snapshots_seq t + 1 /\
      Forall (fun p => Article.SnapshotID (FrontPage.deref h' p) = snapshots_seq t)
             (FrontPage.Articles f') /\
      exists added,
        Store.articles s' = Store.articles s ++ added /\
        Forall (fun r => Store.a_snapshot_id r = snapshots_seq t) added).
Proof.
  split; [|split].
  - intros t h doc fails s Hf.
    unfold NewFrontPage, FrontPage_store, bind, QueryRow. now rewrite Hf.
  - intros t h fails s Hf.
    unfold NewFrontPage, FrontPage_store, bind, QueryRow, ret. rewrite Hf.
    reflexivity.
  - intros t h rows fails s f' h' t' s' H. unfold NewFrontPage in H.
    apply bind_Ok in H. destruct H as ([f1 t1] & s1 & Hst & H).
    apply bind_Ok in H. destruct H as ([f2 h2] & s2 & Hp & H).
    apply ret_Ok in H. destruct H as [E ->]. cbn [fst snd] in E, Hp.
    inversion E; subst f' h' t'; clear E.
    unfold FrontPage_store in Hst.
    apply bind_Ok in Hst. destruct Hst as (id & s0 & Hq & Hst).
    apply ret_Ok in Hst. destruct Hst as [E ->].
    apply QueryRow_Ok in Hq. destruct Hq as (_ & Eid & ->). cbn in Eid.
    inversion Eid; subst id. inversion E; subst f1 t1; clear E Eid.
    unfold FrontPage.parse in Hp. cbn [FrontPage.next] in Hp.
    apply bind_Ok in Hp. destruct Hp as (w' & s3 & He & Hp).
    apply ret_Ok in Hp. destruct Hp as [E ->]. inversion E; subst f2 h2; clear E.
    assert (Hw0 : snapshot_inv (List.length h) (snapshots_seq t)
                    (FrontPage.mkWalk
                       (FrontPage.mk [] (snapshots_seq t))
                       (h ++ [Article.new (snapshots_seq t)]) (List.length h))).
    { unfold snapshot_inv. cbn [FrontPage.heap FrontPage.cur FrontPage.page
                                FrontPage.SnapshotID FrontPage.Articles].
      rewrite length_app. cbn [List.length].
      split; [lia|]. split; [lia|]. split; [reflexivity|]. split; [|constructor].
      intros q Hq. replace q with (List.length h) by lia.
      now rewrite deref_app_new. }
    destruct (each_snapshot _ _ _ _ _ _ _ _ Hw0 He)
      as ((_ & _ & Hsn & Hheap & Harts) & added & Ea & Fa).
    split; [exact Hsn|]. split; [reflexivity|]. split; [reflexivity|].
    split.
    + eapply Forall_impl; [|exact Harts]. cbn. intros p Hp. now apply Hheap.
    + exists added. cbn [Store.articles Store.tick] in Ea. auto.
Qed.

Lemma NewFrontPage_snapshot_witness :
  NewFrontPage sample_snapshots [] (Some sample_rows) (fails_at 0) Store.empty
    = Fatal Store.empty /\
  NewFrontPage sample_snapshots [] None never_fails Store.empty
    = Fatal (Store.tick Store.empty) /\
  match NewFrontPage sample_snapshots [] (Some sample_rows) never_fails Store.empty with
  | Ok (f', h', t') s' =>
      FrontPage.SnapshotID f' = snapshots_seq sample_snapshots /\
      Forall (fun p => Article.SnapshotID (FrontPage.deref h' p)
                       = snapshots_seq sample_snapshots)
             (FrontPage.Articles f')
  | _ => False
  end.
Proof.
  split; [|split].
  - exact (proj1 NewFrontPage_snapshot sample_snapshots [] (Some sample_rows)
             (fails_at 0) Store.empty eq_refl).
  - exact (proj1 (proj2 NewFrontPage_snapshot) sample_snapshots [] never_fails
             Store.empty eq_refl).
  - destruct (NewFrontPage sample_snapshots [] (Some sample_rows) never_fails
                Store.empty) as [[[f' h'] t'] s'| |] eqn:E;
      [|vm_compute in E; discriminate E|vm_compute in E; discriminate E].
    destruct (proj2 (proj2 NewFrontPage_snapshot) _ _ _ _ _ _ _ _ _ E)
      as (H1 & _ & _ & H2 & _).
    split; assumption.
Defined.

(** ** The walk of the front page on a store that may fail *)



